(** * JuristMind chat: streaming reader and progress-step tracker

    A shallow embedding of the stream reader of [ChatInterface]
    ([processMessage], [activateStep], [completeStep], [detectStepsFromChunk],
    [getInitialSteps]) together with the parts of the JavaScript runtime the
    reader relies on (string splitting and trimming, case-insensitive regular
    expression search, [JSON.parse], primitive coercions). *)

From Stdlib Require Import NArith ZArith Ascii String List Bool Lia.
From stdpp Require Import gmap strings list pretty.
Import ListNotations.

#[local] Set Warnings "-register-all,-clear-no-such-hyp".

Local Open Scope N_scope.

(** ** JavaScript strings

    A JavaScript string is a sequence of UTF-16 code units; [s.length] counts
    code units.  Identifiers that only ever hold ASCII literals of the source
    (step ids, labels, message ids) are kept as [string]. *)

Definition jsstring := list N.

(** The code units of an ASCII literal of the source. *)
Definition str (s : string) : jsstring :=
  map N_of_ascii (list_ascii_of_string s).

(** [s1 === s2] on strings. *)
Fixpoint js_eqb (s1 s2 : jsstring) : bool :=
  match s1, s2 with
  | [], [] => true
  | c1 :: r1, c2 :: r2 => (c1 =? c2) && js_eqb r1 r2
  | _, _ => false
  end.

(** [s.startsWith(p)] *)
Fixpoint startsWith (p s : jsstring) : bool :=
  match p, s with
  | [], _ => true
  | c :: p', d :: s' => (c =? d) && startsWith p' s'
  | _ :: _, [] => false
  end.

(** [s.slice(n)] for [n >= 0]. *)
Definition slice (n : nat) (s : jsstring) : jsstring := drop n s.

(** ECMAScript LineTerminator: LF, CR, LS, PS. *)
Definition isLineTerminator (c : N) : bool :=
  (c =? 10) || (c =? 13) || (c =? 8232) || (c =? 8233).

(** ECMAScript WhiteSpace: TAB, VT, FF, SP, NBSP, ZWNBSP and category Zs. *)
Definition isWhiteSpace (c : N) : bool :=
  (c =? 9) || (c =? 11) || (c =? 12) || (c =? 32) || (c =? 160) ||
  (c =? 65279) || (c =? 5760) || ((8192 <=? c) && (c <=? 8202)) ||
  (c =? 8239) || (c =? 8287) || (c =? 12288).

Definition isTrimmed (c : N) : bool := isWhiteSpace c || isLineTerminator c.

Fixpoint trimStart (s : jsstring) : jsstring :=
  match s with
  | c :: r => if isTrimmed c then trimStart r else s
  | [] => []
  end.

(** [s.trim()] *)
Definition trim (s : jsstring) : jsstring :=
  rev (trimStart (rev (trimStart s))).

(** Puts [c] in front of the first piece of a split. *)
Definition push_front (c : N) (pieces : list jsstring) : list jsstring :=
  match pieces with
  | h :: t => (c :: h) :: t
  | [] => [[c]]
  end.

(** [s.split("\n\n")]: left to right, separators do not overlap. *)
Fixpoint split_nn (s : jsstring) : list jsstring :=
  match s with
  | [] => [[]]
  | c :: r =>
      match r with
      | d :: r' =>
          if (c =? 10) && (d =? 10) then [] :: split_nn r'
          else push_front c (split_nn r)
      | [] => push_front c (split_nn r)
      end
  end.

(** ** Regular expressions of the signal table

    Every pattern of [STEP_SIGNALS] is an alternation of sequences of literal
    text and [.*], with the [i] flag and without [g], [y], [s] or [u]. *)

Inductive atom :=
| Lit (text : string)   (* literal characters *)
| AnyStar.              (* [.*] *)

Definition branch := list atom.
Definition RegExp := list branch.

(** Canonicalize of the [i] flag (non-Unicode mode) on ASCII; a code unit
    outside ASCII never canonicalizes to an ASCII one, so against the ASCII
    literals of the patterns it is compared as itself. *)
Definition Canonicalize (c : N) : N :=
  if (97 <=? c) && (c <=? 122) then c - 32 else c.

Definition ci_eqb (p c : N) : bool := Canonicalize p =? Canonicalize c.

(** [.] without the [s] flag: anything but a line terminator. *)
Definition dot (c : N) : bool := negb (isLineTerminator c).

(** The rest of [s] after a case-insensitive occurrence of [p] at its start. *)
Fixpoint strip_lit (p s : jsstring) : option jsstring :=
  match p with
  | [] => Some s
  | c :: p' =>
      match s with
      | d :: s' => if ci_eqb c d then strip_lit p' s' else None
      | [] => None
      end
  end.

(** Does the sequence match at the start of [s]?  (Backtracking over the
    length taken by each [.*].) *)
Fixpoint match_here (r : branch) : jsstring -> bool :=
  match r with
  | [] => fun _ => true
  | Lit p :: r' =>
      fun s => match strip_lit (str p) s with
               | Some s' => match_here r' s'
               | None => false
               end
  | AnyStar :: r' =>
      fix star (s : jsstring) : bool :=
        match_here r' s ||
        match s with
        | c :: s' => dot c && star s'
        | [] => false
        end
  end.

Definition match_at (re : RegExp) (s : jsstring) : bool :=
  existsb (fun r => match_here r s) re.

(** [re.test(s)]: is there a match starting at some index of [s]?  Without
    the [g] and [y] flags the search starts at index 0 and keeps no state. *)
Fixpoint RegExp_test (re : RegExp) (s : jsstring) : bool :=
  match_at re s ||
  match s with
  | _ :: s' => RegExp_test re s'
  | [] => false
  end.

(** *** The language of a pattern, independently of the search procedure *)

Definition lit_matches (p w : jsstring) : Prop :=
  Forall2 (fun a b => Canonicalize a = Canonicalize b) p w.

Inductive atom_matches : atom -> jsstring -> Prop :=
| AM_Lit p w : lit_matches (str p) w -> atom_matches (Lit p) w
| AM_AnyStar w : Forall (fun c => dot c = true) w -> atom_matches AnyStar w.

Inductive branch_matches : branch -> jsstring -> Prop :=
| BM_nil : branch_matches [] []
| BM_cons a r w1 w2 :
    atom_matches a w1 -> branch_matches r w2 ->
    branch_matches (a :: r) (w1 ++ w2).

(** The pattern matches the substring [mid] of the chunk. *)
Definition matches_somewhere (re : RegExp) (chunk : jsstring) : Prop :=
  exists pre mid suf r,
    chunk = pre ++ mid ++ suf /\ In r re /\ branch_matches r mid.

(** ** Signal detection *)

Inductive Icon := search | cases | sections | analysis | writing | verify.

Record Signal := {
  pattern : RegExp;
  stepId : string;
  sig_label : string;
  sig_icon : Icon
}.

Definition STEP_SIGNALS : list Signal := [
  {| pattern := [ [Lit "PHASE 1"]; [Lit "section"; AnyStar; Lit "search"];
                  [Lit "searching"; AnyStar; Lit "section"];
                  [Lit "verif"; AnyStar; Lit "section"] ];
     stepId := "sections";
     sig_label := "Searching statutory sections";
     sig_icon := sections |};
  {| pattern := [ [Lit "PHASE 2"]; [Lit "amendment"; AnyStar; Lit "verif"];
                  [Lit "verif"; AnyStar; Lit "amendment"] ];
     stepId := "amendments";
     sig_label := "Verifying amendments";
     sig_icon := verify |};
  {| pattern := [ [Lit "PHASE 3"]; [Lit "landmark case"];
                  [Lit "searching"; AnyStar; Lit "case"];
                  [Lit "case"; AnyStar; Lit "search"]; [Lit "searched cases"] ];
     stepId := "landmark";
     sig_label := "Searching landmark cases";
     sig_icon := cases |};
  {| pattern := [ [Lit "PHASE 4"]; [Lit "recent case"];
                  [Lit "recent"; AnyStar; Lit "decision"];
                  [Lit "2020"; AnyStar; Lit "2021"; AnyStar; Lit "2022"] ];
     stepId := "recent";
     sig_label := "Finding recent decisions";
     sig_icon := cases |};
  {| pattern := [ [Lit "PHASE 5"]; [Lit "legal principle"]; [Lit "doctrine"];
                  [Lit "trite law"] ];
     stepId := "principles";
     sig_label := "Analysing legal principles";
     sig_icon := analysis |};
  {| pattern := [ [Lit "crunching"]; [Lit "compiling"]; [Lit "assembl"];
                  [Lit "structur"; AnyStar; Lit "response"]; [Lit "writing"] ];
     stepId := "writing";
     sig_label := "Structuring legal analysis";
     sig_icon := writing |}
]%string.

(** The loop of [detectStepsFromChunk] over a signal table. *)
Fixpoint detect_in (signals : list Signal) (chunk : jsstring) : list string :=
  match signals with
  | [] => []
  | signal :: rest =>
      if RegExp_test (pattern signal) chunk
      then stepId signal :: detect_in rest chunk
      else detect_in rest chunk
  end.

Definition detectStepsFromChunk (chunk : jsstring) : list string :=
  detect_in STEP_SIGNALS chunk.

(** The fixed phase-id set. *)
Definition PHASE_IDS : list string :=
  ["sections"; "amendments"; "landmark"; "recent"; "principles"; "writing"]%string.


(** ** JavaScript string literals

    [js] reads the body of a JavaScript string literal with the escape
    sequences [\n], [\\] and [\xHH], so that test frames can be written as in
    a JavaScript source. *)

Definition hex_digit (c : N) : option N :=
  if (48 <=? c) && (c <=? 57) then Some (c - 48)
  else if (65 <=? c) && (c <=? 70) then Some (c - 55)
  else if (97 <=? c) && (c <=? 102) then Some (c - 87)
  else None.

Fixpoint unescape (s : jsstring) : jsstring :=
  match s with
  | [] => []
  | c :: r =>
      if c =? 92 then
        match r with
        | e :: r1 =>
            if e =? 110 then 10 :: unescape r1
            else if e =? 120 then
              match r1 with
              | h1 :: h2 :: r2 =>
                  match hex_digit h1, hex_digit h2 with
                  | Some a, Some b => (a * 16 + b) :: unescape r2
                  | _, _ => c :: unescape r
                  end
              | _ => c :: unescape r
              end
            else e :: unescape r1
        | [] => [c]
        end
      else c :: unescape r
  end.

Definition js (s : string) : jsstring := unescape (str s).

(** ** JSON.parse *)

Inductive json :=
| JNull
| JBool (b : bool)
| JNum (lexeme : jsstring)     (* the number, by its source text *)
| JStr (s : jsstring)
| JArr (items : list json)
| JObj (members : list (jsstring * json)).

Definition is_json_ws (c : N) : bool :=
  (c =? 9) || (c =? 10) || (c =? 13) || (c =? 32).

Fixpoint skip_ws (s : jsstring) : jsstring :=
  match s with
  | c :: r => if is_json_ws c then skip_ws r else s
  | [] => []
  end.

Definition is_digit (c : N) : bool := (48 <=? c) && (c <=? 57).

Definition simple_escape (e : N) : option N :=
  if e =? 34 then Some 34          (* quotation mark *)
  else if e =? 92 then Some 92     (* reverse solidus *)
  else if e =? 47 then Some 47     (* solidus *)
  else if e =? 98 then Some 8      (* backspace *)
  else if e =? 102 then Some 12    (* form feed *)
  else if e =? 110 then Some 10    (* line feed *)
  else if e =? 114 then Some 13    (* carriage return *)
  else if e =? 116 then Some 9     (* tab *)
  else None.

(** The characters of a JSON string, after its opening quote. *)
Fixpoint parse_chars (s : jsstring) : option (jsstring * jsstring) :=
  match s with
  | [] => None
  | c :: r =>
      if c =? 34 then Some ([], r)
      else if c <? 32 then None
      else if c =? 92 then
        match r with
        | [] => None
        | e :: r1 =>
            if e =? 117 then
              match r1 with
              | h1 :: h2 :: h3 :: h4 :: r2 =>
                  a ← hex_digit h1; b ← hex_digit h2;
                  c' ← hex_digit h3; d ← hex_digit h4;
                  '(t, rest) ← parse_chars r2;
                  Some ((((a * 16 + b) * 16 + c') * 16 + d) :: t, rest)
              | _ => None
              end
            else
              x ← simple_escape e;
              '(t, rest) ← parse_chars r1;
              Some (x :: t, rest)
        end
      else
        '(t, rest) ← parse_chars r;
        Some (c :: t, rest)
  end.

Fixpoint take_digits (s : jsstring) : jsstring * jsstring :=
  match s with
  | c :: r =>
      if is_digit c then let '(ds, rest) := take_digits r in (c :: ds, rest)
      else ([], s)
  | [] => ([], [])
  end.

Definition parse_int (s : jsstring) : option (jsstring * jsstring) :=
  match s with
  | c :: r =>
      if c =? 48 then Some ([48], r)
      else if is_digit c then
        let '(ds, rest) := take_digits r in Some (c :: ds, rest)
      else None
  | [] => None
  end.

Definition parse_frac (s : jsstring) : option (jsstring * jsstring) :=
  match s with
  | c :: r =>
      if c =? 46 then
        match take_digits r with
        | ([], _) => None
        | (ds, rest) => Some (c :: ds, rest)
        end
      else Some ([], s)
  | [] => Some ([], [])
  end.

Definition parse_exp (s : jsstring) : option (jsstring * jsstring) :=
  match s with
  | c :: r =>
      if (c =? 101) || (c =? 69) then
        let '(sign, r1) :=
          match r with
          | d :: r' => if (d =? 43) || (d =? 45) then ([d], r') else ([], r)
          | [] => ([], r)
          end in
        match take_digits r1 with
        | ([], _) => None
        | (ds, rest) => Some (c :: sign ++ ds, rest)
        end
      else Some ([], s)
  | [] => Some ([], [])
  end.

Definition parse_number (s : jsstring) : option (jsstring * jsstring) :=
  let '(sign, s1) :=
    match s with
    | c :: r => if c =? 45 then ([c], r) else ([], s)
    | [] => ([], s)
    end in
  '(i, s2) ← parse_int s1;
  '(f, s3) ← parse_frac s2;
  '(e, s4) ← parse_exp s3;
  Some (sign ++ i ++ f ++ e, s4).

Definition expect (lit : string) (v : json) (s : jsstring)
  : option (json * jsstring) :=
  if startsWith (str lit) s
  then Some (v, drop (String.length lit) s) else None.

(** A JSON value, then the elements of an array after the first one has been
    announced, then the members of an object likewise.  [fuel] bounds the
    depth of the descent. *)
Fixpoint parse_value (fuel : nat) (s : jsstring) {struct fuel}
  : option (json * jsstring) :=
  match fuel with
  | O => None
  | S fuel' =>
      match skip_ws s with
      | [] => None
      | c :: r =>
          if c =? 123 then
            match skip_ws r with
            | d :: r' =>
                if d =? 125 then Some (JObj [], r')
                else '(ms, rest) ← parse_members fuel' (d :: r');
                     Some (JObj ms, rest)
            | [] => None
            end
          else if c =? 91 then
            match skip_ws r with
            | d :: r' =>
                if d =? 93 then Some (JArr [], r')
                else '(vs, rest) ← parse_elements fuel' (d :: r');
                     Some (JArr vs, rest)
            | [] => None
            end
          else if c =? 34 then
            '(t, rest) ← parse_chars r; Some (JStr t, rest)
          else if c =? 116 then expect "true" (JBool true) (c :: r)
          else if c =? 102 then expect "false" (JBool false) (c :: r)
          else if c =? 110 then expect "null" JNull (c :: r)
          else '(n, rest) ← parse_number (c :: r); Some (JNum n, rest)
      end
  end
with parse_elements (fuel : nat) (s : jsstring) {struct fuel}
  : option (list json * jsstring) :=
  match fuel with
  | O => None
  | S fuel' =>
      '(v, r) ← parse_value fuel' s;
      match skip_ws r with
      | c :: r' =>
          if c =? 44 then
            '(vs, rest) ← parse_elements fuel' r'; Some (v :: vs, rest)
          else if c =? 93 then Some ([v], r')
          else None
      | [] => None
      end
  end
with parse_members (fuel : nat) (s : jsstring) {struct fuel}
  : option (list (jsstring * json) * jsstring) :=
  match fuel with
  | O => None
  | S fuel' =>
      match skip_ws s with
      | q :: r0 =>
          if q =? 34 then
            '(k, r1) ← parse_chars r0;
            match skip_ws r1 with
            | colon :: r2 =>
                if colon =? 58 then
                  '(v, r3) ← parse_value fuel' r2;
                  match skip_ws r3 with
                  | c :: r' =>
                      if c =? 44 then
                        '(ms, rest) ← parse_members fuel' r';
                        Some ((k, v) :: ms, rest)
                      else if c =? 125 then Some ([(k, v)], r')
                      else None
                  | [] => None
                  end
                else None
            | [] => None
            end
          else None
      | [] => None
      end
  end.

(** [JSON.parse(text)]; [None] stands for the SyntaxError it throws.  The
    fuel is more than the descent can use, whatever the text (see
    [JSON_parse_fuel]). *)
Definition JSON_parse (text : jsstring) : option json :=
  '(v, rest) ← parse_value (2 * length text + 2) text;
  match skip_ws rest with
  | [] => Some v
  | _ :: _ => None
  end.

(** Own property [key] of a parsed object: the last member of that name. *)
Fixpoint get_member (key : jsstring) (ms : list (jsstring * json))
  : option json :=
  match ms with
  | [] => None
  | (k, v) :: rest =>
      match get_member key rest with
      | Some v' => Some v'
      | None => if js_eqb k key then Some v else None
      end
  end.

(** [data.name] for a parsed value other than [null]: [None] is
    [undefined].  Primitives and arrays have no such property. *)
Definition prop (name : string) (data : json) : option json :=
  match data with
  | JObj ms => get_member (str name) ms
  | _ => None
  end.

(** [v === "literal"] *)
Definition is_str (lit : string) (v : option json) : bool :=
  match v with
  | Some (JStr s) => js_eqb s (str lit)
  | _ => false
  end.


(** ** Progress steps and messages *)

Inductive ProcessStepStatus := pending | running | done | error.

Record ProcessStep := {
  s_id : string;
  s_label : string;
  s_detail : option string;
  s_status : ProcessStepStatus;
  s_durationMs : option Z;
  s_startedAt : option Z;
  s_icon : Icon
}.

Inductive Sender := user | ai.

Record Message := {
  m_id : string;
  m_content : jsstring;
  m_sender : Sender;
  m_timestamp : Z;
  m_sources : option (list string);
  m_db_id : option string;
  m_processSteps : option (list ProcessStep);
  m_isStreaming : option bool
}.

Definition status_eqb (a b : ProcessStepStatus) : bool :=
  match a, b with
  | pending, pending | running, running | done, done | error, error => true
  | _, _ => false
  end.

Definition new_step (i l : string) (ic : Icon) : ProcessStep :=
  {| s_id := i; s_label := l; s_detail := None; s_status := pending;
     s_durationMs := None; s_startedAt := None; s_icon := ic |}.

(** [getInitialSteps(intentHint?)]; [None] is a call without argument. *)
Definition getInitialSteps (intentHint : option string) : list ProcessStep :=
  let isLegal :=
    match intentHint with
    | None => true
    | Some h =>
        (h =? "")%string ||
        negb (existsb (String.eqb h) ["greeting"; "simple_non_law"]%string)
    end in
  if negb isLegal then []
  else
    [ new_step "sections" "Searching statutory sections" sections;
      new_step "amendments" "Verifying amendments" verify;
      new_step "landmark" "Searching landmark cases" cases;
      new_step "recent" "Finding recent decisions" cases;
      new_step "writing" "Structuring legal analysis" writing ]%string.

Definition stepOrder : list string :=
  ["sections"; "amendments"; "landmark"; "recent"; "writing"]%string.

Definition thresholds : list nat := [0; 200; 600; 1200; 2000]%nat.

Definition errContent : jsstring :=
  str "I'm having trouble connecting right now. Please try again.".

(** [arr.findIndex((x, i) => p x i)]; [None] is [-1]. *)
Fixpoint findIndex_from {A} (p : A -> nat -> bool) (i : nat) (l : list A)
  : option nat :=
  match l with
  | [] => None
  | x :: rest => if p x i then Some i else findIndex_from p (S i) rest
  end.

Definition findIndex {A} (p : A -> nat -> bool) (l : list A) : option nat :=
  findIndex_from p 0 l.

(** *** The functional updates handed to [setMessages] *)

Definition with_steps (m : Message) (steps : option (list ProcessStep))
  : Message :=
  {| m_id := m_id m; m_content := m_content m; m_sender := m_sender m;
     m_timestamp := m_timestamp m; m_sources := m_sources m;
     m_db_id := m_db_id m; m_processSteps := steps;
     m_isStreaming := m_isStreaming m |}.

Definition with_content (m : Message) (c : jsstring) : Message :=
  {| m_id := m_id m; m_content := c; m_sender := m_sender m;
     m_timestamp := m_timestamp m; m_sources := m_sources m;
     m_db_id := m_db_id m; m_processSteps := m_processSteps m;
     m_isStreaming := m_isStreaming m |}.

Definition with_isStreaming (m : Message) (b : bool) : Message :=
  {| m_id := m_id m; m_content := m_content m; m_sender := m_sender m;
     m_timestamp := m_timestamp m; m_sources := m_sources m;
     m_db_id := m_db_id m; m_processSteps := m_processSteps m;
     m_isStreaming := Some b |}.

Definition with_db_id (m : Message) (d : string) : Message :=
  {| m_id := m_id m; m_content := m_content m; m_sender := m_sender m;
     m_timestamp := m_timestamp m; m_sources := m_sources m;
     m_db_id := Some d; m_processSteps := m_processSteps m;
     m_isStreaming := m_isStreaming m |}.

Definition step_running (s : ProcessStep) (now : Z) : ProcessStep :=
  {| s_id := s_id s; s_label := s_label s; s_detail := s_detail s;
     s_status := running; s_durationMs := s_durationMs s;
     s_startedAt := Some now; s_icon := s_icon s |}.

Definition step_done (s : ProcessStep) (durationMs : Z)
    (detail : option string) : ProcessStep :=
  {| s_id := s_id s; s_label := s_label s; s_detail := detail;
     s_status := done; s_durationMs := Some durationMs;
     s_startedAt := s_startedAt s; s_icon := s_icon s |}.

Definition step_failed (s : ProcessStep) : ProcessStep :=
  {| s_id := s_id s; s_label := s_label s; s_detail := s_detail s;
     s_status := if status_eqb (s_status s) running then error else s_status s;
     s_durationMs := s_durationMs s; s_startedAt := s_startedAt s;
     s_icon := s_icon s |}.

Section Updaters.

Variable aiTempId : string.

(** the update of [activateStep] *)
Definition activate_update (stepId : string) (now : Z)
    (prev : list Message) : list Message :=
  map (fun m =>
    if negb (m_id m =? aiTempId)%string then m else
    match m_processSteps m with
    | None => m
    | Some steps =>
        with_steps m (Some (map (fun s =>
          if (s_id s =? stepId)%string then step_running s now else s)
          steps))
    end) prev.

(** the update of [completeStep] *)
Definition complete_update (stepId : string) (durationMs : Z)
    (detail : option string) (prev : list Message) : list Message :=
  map (fun m =>
    if negb (m_id m =? aiTempId)%string then m else
    match m_processSteps m with
    | None => m
    | Some steps =>
        with_steps m (Some (map (fun s =>
          if (s_id s =? stepId)%string
          then step_done s durationMs detail else s)
          steps))
    end) prev.

(** publishing the running content *)
Definition content_update (fullContent : jsstring) (prev : list Message)
  : list Message :=
  map (fun m =>
    if (m_id m =? aiTempId)%string then with_content m fullContent else m)
    prev.

(** marking streaming done *)
Definition streaming_done_update (prev : list Message) : list Message :=
  map (fun m =>
    if (m_id m =? aiTempId)%string then with_isStreaming m false else m)
    prev.

(** backfilling the server identifier *)
Definition db_id_update (aiDbId : string) (prev : list Message)
  : list Message :=
  map (fun m =>
    if (m_id m =? aiTempId)%string then with_db_id m aiDbId else m) prev.

(** the update of the [catch] block *)
Definition error_update (prev : list Message) : list Message :=
  map (fun m =>
    if (m_id m =? aiTempId)%string then
      with_steps (with_isStreaming (with_content m errContent) false)
        (option_map (map step_failed) (m_processSteps m))
    else m) prev.

End Updaters.

(** ** The turn: state of [processMessage] from the placeholder onwards

    The turn is followed from the creation of the assistant placeholder: the
    checks, the session and the user message that precede it only decide
    whether there is a turn, and with which list of messages it starts.  The
    single-threaded event loop is an explicit list of events: the response to
    [fetch], the settlements of [reader.read()], and the runs of the interval
    callback in between. *)

(** What [await reader.read()] settles to; the chunk is the text the
    streaming decoder produced for the bytes read. *)
Inductive ReadResult :=
| RChunk (chunk : jsstring)   (* [{ value, done: false }] *)
| REnd                        (* [{ value: undefined, done: true }] *)
| RThrow.                     (* the promise rejects *)

(** What the event loop delivers to the turn. *)
Inductive event :=
| Response (ok : bool)  (* [fetch] settles; [false]: it rejects, or the
                           response is not ok or has no body *)
| Tick                  (* the interval callback runs *)
| Read (r : ReadResult).

(** The non-streaming body read when nothing was streamed.  Its [answer]
    and [content] fields are strings when present. *)
Inductive FallbackBody :=
| BodyUnreadable   (* [response.text()] rejects, [JSON.parse] throws or
                      yields [null] *)
| BodyRecord (answer content : option jsstring).

Inductive Phase := Fetching | Streaming | Completed | Failed.

(** What the turn receives from its surroundings. *)
Record Env := {
  messageContent : jsstring;              (* the question posted to the backend *)
  aiTempId : string;                      (* [(Date.now() + 1).toString()] *)
  Date_now : nat -> Z;                    (* the n-th reading of the clock,
                                             counted from the timestamp of
                                             the placeholder *)
  Number_isTruthy : jsstring -> bool;     (* ToBoolean of a JSON number *)
  Number_toString : jsstring -> jsstring; (* ToString of a JSON number *)
  fallbackBody : FallbackBody;
  saveResult : option string              (* what [saveMessage] resolves to *)
}.

Record TurnState := {
  messages : list Message;          (* the React state *)
  snapshots : list (list Message);  (* every value it took, newest first *)
  activatedSteps : gset string;
  stepStartTimes : gmap string Z;
  currentStepIndex : nat;
  charCount : nat;
  fullContent : jsstring;
  loop_done : bool;                 (* [done] *)
  responseStarted : bool;
  stepInterval : bool;              (* an interval is installed *)
  clock : nat;                      (* readings of the clock so far *)
  saveRequests : list jsstring;     (* [saveMessage(sessionId, _, "ai")] *)
  phase : Phase
}.

(** A small state monad for the body of [processMessage]. *)
Definition M (A : Type) : Type := TurnState -> A * TurnState.

#[export] Instance M_ret : MRet M := fun A a st => (a, st).
#[export] Instance M_bind : MBind M :=
  fun A B f m st => let '(a, st') := m st in f a st'.

Definition ret {A} (a : A) : M A := mret a.
Definition skip : M unit := mret tt.
Definition get : M TurnState := fun st => (st, st).
Definition modify (f : TurnState -> TurnState) : M unit :=
  fun st => (tt, f st).
Definition exec {A} (m : M A) (st : TurnState) : TurnState := snd (m st).

Definition set_messages (v : list Message) (st : TurnState) : TurnState :=
  {| messages := v; snapshots := v :: snapshots st;
     activatedSteps := activatedSteps st;
     stepStartTimes := stepStartTimes st;
     currentStepIndex := currentStepIndex st; charCount := charCount st;
     fullContent := fullContent st; loop_done := loop_done st;
     responseStarted := responseStarted st; stepInterval := stepInterval st;
     clock := clock st; saveRequests := saveRequests st; phase := phase st |}.

Definition set_activatedSteps (v : gset string) (st : TurnState) : TurnState :=
  {| messages := messages st; snapshots := snapshots st;
     activatedSteps := v; stepStartTimes := stepStartTimes st;
     currentStepIndex := currentStepIndex st; charCount := charCount st;
     fullContent := fullContent st; loop_done := loop_done st;
     responseStarted := responseStarted st; stepInterval := stepInterval st;
     clock := clock st; saveRequests := saveRequests st; phase := phase st |}.

Definition set_stepStartTimes (v : gmap string Z) (st : TurnState)
  : TurnState :=
  {| messages := messages st; snapshots := snapshots st;
     activatedSteps := activatedSteps st; stepStartTimes := v;
     currentStepIndex := currentStepIndex st; charCount := charCount st;
     fullContent := fullContent st; loop_done := loop_done st;
     responseStarted := responseStarted st; stepInterval := stepInterval st;
     clock := clock st; saveRequests := saveRequests st; phase := phase st |}.

Definition set_currentStepIndex (v : nat) (st : TurnState) : TurnState :=
  {| messages := messages st; snapshots := snapshots st;
     activatedSteps := activatedSteps st;
     stepStartTimes := stepStartTimes st;
     currentStepIndex := v; charCount := charCount st;
     fullContent := fullContent st; loop_done := loop_done st;
     responseStarted := responseStarted st; stepInterval := stepInterval st;
     clock := clock st; saveRequests := saveRequests st; phase := phase st |}.

Definition set_charCount (v : nat) (st : TurnState) : TurnState :=
  {| messages := messages st; snapshots := snapshots st;
     activatedSteps := activatedSteps st;
     stepStartTimes := stepStartTimes st;
     currentStepIndex := currentStepIndex st; charCount := v;
     fullContent := fullContent st; loop_done := loop_done st;
     responseStarted := responseStarted st; stepInterval := stepInterval st;
     clock := clock st; saveRequests := saveRequests st; phase := phase st |}.

Definition set_fullContent (v : jsstring) (st : TurnState) : TurnState :=
  {| messages := messages st; snapshots := snapshots st;
     activatedSteps := activatedSteps st;
     stepStartTimes := stepStartTimes st;
     currentStepIndex := currentStepIndex st; charCount := charCount st;
     fullContent := v; loop_done := loop_done st;
     responseStarted := responseStarted st; stepInterval := stepInterval st;
     clock := clock st; saveRequests := saveRequests st; phase := phase st |}.

Definition set_loop_done (v : bool) (st : TurnState) : TurnState :=
  {| messages := messages st; snapshots := snapshots st;
     activatedSteps := activatedSteps st;
     stepStartTimes := stepStartTimes st;
     currentStepIndex := currentStepIndex st; charCount := charCount st;
     fullContent := fullContent st; loop_done := v;
     responseStarted := responseStarted st; stepInterval := stepInterval st;
     clock := clock st; saveRequests := saveRequests st; phase := phase st |}.

Definition set_responseStarted (v : bool) (st : TurnState) : TurnState :=
  {| messages := messages st; snapshots := snapshots st;
     activatedSteps := activatedSteps st;
     stepStartTimes := stepStartTimes st;
     currentStepIndex := currentStepIndex st; charCount := charCount st;
     fullContent := fullContent st; loop_done := loop_done st;
     responseStarted := v; stepInterval := stepInterval st;
     clock := clock st; saveRequests := saveRequests st; phase := phase st |}.

Definition set_stepInterval (v : bool) (st : TurnState) : TurnState :=
  {| messages := messages st; snapshots := snapshots st;
     activatedSteps := activatedSteps st;
     stepStartTimes := stepStartTimes st;
     currentStepIndex := currentStepIndex st; charCount := charCount st;
     fullContent := fullContent st; loop_done := loop_done st;
     responseStarted := responseStarted st; stepInterval := v;
     clock := clock st; saveRequests := saveRequests st; phase := phase st |}.

Definition set_clock (v : nat) (st : TurnState) : TurnState :=
  {| messages := messages st; snapshots := snapshots st;
     activatedSteps := activatedSteps st;
     stepStartTimes := stepStartTimes st;
     currentStepIndex := currentStepIndex st; charCount := charCount st;
     fullContent := fullContent st; loop_done := loop_done st;
     responseStarted := responseStarted st; stepInterval := stepInterval st;
     clock := v; saveRequests := saveRequests st; phase := phase st |}.

Definition set_saveRequests (v : list jsstring) (st : TurnState)
  : TurnState :=
  {| messages := messages st; snapshots := snapshots st;
     activatedSteps := activatedSteps st;
     stepStartTimes := stepStartTimes st;
     currentStepIndex := currentStepIndex st; charCount := charCount st;
     fullContent := fullContent st; loop_done := loop_done st;
     responseStarted := responseStarted st; stepInterval := stepInterval st;
     clock := clock st; saveRequests := v; phase := phase st |}.

Definition set_phase (v : Phase) (st : TurnState) : TurnState :=
  {| messages := messages st; snapshots := snapshots st;
     activatedSteps := activatedSteps st;
     stepStartTimes := stepStartTimes st;
     currentStepIndex := currentStepIndex st; charCount := charCount st;
     fullContent := fullContent st; loop_done := loop_done st;
     responseStarted := responseStarted st; stepInterval := stepInterval st;
     clock := clock st; saveRequests := saveRequests st; phase := v |}.

(** [setMessages((prev) => f prev)].  React runs the queued updates in the
    order of the calls; here each one is run at its call, and the value it
    yields is recorded, which is what React does when it does not batch the
    updates made after an [await].  The statuses, flags, timestamps and
    durations an update writes are constants captured at the call, so they
    are the same whenever the update runs.  Only the publication of the
    content reads a variable, [fullContent], and writes the value it has
    when the update runs: when React batches the updates of several records,
    the contents of the list values in between are later ones than those
    recorded here.  The content of the turn after the last update of a
    stretch, and every status and flag, are the same either way. *)
Definition setMessages (f : list Message -> list Message) : M unit :=
  modify (fun st => set_messages (f (messages st)) st).

Section Turn.

Variable env : Env.

(** [Date.now()] *)
Definition now : M Z :=
  fun st => (Date_now env (clock st), set_clock (S (clock st)) st).

(** ToBoolean of a parsed value *)
Definition ToBoolean (v : json) : bool :=
  match v with
  | JNull => false
  | JBool b => b
  | JNum n => Number_isTruthy env n
  | JStr s => negb (js_eqb s [])
  | JArr _ | JObj _ => true
  end.

(** ToString of a parsed value; [None] stands for the TypeError thrown for
    an object whose own [toString] member hides the inherited method.
    Arrays are joined with commas, [null] elements giving the empty
    string. *)
Fixpoint ToString (v : json) : option jsstring :=
  match v with
  | JNull => Some (str "null")
  | JBool true => Some (str "true")
  | JBool false => Some (str "false")
  | JNum n => Some (Number_toString env n)
  | JStr s => Some s
  | JArr items =>
      (fix join (l : list json) : option jsstring :=
         match l with
         | [] => Some []
         | x :: rest =>
             s ← match x with JNull => Some [] | _ => ToString x end;
             match rest with
             | [] => Some s
             | _ :: _ => t ← join rest; Some (s ++ 44 :: t)
             end
         end) items
  | JObj ms =>
      match get_member (str "toString") ms with
      | Some _ => None
      | None => Some (str "[object Object]")
      end
  end.

Definition activateStep (stepId : string) : M unit :=
  st ← get;
  if decide (stepId ∈ activatedSteps st) then skip
  else
    modify (fun st => set_activatedSteps ({[stepId]} ∪ activatedSteps st) st);;
    t ← now;
    modify (fun st => set_stepStartTimes (<[stepId := t]> (stepStartTimes st)) st);;
    setMessages (activate_update (aiTempId env) stepId t).

Definition completeStep (stepId : string) : M unit :=
  st ← get;
  startTime ← match stepStartTimes st !! stepId with
              | Some t => if (t =? 0)%Z then now else ret t
              | None => now
              end;
  t ← now;
  let durationMs := (t - startTime)%Z in
  setMessages (complete_update (aiTempId env) stepId durationMs None).

(** [stepOrder[i]]; an index out of range would give [undefined]. *)
Definition stepOrder_at (i : nat) : string := nth i stepOrder "undefined"%string.

(** The interval callback. *)
Definition on_tick : M unit :=
  st ← get;
  if (currentStepIndex st <? length stepOrder - 1)%nat &&
     (charCount st <? length (fullContent st))%nat
  then
    modify (fun st => set_charCount (length (fullContent st)) st);;
    let nextIdx :=
      findIndex (fun t i => (currentStepIndex st <? i)%nat &&
                            (t <=? length (fullContent st))%nat)
                thresholds in
    match nextIdx with
    | Some nextIdx =>
        if (currentStepIndex st <? nextIdx)%nat then
          completeStep (stepOrder_at (currentStepIndex st));;
          modify (set_currentStepIndex nextIdx);;
          if (nextIdx <? length stepOrder)%nat
          then activateStep (stepOrder_at nextIdx)
          else skip
        else skip
    | None => skip
    end
  else skip.

(** [for (const stepId of triggered) if (!activatedSteps.has(stepId)) activateStep(stepId)] *)
Fixpoint activate_triggered (triggered : list string) : M unit :=
  match triggered with
  | [] => skip
  | stepId :: rest =>
      st ← get;
      (if decide (stepId ∈ activatedSteps st) then skip
       else activateStep stepId);;
      activate_triggered rest
  end.

(** [if (!responseStarted) { ... }]: move to the writing step when the
    first content arrives. *)
Definition start_response : M unit :=
  st ← get;
  if responseStarted st then skip
  else
    modify (set_responseStarted true);;
    if (currentStepIndex st <? length stepOrder - 1)%nat then
      completeStep (stepOrder_at (currentStepIndex st));;
      modify (set_currentStepIndex (length stepOrder - 1));;
      activateStep "writing"
    else skip.

(** Signal detection on the fragment, then [fullContent += text] and the
    publication of the running content. *)
Definition publish (text : jsstring) : M unit :=
  activate_triggered (detectStepsFromChunk text);;
  modify (fun st => set_fullContent (fullContent st ++ text) st);;
  st ← get;
  setMessages (content_update (aiTempId env) (fullContent st)).

(** The body of [if (data.content) { ... }]. *)
Definition on_content (content : json) : M unit :=
  start_response;;
  match ToString content with
  | None => skip   (* thrown by [pattern.test], caught below *)
  | Some text => publish text
  end.

(** One iteration of [for (const line of lines)]; [true] is [break]. *)
Definition on_line (line : jsstring) : M bool :=
  if negb (startsWith (str "data:") line) then ret false
  else
    let dataStr := trim (slice 5 line) in
    if js_eqb dataStr (str "[DONE]") then
      modify (set_loop_done true);; ret true
    else
      match JSON_parse dataStr with
      | None => ret false          (* skip parse errors *)
      | Some JNull => ret false    (* [data.type] throws, skipped too *)
      | Some data =>
          if is_str "heartbeat" (prop "type" data) then ret false
          else if is_str "done" (prop "type" data) then
            modify (set_loop_done true);; ret true
          else
            match prop "content" data with
            | Some content =>
                if ToBoolean content
                then on_content content;; ret false
                else ret false
            | None => ret false
            end
      end.

Fixpoint on_lines (lines : list jsstring) : M unit :=
  match lines with
  | [] => skip
  | line :: rest =>
      stop ← on_line line;
      if (stop : bool) then skip else on_lines rest
  end.

(** [for (const stepId of stepOrder)]: complete all remaining steps. *)
Fixpoint complete_remaining (ids : list string) : M unit :=
  match ids with
  | [] => skip
  | stepId :: rest =>
      st ← get;
      (if decide (stepId ∈ activatedSteps st) then skip
       else activateStep stepId);;
      completeStep stepId;;
      complete_remaining rest
  end.

(** [saveMessage(sessionId, content, "ai")] *)
Definition saveMessage (content : jsstring) : M (option string) :=
  modify (fun st => set_saveRequests (saveRequests st ++ [content]) st);;
  ret (saveResult env).

(** [a || b] on optional strings: the first truthy one. *)
Definition or_else (a : option jsstring) (b : jsstring) : jsstring :=
  match a with
  | Some (c :: s) => c :: s
  | _ => b
  end.

(** The fallback when the loop ended with no content. *)
Definition fallback : M unit :=
  match fallbackBody env with
  | BodyRecord answer content =>
      let text :=
        or_else answer
          (or_else content
             (str "I'm JuristMind, your legal AI assistant.")) in
      modify (set_fullContent text);;
      setMessages (content_update (aiTempId env) text)
  | BodyUnreadable =>
      modify (set_fullContent
                (str "Response received but could not be parsed."))
  end.

(** [if (fullContent) { ... }]: persist, then backfill the identifier. *)
Definition persist : M unit :=
  st ← get;
  if negb (js_eqb (fullContent st) []) then
    aiDbId ← saveMessage (fullContent st);
    match aiDbId with
    | Some d =>
        if (d =? "")%string then skip
        else setMessages (db_id_update (aiTempId env) d)
    | None => skip
    end
  else skip.

(** What follows the read loop inside [try]. *)
Definition after_loop : M unit :=
  modify (set_stepInterval false);;
  complete_remaining stepOrder;;
  setMessages (streaming_done_update (aiTempId env));;
  st ← get;
  (if js_eqb (fullContent st) [] then fallback else skip);;
  persist;;
  modify (set_phase Completed).

(** The [catch] block. *)
Definition on_error : M unit :=
  modify (set_stepInterval false);;
  setMessages (error_update (aiTempId env));;
  _ ← saveMessage errContent;
  modify (set_phase Failed).

(** One turn of [while (!done)]. *)
Definition on_read (r : ReadResult) : M unit :=
  match r with
  | RThrow => on_error
  | REnd =>
      modify (set_loop_done true);;
      after_loop
  | RChunk chunk =>
      on_lines (split_nn chunk);;
      st ← get;
      if loop_done st then after_loop else skip
  end.

Definition on_event (e : event) : M unit :=
  st ← get;
  match phase st, e with
  | Fetching, Response true =>
      modify (set_stepInterval true);;
      modify (set_phase Streaming)
  | Fetching, Response false => on_error
  | Streaming, Tick => on_tick
  | Streaming, Read r => on_read r
  | _, _ => skip
  end.

Definition step (st : TurnState) (e : event) : TurnState :=
  exec (on_event e) st.

Definition run (events : list event) (st : TurnState) : TurnState :=
  fold_left step events st.

(** The assistant placeholder. *)
Definition aiPlaceholder (timestamp : Z) : Message :=
  {| m_id := aiTempId env; m_content := []; m_sender := ai;
     m_timestamp := timestamp; m_sources := None; m_db_id := None;
     m_processSteps := Some (getInitialSteps None);
     m_isStreaming := Some true |}.

(** The state in which [fetch] is awaited: the placeholder has been
    appended to [prev] and the first step kicked off. *)
Definition begin (prev : list Message) : TurnState :=
  exec
    (timestamp ← now;
     setMessages (fun prev => prev ++ [aiPlaceholder timestamp]);;
     activateStep "sections")
    {| messages := prev; snapshots := [prev]; activatedSteps := ∅;
       stepStartTimes := ∅; currentStepIndex := 0; charCount := 0;
       fullContent := []; loop_done := false; responseStarted := false;
       stepInterval := false; clock := 0; saveRequests := [];
       phase := Fetching |}.

Definition processMessage (prev : list Message) (events : list event)
  : TurnState :=
  run events (begin prev).

End Turn.


(** * Vocabulary of the properties *)

(** The sequence matches a prefix of [s]. *)
Definition prefix_matches (r : branch) (s : jsstring) : Prop :=
  exists w suf, s = w ++ suf /\ branch_matches r w.

(** ** Updates as per-id maps *)

(** The updates the turn hands to [setMessages]. *)
Inductive stream_update (id : string) : (list Message -> list Message) -> Prop :=
| su_activate stepId now : stream_update id (activate_update id stepId now)
| su_complete stepId d detail : stream_update id (complete_update id stepId d detail)
| su_content c : stream_update id (content_update id c)
| su_streaming_done : stream_update id (streaming_done_update id)
| su_db_id d : stream_update id (db_id_update id d)
| su_error : stream_update id (error_update id).

(** Applying [f] to the messages carrying [id]. *)
Definition map_turn (id : string) (f : Message -> Message)
    (prev : list Message) : list Message :=
  map (fun m => if (m_id m =? id)%string then f m else m) prev.

Definition activate_steps (stepId : string) (now : Z) (steps : list ProcessStep) :=
  map (fun s => if (s_id s =? stepId)%string then step_running s now else s) steps.

Definition complete_steps (stepId : string) (d : Z) (detail : option string)
    (steps : list ProcessStep) :=
  map (fun s => if (s_id s =? stepId)%string then step_done s d detail else s) steps.

Definition on_steps (f : list ProcessStep -> list ProcessStep) (m : Message) : Message :=
  match m_processSteps m with
  | None => m
  | Some steps => with_steps m (Some (f steps))
  end.


(** ** Reasoning about the turn *)

(** Hoare triples over the state monad of the turn. *)
Definition hoare {A} (P : TurnState -> Prop) (m : M A)
    (Q : A -> TurnState -> Prop) : Prop :=
  forall st, P st -> Q (m st).1 (m st).2.

(** No message of [prev] carries the identifier of the new turn. *)
Definition fresh (env : Env) (prev : list Message) : Prop :=
  Forall (fun m => m_id m <> aiTempId env) prev.

Fixpoint count_running (steps : list ProcessStep) : nat :=
  match steps with
  | [] => 0
  | s :: rest =>
      (if status_eqb (s_status s) running then 1 else 0) + count_running rest
  end.

(** Only the step [c] may be running. *)
Definition running_only (c : string) (steps : list ProcessStep) : Prop :=
  Forall (fun s => s_status s = running -> s_id s = c) steps.

(** No signal has activated one of the intermediate steps. *)
Definition mids_inactive (st : TurnState) : Prop :=
  ("amendments" ∉ activatedSteps st) /\ ("landmark" ∉ activatedSteps st) /\
  ("recent" ∉ activatedSteps st).

(** The list is [prev] followed by the turn [m], whose steps are [steps]. *)
Definition is_turn (env : Env) (prev ms : list Message) (m : Message)
    (steps : list ProcessStep) : Prop :=
  ms = prev ++ [m] /\ m_id m = aiTempId env /\
  m_processSteps m = Some steps /\ map s_id steps = stepOrder.

(** A value the message list took while the stream was being read. *)
Definition live_snapshot (env : Env) (prev : list Message) (quiet : Prop)
    (ms : list Message) : Prop :=
  ms = prev \/
  exists m steps, is_turn env prev ms m steps /\ m_isStreaming m = Some true /\
                  (quiet -> count_running steps <= 1)%nat.

(** What holds after every single update while the turn awaits the response
    or reads the stream. *)
Record Core (env : Env) (prev : list Message) (st : TurnState) : Prop := {
  core_phase : phase st = Fetching \/ phase st = Streaming;
  core_turn : exists m steps,
      is_turn env prev (messages st) m steps /\
      m_isStreaming m = Some true /\ m_content m = fullContent st /\
      m_db_id m = None /\
      (mids_inactive st ->
       running_only (stepOrder_at (currentStepIndex st)) steps);
  core_snapshots :
      Forall (live_snapshot env prev (mids_inactive st)) (snapshots st);
  core_sections : "sections" ∈ activatedSteps st;
  core_no_save : saveRequests st = []
}.

(** What holds in addition between two events. *)
Record Live (env : Env) (prev : list Message) (st : TurnState) : Prop := {
  live_core : Core env prev st;
  live_started : responseStarted st = true ->
      currentStepIndex st = 4%nat /\ "writing" ∈ activatedSteps st;
  live_unstarted : responseStarted st = false ->
      fullContent st = [] /\ currentStepIndex st = 0%nat /\
      activatedSteps st = {["sections"]} /\
      forall m steps, is_turn env prev (messages st) m steps ->
        map s_status steps = [running; pending; pending; pending; pending]
}.

(** No step of the turn is running. *)
Definition none_running (env : Env) (prev : list Message) (st : TurnState)
  : Prop :=
  forall m steps, is_turn env prev (messages st) m steps ->
                  Forall (fun s => s_status s <> running) steps.

(** ** The stream as the backend emits it

    The kinds of event record of the stream, as the reader is specified to
    tell them apart: a record without the event marker is discarded, the
    sentinel and the completion record end the stream, a heartbeat is
    ignored, a content record carries a fragment, and a payload that cannot
    be used is skipped. *)
Inductive frame :=
| FNoMarker
| FSentinel
| FMalformed
| FHeartbeat
| FDone
| FContent (fragment : jsstring)
| FUnprintable     (* a content whose conversion to text throws *)
| FOther.

(** The payload of a record: what follows the marker, trimmed. *)
Definition payload (line : jsstring) : jsstring := trim (slice 5 line).

Definition classify (env : Env) (line : jsstring) : frame :=
  if negb (startsWith (str "data:") line) then FNoMarker
  else if js_eqb (payload line) (str "[DONE]") then FSentinel
  else
    match JSON_parse (payload line) with
    | None => FMalformed
    | Some JNull => FOther
    | Some data =>
        if is_str "heartbeat" (prop "type" data) then FHeartbeat
        else if is_str "done" (prop "type" data) then FDone
        else
          match prop "content" data with
          | Some content =>
              if ToBoolean env content then
                match ToString env content with
                | Some text => FContent text
                | None => FUnprintable
                end
              else FOther
          | None => FOther
          end
    end.

Definition is_terminator (f : frame) : bool :=
  match f with
  | FSentinel | FDone => true
  | _ => false
  end.

Definition fragment_of (f : frame) : jsstring :=
  match f with
  | FContent text => text
  | _ => []
  end.

(** The frames that precede the first end-of-stream record. *)
Fixpoint before_end (fs : list frame) : list frame :=
  match fs with
  | [] => []
  | f :: rest => if is_terminator f then [] else f :: before_end rest
  end.

Definition ends (fs : list frame) : bool := existsb is_terminator fs.

(** The content fragments, concatenated in arrival order. *)
Definition assembled (fs : list frame) : jsstring :=
  concat (map fragment_of (before_end fs)).

(** The records of a decoded chunk. *)
Definition frames_of_chunk (env : Env) (chunk : jsstring) : list frame :=
  map (classify env) (split_nn chunk).

(** The records as the reader finds them, read by read, the natural end of
    the stream counting as an end-of-stream record.  A record that the
    boundary between two reads cuts is not found as a record here: see
    [emitted] and [delivers] for the stream as the backend emits it. *)
Fixpoint frames_of (env : Env) (events : list event) : list frame :=
  match events with
  | [] => []
  | Read (RChunk chunk) :: rest => frames_of_chunk env chunk ++ frames_of env rest
  | Read REnd :: rest => FDone :: frames_of env rest
  | _ :: rest => frames_of env rest
  end.

(** *** The stream before it is cut into reads

    The backend emits event records, each followed by a blank line.  The
    content it emits is told from the records themselves, whatever the reads
    that deliver them. *)







(** The step helpers touch the messages, the activation bookkeeping and the
    clock only. *)
Definition same_control (st st' : TurnState) : Prop :=
  currentStepIndex st' = currentStepIndex st /\
  responseStarted st' = responseStarted st /\
  fullContent st' = fullContent st /\ charCount st' = charCount st /\
  loop_done st' = loop_done st /\ phase st' = phase st /\
  saveRequests st' = saveRequests st /\ stepInterval st' = stepInterval st.

(** ** The end of the turn *)

(** The steps whose id is in [X] are done. *)
Definition done_on (X : list string) (steps : list ProcessStep) : Prop :=
  Forall (fun s => In (s_id s) X -> s_status s = done) steps.


(** A value of the message list: either the turn is still streaming, or
    every one of its steps is done. *)
Definition settled_snapshot (env : Env) (prev ms : list Message) : Prop :=
  ms = prev \/
  exists m steps, is_turn env prev ms m steps /\
    (m_isStreaming m = Some true \/
     (m_isStreaming m = Some false /\
      Forall (fun s => s_status s = done) steps)).

(** The turn between the updates of the end-of-stream pass. *)
Definition Closing (env : Env) (prev : list Message) (X : list string)
    (st : TurnState) : Prop :=
  (exists m steps, is_turn env prev (messages st) m steps /\
     m_isStreaming m = Some true /\ m_content m = fullContent st /\
     m_db_id m = None /\ done_on X steps) /\
  Forall (settled_snapshot env prev) (snapshots st).

(** The text taken from the non-streaming body when nothing was streamed. *)
Definition fallback_text (env : Env) : jsstring :=
  match fallbackBody env with
  | BodyRecord answer content =>
      or_else answer
        (or_else content (str "I'm JuristMind, your legal AI assistant."))
  | BodyUnreadable => str "Response received but could not be parsed."
  end.

(** The content handed to [saveMessage] after a stream that assembled
    [fc]. *)
Definition persisted_text (env : Env) (fc : jsstring) : jsstring :=
  match fc with
  | [] => fallback_text env
  | _ :: _ => fc
  end.

(** The content the turn shows after a stream that assembled [fc]. *)
Definition shown_text (env : Env) (fc : jsstring) : jsstring :=
  match fc, fallbackBody env with
  | [], BodyRecord _ _ => fallback_text env
  | _, _ => fc
  end.

(** The server identifier backfilled into the turn. *)
Definition backfilled (env : Env) : option string :=
  match saveResult env with
  | Some d => if (d =? "")%string then None else Some d
  | None => None
  end.

(** The turn after a normal end of the stream that assembled [fc]. *)
Definition Ended (env : Env) (prev : list Message) (fc : jsstring)
    (st : TurnState) : Prop :=
  phase st = Completed /\
  saveRequests st = [persisted_text env fc] /\
  (exists m steps, is_turn env prev (messages st) m steps /\
     m_isStreaming m = Some false /\
     Forall (fun s => s_status s = done) steps /\
     m_content m = shown_text env fc /\ m_db_id m = backfilled env) /\
  Forall (settled_snapshot env prev) (snapshots st).

(** The turn after a transport failure that found the steps [before]. *)
Definition Aborted (env : Env) (prev : list Message)
    (before : list ProcessStep) (st : TurnState) : Prop :=
  phase st = Failed /\
  saveRequests st = [errContent] /\
  exists m steps, is_turn env prev (messages st) m steps /\
    m_content m = errContent /\ m_isStreaming m = Some false /\
    Forall2 (fun s s' =>
               s_id s' = s_id s /\
               (s_status s = running -> s_status s' = error) /\
               (s_status s <> running -> s_status s' = s_status s))
            before steps.

(** How far the turn has come after some events: still reading, ended
    normally, or aborted. *)
Inductive Progress (env : Env) (prev : list Message) (st' : TurnState) : Prop :=
| Still_live : Live env prev st' -> loop_done st' = false -> Progress env prev st'
| Has_ended stX :
    Live env prev stX -> phase stX = Streaming ->
    st' = exec (after_loop env) stX -> Progress env prev st'
| Has_failed stX :
    Live env prev stX -> st' = exec (on_error env) stX ->
    Progress env prev st'.

(** ** Observations *)

(** The ids and statuses of a list of steps. *)
Definition statuses (steps : list ProcessStep)
  : list (string * ProcessStepStatus) :=
  map (fun s => (s_id s, s_status s)) steps.

(** The steps of the first message carrying [id]. *)
Definition turn_steps (id : string) (ms : list Message) : list ProcessStep :=
  match find (fun m => (m_id m =? id)%string) ms with
  | Some m => match m_processSteps m with Some steps => steps | None => [] end
  | None => []
  end.

(** The status a fragment's signals give an intermediate step on the first
    fragment: running when the fragment carries its signal. *)
Definition signalled (text : jsstring) (x : string) : ProcessStepStatus :=
  if existsb (String.eqb x) (detectStepsFromChunk text) then running
  else pending.

(** An environment for closed examples. *)
Definition demo_env : Env :=
  {| messageContent := str "hello";
     aiTempId := "1700000000001";
     Date_now := fun n => (1700000000000 + 7 * Z.of_nat n)%Z;
     Number_isTruthy := fun _ => true;
     Number_toString := fun n => n;
     fallbackBody := BodyUnreadable;
     saveResult := Some "row-1"%string |}.

(** The status of step [i] after the signals [l] were handled on a turn
    whose activated steps were [A]. *)
Definition after_signals (l : list string) (A : gset string) (i : string)
    (s : ProcessStepStatus) : ProcessStepStatus :=
  if existsb (String.eqb i) l && negb (bool_decide (i ∈ A)) then running else s.

(** ** Example streams *)

(** One content record per read, each followed by a tick of the interval:
    [n] single-character fragments. *)
Fixpoint drip (n : nat) : list event :=
  match n with
  | O => []
  | S n' => Read (RChunk (js "data: {\x22content\x22:\x22a\x22}\n\n")) :: Tick :: drip n'
  end.

Definition hello_world_stream : jsstring :=
  js "data: {\x22content\x22:\x22Hello\x22}\n\ndata: {\x22content\x22:\x22 world\x22}\n\ndata: [DONE]\n\n".

Definition malformed_between_stream : jsstring :=
  js "data: {\x22content\x22:\x22A\x22}\n\ndata: {not json}\n\ndata: {\x22content\x22:\x22B\x22}\n\n".

(** A user message for closed examples. *)
Definition demo_question : Message :=
  {| m_id := "1700000000000"; m_content := str "hello"; m_sender := user;
     m_timestamp := 1700000000000%Z; m_sources := None; m_db_id := None;
     m_processSteps := None; m_isStreaming := None |}.

(** A property of the message list that every update of the turn keeps. *)
Definition stable (id : string) (P : list Message -> Prop) : Prop :=
  forall u ms, stream_update id u -> P ms -> P (u ms).

(** The computation keeps [P] of the message list. *)
Definition keeps {A} (P : list Message -> Prop) (m : M A) : Prop :=
  hoare (fun st => P (messages st)) m (fun _ st => P (messages st)).

(** The duration [completeStep] computes, and the clock after it. *)
Definition complete_timing (env : Env) (x : string) (st : TurnState) : Z * nat :=
  match stepStartTimes st !! x with
  | Some t =>
      if (t =? 0)%Z
      then ((Date_now env (S (clock st)) - Date_now env (clock st))%Z,
            S (S (clock st)))
      else ((Date_now env (clock st) - t)%Z, S (clock st))
  | None => ((Date_now env (S (clock st)) - Date_now env (clock st))%Z,
             S (S (clock st)))
  end.


(** What a whole turn leaves of the list it started from. *)
Definition kept (id : string) (prev ms : list Message) : Prop :=
  length ms = S (length prev) /\
  forall i m, prev !! i = Some m -> m_id m <> id -> ms !! i = Some m.


(** The signals carried by the fragment of a record. *)
Definition signals_of (f : frame) : list string :=
  detectStepsFromChunk (fragment_of f).

(** No record of the stream carries a signal for one of the intermediate
    steps. *)
Definition no_mid_signal (env : Env) (events : list event) : Prop :=
  forall f x, In f (frames_of env events) -> In x (signals_of f) ->
    x <> "amendments"%string /\ x <> "landmark"%string /\ x <> "recent"%string.

(** Where an activated step comes from: it was activated before, or it is
    the writing step, or a record carried its signal. *)
Definition activated_by (A : gset string) (fs : list frame) (x : string)
  : Prop :=
  x ∈ A \/ x = "writing"%string \/ exists f, In f fs /\ In x (signals_of f).
(** * The component around the turn

    The handlers of [ChatInterface] that lead to a turn or work on the list
    it leaves, and the parts of the rendering that read the turn.  What the
    surroundings answer at each [await] is given beforehand; the calls made
    to them are recorded. *)

(** ** Rows of the [chat_messages] table *)

Record Row := {
  row_id : string;
  row_content : jsstring;
  row_sender : Sender;
  row_created_at : Z
}.

(** [m.db_id === id] *)
Definition has_db_id (id : string) (m : Message) : bool :=
  match m_db_id m with
  | Some d => (d =? id)%string
  | None => false
  end.

(** The entry the subscription builds from an inserted row. *)
Definition inserted_message (newMsg : Row) : Message :=
  {| m_id := row_id newMsg; m_content := row_content newMsg;
     m_sender := row_sender newMsg; m_timestamp := row_created_at newMsg;
     m_sources := None; m_db_id := Some (row_id newMsg);
     m_processSteps := None; m_isStreaming := None |}.

(** The update of the [postgres_changes] handler. *)
Definition insert_update (newMsg : Row) (prev : list Message) : list Message :=
  if existsb (has_db_id (row_id newMsg)) prev then prev
  else prev ++ [inserted_message newMsg].

(** The entry [loadSession] builds from a row. *)
Definition loaded_message (msg : Row) : Message :=
  {| m_id := row_id msg; m_content := row_content msg;
     m_sender := row_sender msg; m_timestamp := row_created_at msg;
     m_sources := Some []; m_db_id := Some (row_id msg);
     m_processSteps := None; m_isStreaming := None |}.

(** ** The state of the component and its calls *)

Record Toast := {
  toast_title : option string;
  toast_description : string;
  toast_destructive : bool;   (* [variant: "destructive"] *)
  toast_action : bool         (* carries the Upgrade button *)
}.

Record Feedback := {
  fb_message_id : string;
  fb_user_id : string;
  fb_is_positive : bool
}.

Record Chat := {
  chat_messages : list Message;          (* [messages] *)
  chat_inputValue : jsstring;
  chat_isLoading : bool;
  chat_currentSessionId : option string;
  chat_toasts : list Toast;              (* the calls of [toast], oldest first *)
  chat_saved : list (string * jsstring * Sender);
                                         (* the calls of [saveMessage] *)
  chat_titles : list (string * jsstring);(* the titles [updateSessionTitle] writes *)
  chat_feedback : list Feedback;         (* the rows sent to [chat_feedback] *)
  chat_asked : list (jsstring * string)  (* the [question] and [chat_id] of the
                                            requests posted to the backend *)
}.

Definition chat_set_messages (v : list Message) (c : Chat) : Chat :=
  {| chat_messages := v; chat_inputValue := chat_inputValue c;
     chat_isLoading := chat_isLoading c;
     chat_currentSessionId := chat_currentSessionId c;
     chat_toasts := chat_toasts c; chat_saved := chat_saved c;
     chat_titles := chat_titles c; chat_feedback := chat_feedback c;
     chat_asked := chat_asked c |}.

Definition chat_set_inputValue (v : jsstring) (c : Chat) : Chat :=
  {| chat_messages := chat_messages c; chat_inputValue := v;
     chat_isLoading := chat_isLoading c;
     chat_currentSessionId := chat_currentSessionId c;
     chat_toasts := chat_toasts c; chat_saved := chat_saved c;
     chat_titles := chat_titles c; chat_feedback := chat_feedback c;
     chat_asked := chat_asked c |}.

Definition chat_set_isLoading (v : bool) (c : Chat) : Chat :=
  {| chat_messages := chat_messages c; chat_inputValue := chat_inputValue c;
     chat_isLoading := v;
     chat_currentSessionId := chat_currentSessionId c;
     chat_toasts := chat_toasts c; chat_saved := chat_saved c;
     chat_titles := chat_titles c; chat_feedback := chat_feedback c;
     chat_asked := chat_asked c |}.

Definition chat_set_currentSessionId (v : option string) (c : Chat) : Chat :=
  {| chat_messages := chat_messages c; chat_inputValue := chat_inputValue c;
     chat_isLoading := chat_isLoading c;
     chat_currentSessionId := v;
     chat_toasts := chat_toasts c; chat_saved := chat_saved c;
     chat_titles := chat_titles c; chat_feedback := chat_feedback c;
     chat_asked := chat_asked c |}.

(** [toast(t)] *)
Definition chat_toast (t : Toast) (c : Chat) : Chat :=
  {| chat_messages := chat_messages c; chat_inputValue := chat_inputValue c;
     chat_isLoading := chat_isLoading c;
     chat_currentSessionId := chat_currentSessionId c;
     chat_toasts := chat_toasts c ++ [t]; chat_saved := chat_saved c;
     chat_titles := chat_titles c; chat_feedback := chat_feedback c;
     chat_asked := chat_asked c |}.

Definition chat_save (sessionId : string) (content : jsstring) (sender : Sender)
    (c : Chat) : Chat :=
  {| chat_messages := chat_messages c; chat_inputValue := chat_inputValue c;
     chat_isLoading := chat_isLoading c;
     chat_currentSessionId := chat_currentSessionId c;
     chat_toasts := chat_toasts c;
     chat_saved := chat_saved c ++ [(sessionId, content, sender)];
     chat_titles := chat_titles c; chat_feedback := chat_feedback c;
     chat_asked := chat_asked c |}.

Definition chat_title (sessionId : string) (title : jsstring) (c : Chat) : Chat :=
  {| chat_messages := chat_messages c; chat_inputValue := chat_inputValue c;
     chat_isLoading := chat_isLoading c;
     chat_currentSessionId := chat_currentSessionId c;
     chat_toasts := chat_toasts c; chat_saved := chat_saved c;
     chat_titles := chat_titles c ++ [(sessionId, title)];
     chat_feedback := chat_feedback c;
     chat_asked := chat_asked c |}.

Definition chat_send_feedback (f : Feedback) (c : Chat) : Chat :=
  {| chat_messages := chat_messages c; chat_inputValue := chat_inputValue c;
     chat_isLoading := chat_isLoading c;
     chat_currentSessionId := chat_currentSessionId c;
     chat_toasts := chat_toasts c; chat_saved := chat_saved c;
     chat_titles := chat_titles c; chat_feedback := chat_feedback c ++ [f];
     chat_asked := chat_asked c |}.

(** An identifier that is neither [null] nor the empty string. *)
Definition truthy_id (id : option string) : option string :=
  match id with
  | Some d => if (d =? "")%string then None else Some d
  | None => None
  end.

(** ** The subscription and [loadSession] *)

(** The [postgres_changes] handler on the state of the component. *)
Definition on_insert (newMsg : Row) (c : Chat) : Chat :=
  chat_set_messages (insert_update newMsg (chat_messages c)) c.

(** What the query of [loadSession] settles to. *)
Inductive SessionQuery :=
| QueryFailed                          (* [error] is set, or the promise rejects *)
| QueryData (data : option (list Row)).

Definition toast_load_failed : Toast :=
  {| toast_title := Some "Error"%string;
     toast_description := "Failed to load chat session";
     toast_destructive := true; toast_action := false |}.

Definition loadSession (sessionId : string) (q : SessionQuery) (c : Chat)
  : Chat :=
  let c := chat_set_isLoading true c in
  let c :=
    match q with
    | QueryFailed => chat_toast toast_load_failed c
    | QueryData None | QueryData (Some []) =>
        chat_set_currentSessionId (Some sessionId) (chat_set_messages [] c)
    | QueryData (Some data) =>
        chat_set_currentSessionId (Some sessionId)
          (chat_set_messages (map loaded_message data) c)
    end in
  chat_set_isLoading false c.

(** ** [updateSessionTitle] *)

(** The title written for a first message: [substring(0, 50)] and an
    ellipsis (U+2026) when it is longer than 50 code units. *)
Definition session_title (firstMessage : jsstring) : jsstring :=
  if (50 <? length firstMessage)%nat then take 50 firstMessage ++ [8230]
  else firstMessage.

(** ** [handleFeedback] *)

Definition toast_cannot_rate : Toast :=
  {| toast_title := None; toast_description := "Cannot rate this message yet.";
     toast_destructive := true; toast_action := false |}.

Definition toast_feedback_sent (isPositive : bool) : Toast :=
  {| toast_title := Some (if isPositive then "Thanks!" else "Feedback Sent")%string;
     toast_description := "We use this to improve JuristMind.";
     toast_destructive := false; toast_action := false |}.

Definition toast_feedback_failed : Toast :=
  {| toast_title := None; toast_description := "Failed to submit feedback";
     toast_destructive := true; toast_action := false |}.

(** [userId] is the identifier of the signed-in user, [inserted] whether the
    insertion into [chat_feedback] succeeds. *)
Definition handleFeedback (userId : option string) (inserted : bool)
    (message : Message) (isPositive : bool) (c : Chat) : Chat :=
  match truthy_id (m_db_id message), userId with
  | Some db_id, Some user_id =>
      let c := chat_send_feedback
                 {| fb_message_id := db_id; fb_user_id := user_id;
                    fb_is_positive := isPositive |} c in
      if inserted then chat_toast (toast_feedback_sent isPositive) c
      else chat_toast toast_feedback_failed c
  | _, _ => chat_toast toast_cannot_rate c
  end.

(** ** [processMessage] before the placeholder *)

(** The record [check_and_increment_usage] returns; a field is [None] when
    it is absent, and holds a boolean or an integer otherwise. *)
Record UsageCheck := {
  allowed : option bool;
  limit : option Z;
  requests_used : option Z
}.

Inductive UsageOutcome :=
| UsageError                               (* [usageError], or the call rejects *)
| UsageData (usageCheck : option UsageCheck).

(** What the surroundings answer during one call of [processMessage]. *)
Record Answers := {
  ans_user : option string;        (* [user?.id]; [None]: nobody signed in *)
  ans_usage : UsageOutcome;
  ans_newSession : option string;  (* what [createNewSession] resolves to *)
  ans_now_user : Z;                (* [Date.now()] for [tempId] *)
  ans_timestamp_user : Z;          (* [new Date()] of the user message *)
  ans_userDbId : option string;    (* [saveMessage(_, _, "user")] *)
  ans_now_ai : Z;                  (* [Date.now()] for [aiTempId] *)
  ans_clock : nat -> Z;            (* the readings of the clock from the
                                      timestamp of the placeholder on *)
  ans_Number_isTruthy : jsstring -> bool;
  ans_Number_toString : jsstring -> jsstring;
  ans_fallbackBody : FallbackBody;
  ans_aiDbId : option string       (* [saveMessage(_, _, "ai")] *)
}.

Definition toast_sign_in : Toast :=
  {| toast_title := Some "Authentication Required"%string;
     toast_description := "Please sign in.";
     toast_destructive := true; toast_action := false |}.

Definition toast_limit_reached : Toast :=
  {| toast_title := Some "Limit Reached"%string;
     toast_description := "Please upgrade your plan to continue.";
     toast_destructive := true; toast_action := true |}.

Definition toast_usage_notice (remaining : Z) : Toast :=
  {| toast_title := Some "Usage Notice"%string;
     toast_description :=
       "You have " +:+ pretty remaining +:+ " requests remaining today.";
     toast_destructive := false; toast_action := false |}.

Definition toast_no_session : Toast :=
  {| toast_title := Some "Error"%string;
     toast_description := "Failed to create chat session";
     toast_destructive := true; toast_action := false |}.

(** [usageCheck?.allowed === false] *)
Definition usage_refused (usageCheck : option UsageCheck) : bool :=
  match usageCheck with
  | Some u => match allowed u with Some false => true | _ => false end
  | None => false
  end.

(** [limit - requests_used] when [usageCheck?.limit] is truthy and the
    difference is a number. *)
Definition usage_remaining (usageCheck : option UsageCheck) : option Z :=
  match usageCheck with
  | Some u =>
      match limit u, requests_used u with
      | Some l, Some r => if (l =? 0)%Z then None else Some (l - r)%Z
      | _, _ => None
      end
  | None => None
  end.

(** [let sessionId = currentSessionId; if (!sessionId) sessionId = await
    createNewSession();]: the session of a call, when it has one. *)
Definition session_of (w : Answers) (c : Chat) : option string :=
  match truthy_id (chat_currentSessionId c) with
  | Some sessionId => Some sessionId
  | None => truthy_id (ans_newSession w)
  end.

(** The user message appended to the list. *)
Definition userMessage (w : Answers) (messageContent : jsstring) : Message :=
  {| m_id := pretty (ans_now_user w); m_content := messageContent;
     m_sender := user; m_timestamp := ans_timestamp_user w;
     m_sources := None; m_db_id := None; m_processSteps := None;
     m_isStreaming := None |}.

(** [if (!isRegeneration) { ... }]: the user message, its persistence and
    the title of a new session.  [shown] is [messages] as the handler sees
    it. *)
Definition add_user_message (w : Answers) (sessionId : string)
    (messageContent : jsstring) (shown : list Message) (c : Chat) : Chat :=
  let c := chat_set_inputValue [] c in
  let c := chat_set_messages
             (chat_messages c ++ [userMessage w messageContent]) c in
  let c := chat_save sessionId messageContent user c in
  let c :=
    match truthy_id (ans_userDbId w) with
    | Some userDbId =>
        chat_set_messages
          (db_id_update (pretty (ans_now_user w)) userDbId (chat_messages c)) c
    | None => c
    end in
  if (length shown =? 0)%nat
  then chat_title sessionId (session_title messageContent) c
  else c.

(** The part of [processMessage] before [setIsLoading(true)]: the state it
    leaves, and the session of the turn when there is one. *)
Definition processMessage_prelude (w : Answers) (messageContent : jsstring)
    (isRegeneration : bool) (c : Chat) : Chat * option string :=
  match ans_user w with
  | None => (chat_toast toast_sign_in c, None)
  | Some _ =>
      match ans_usage w with
      | UsageError => (c, None)
      | UsageData usageCheck =>
          if usage_refused usageCheck
          then (chat_toast toast_limit_reached c, None)
          else
            let shown := chat_messages c in
            let c :=
              match usage_remaining usageCheck with
              | Some remaining =>
                  if (remaining <=? 2)%Z
                  then chat_toast (toast_usage_notice remaining) c else c
              | None => c
              end in
            let session :=
              match truthy_id (chat_currentSessionId c) with
              | Some sessionId => Some (sessionId, c)
              | None =>
                  match truthy_id (ans_newSession w) with
                  | Some sessionId =>
                      Some (sessionId,
                            chat_set_currentSessionId (Some sessionId) c)
                  | None => None
                  end
              end in
            match session with
            | None => (chat_toast toast_no_session c, None)
            | Some (sessionId, c) =>
                (if isRegeneration then c
                 else add_user_message w sessionId messageContent shown c,
                 Some sessionId)
            end
      end
  end.

(** What the turn receives from its surroundings. *)
Definition turn_env (w : Answers) (messageContent : jsstring) : Env :=
  {| messageContent := messageContent;
     aiTempId := pretty (ans_now_ai w + 1)%Z;
     Date_now := ans_clock w;
     Number_isTruthy := ans_Number_isTruthy w;
     Number_toString := ans_Number_toString w;
     fallbackBody := ans_fallbackBody w;
     saveResult := ans_aiDbId w |}.

(** Is the turn over ([finally] has run)? *)
Definition turn_over (st : TurnState) : bool :=
  match phase st with
  | Completed | Failed => true
  | Fetching | Streaming => false
  end.

(** [processMessage(messageContent, isRegeneration)] as far as the events
    delivered to its turn take it. *)
Definition processMessage_call (w : Answers) (messageContent : jsstring)
    (isRegeneration : bool) (events : list event) (c : Chat) : Chat :=
  match processMessage_prelude w messageContent isRegeneration c with
  | (c, None) => c
  | (c, Some sessionId) =>
      let st := processMessage (turn_env w messageContent)
                  (chat_messages c) events in
      {| chat_messages := messages st;
         chat_inputValue := chat_inputValue c;
         chat_isLoading := negb (turn_over st);
         chat_currentSessionId := chat_currentSessionId c;
         chat_toasts := chat_toasts c;
         chat_saved :=
           chat_saved c ++ map (fun t => (sessionId, t, ai)) (saveRequests st);
         chat_titles := chat_titles c; chat_feedback := chat_feedback c;
         chat_asked := chat_asked c ++ [(messageContent, sessionId)] |}
  end.

(** ** The handlers that start a turn *)

Definition handleSendMessage (w : Answers) (events : list event) (c : Chat)
  : Chat :=
  if js_eqb (trim (chat_inputValue c)) [] then c
  else processMessage_call w (chat_inputValue c) false events c.

Definition handleKeyDown (key : string) (shiftKey isMobile : bool)
    (w : Answers) (events : list event) (c : Chat) : Chat :=
  if (key =? "Enter")%string then
    if negb shiftKey && negb isMobile then handleSendMessage w events c
    else c
  else c.


Definition is_ai (m : Message) : bool :=
  match m_sender m with ai => true | user => false end.




(** ** What is rendered of a turn *)

Inductive Indicator :=
| IndCheck      (* the check mark of a done step *)
| IndSpinner    (* the spinning loader of a running step *)
| IndBang       (* the exclamation mark of a failed step *)
| IndDot.       (* the dot of a step that has not started *)

Inductive Tone := ToneDone | ToneRunning | ToneMuted.

Record StepRowView := {
  rv_indicator : Indicator;
  rv_icon : Icon;
  rv_iconTone : Tone;
  rv_labelTone : Tone;
  rv_label : string;
  rv_detail : option string;
  rv_durationMs : option Z   (* shown in seconds with two decimals *)
}.

Definition step_tone (status : ProcessStepStatus) : Tone :=
  match status with
  | done => ToneDone
  | running => ToneRunning
  | _ => ToneMuted
  end.

Definition StepRow (step : ProcessStep) : StepRowView :=
  {| rv_indicator :=
       match s_status step with
       | done => IndCheck
       | running => IndSpinner
       | error => IndBang
       | pending => IndDot
       end;
     rv_icon := s_icon step;
     rv_iconTone := step_tone (s_status step);
     rv_labelTone := step_tone (s_status step);
     rv_label := s_label step;
     rv_detail :=
       match s_detail step with
       | Some d => if (d =? "")%string then None else Some d
       | None => None
       end;
     rv_durationMs :=
       match s_status step with
       | done => s_durationMs step
       | _ => None
       end |}.

Record PanelView := {
  pv_title : jsstring;
  pv_dots : bool;               (* the bouncing dots beside the title *)
  pv_count : option nat;        (* the number before [steps] *)
  pv_collapsed : bool;
  pv_rows : list StepRowView    (* empty when collapsed *)
}.

Definition doneCount (steps : list ProcessStep) : nat :=
  length (List.filter (fun s => status_eqb (s_status s) done) steps).

Definition hasAnyActive (steps : list ProcessStep) : bool :=
  existsb (fun s => status_eqb (s_status s) running ||
                    status_eqb (s_status s) done) steps.

(** [ProcessPanel]; [None] is [return null]. *)
Definition ProcessPanel (steps : list ProcessStep)
    (isStreaming isComplete collapsed : bool) : option PanelView :=
  if negb (hasAnyActive steps) && negb isStreaming then None
  else Some
    {| pv_title := if isComplete then str "Analysis Complete"
                   else str "Working" ++ [8230];
       pv_dots := negb isComplete;
       pv_count := if isComplete then Some (doneCount steps) else None;
       pv_collapsed := collapsed;
       pv_rows := if collapsed then [] else map StepRow steps |}.

(** The effect of [ProcessPanel] arms the timer that collapses it. *)
Definition collapse_armed (steps : list ProcessStep) (isComplete : bool)
  : bool :=
  isComplete && (0 <? doneCount steps)%nat.

Inductive BubbleView :=
| BubbleWaiting                                  (* the dots and
                                                    [Retrieving legal information] *)
| BubbleText (content : jsstring) (cursor : bool).

Record MessageView := {
  mv_avatar : bool;
  mv_panel : option PanelView;
  mv_bubble : BubbleView;
  mv_actions : option bool;   (* Copy and the thumbs; [Some true]: and Regenerate *)
  mv_time : option Z;
  mv_sources : option (list string)
}.

(** [message.isStreaming] as a condition. *)
Definition streaming (message : Message) : bool :=
  match m_isStreaming message with
  | Some b => b
  | None => false
  end.

(** One entry of [messages.map((message, index) => ...)]; [count] is
    [messages.length]. *)
Definition render_message (isLoading : bool) (count : nat) (collapsed : bool)
    (index : nat) (message : Message) : MessageView :=
  {| mv_avatar := is_ai message;
     mv_panel :=
       match m_sender message, m_processSteps message with
       | ai, Some steps =>
           ProcessPanel steps (streaming message) (negb (streaming message))
             collapsed
       | _, _ => None
       end;
     mv_bubble :=
       match m_content message with
       | [] => BubbleWaiting
       | _ :: _ => BubbleText (m_content message) (streaming message)
       end;
     mv_actions :=
       if is_ai message && negb (js_eqb (m_content message) []) &&
          negb (streaming message)
       then Some ((index =? count - 1)%nat && negb isLoading)
       else None;
     mv_time :=
       match m_sender message with
       | user => Some (m_timestamp message)
       | ai => None
       end;
     mv_sources :=
       match m_sender message, m_sources message with
       | ai, Some (src :: rest) => Some (src :: rest)
       | _, _ => None
       end |}.

(** ** The life of a step *)

(** The updates that leave the steps alone. *)
Inductive plain_update (id : string) : (list Message -> list Message) -> Prop :=
| pu_content c : plain_update id (content_update id c)
| pu_streaming_done : plain_update id (streaming_done_update id)
| pu_db_id d : plain_update id (db_id_update id d).

(** The two states differ in the control variables of the loop only. *)
Definition same_track (st st' : TurnState) : Prop :=
  messages st' = messages st /\ snapshots st' = snapshots st /\
  activatedSteps st' = activatedSteps st /\
  stepStartTimes st' = stepStartTimes st /\ clock st' = clock st.

(** What one update may do to the status of a step. *)
Definition status_next (a b : ProcessStepStatus) : bool :=
  match a, b with
  | pending, running | running, done | running, error => true
  | _, _ => status_eqb a b
  end.

(** What any number of updates may do to it. *)
Definition status_le (a b : ProcessStepStatus) : bool :=
  match a, b with
  | pending, _ => true
  | running, pending => false
  | running, _ => true
  | done, done => true
  | error, error => true
  | _, _ => false
  end.

(** From one value of the list to the next, each step of the turn moves as
    [next] allows. *)
Definition advance (env : Env) (prev : list Message)
    (next : ProcessStepStatus -> ProcessStepStatus -> bool)
    (old new : list Message) : Prop :=
  forall m steps, is_turn env prev old m steps ->
    exists m' steps', is_turn env prev new m' steps' /\
      Forall2 (fun s s' => next (s_status s) (s_status s') = true) steps steps'.

(** Every value of the list, newest first, is related to the one before. *)
Fixpoint history (R : list Message -> list Message -> Prop)
    (l : list (list Message)) : Prop :=
  match l with
  | [] => True
  | new :: rest =>
      match rest with
      | old :: _ => R old new
      | [] => True
      end /\ history R rest
  end.

(** The bookkeeping of the tracker agrees with the statuses it has written:
    the steps that left [pending] are the activated ones, and none has
    failed. *)
Definition Tracker (env : Env) (prev : list Message) (st : TurnState) : Prop :=
  (exists m steps, is_turn env prev (messages st) m steps /\
     Forall (fun s => s_status s <> error /\
                      (s_status s <> pending <-> s_id s ∈ activatedSteps st))
            steps) /\
  (exists rest, snapshots st = messages st :: rest) /\
  history (advance env prev status_next) (snapshots st).

(** The duration of a step, when it has one, is not negative, and a done
    step has one. *)
Definition duration_ok (s : ProcessStep) : Prop :=
  match s_durationMs s with
  | Some d => (0 <= d)%Z
  | None => s_status s <> done
  end.

(** The start times are earlier readings of the clock, and the durations
    written so far are in order. *)
Definition Timed (env : Env) (prev : list Message) (st : TurnState) : Prop :=
  (forall x t, stepStartTimes st !! x = Some t ->
     exists i, (i < clock st)%nat /\ t = Date_now env i) /\
  exists m steps, is_turn env prev (messages st) m steps /\
                  Forall duration_ok steps.

(** The interval exists exactly while the stream is read. *)
Definition interval_matches (st : TurnState) : Prop :=
  stepInterval st = match phase st with Streaming => true | _ => false end.

(** * Lemmas *)

(** ** The search procedure decides the language of a pattern *)

Lemma ci_eqb_spec a b : ci_eqb a b = true <-> Canonicalize a = Canonicalize b.
Proof. unfold ci_eqb. apply N.eqb_eq. Qed.

Lemma strip_lit_spec p : forall s s',
  strip_lit p s = Some s' <-> exists w, s = w ++ s' /\ lit_matches p w.
Proof.
  induction p as [|c p IH]; intros s s'; simpl.
  - split.
    + intros [= ->]. exists []. split; [reflexivity | constructor].
    + intros (w & -> & Hw). inversion Hw. reflexivity.
  - destruct s as [|d s].
    + split; [discriminate|].
      intros (w & Hs & Hw). inversion Hw; subst. discriminate.
    + destruct (ci_eqb c d) eqn:E.
      * rewrite IH. apply ci_eqb_spec in E. split.
        -- intros (w & -> & Hw). exists (d :: w). split; [reflexivity|].
           constructor; assumption.
        -- intros (w & Hs & Hw). inversion Hw as [|? b ? w' Hc Hw']; subst.
           simpl in Hs. injection Hs as -> ->. exists w'. split; [reflexivity | assumption].
      * split; [discriminate|].
        intros (w & Hs & Hw). inversion Hw as [|? b ? w' Hc Hw']; subst.
        simpl in Hs. injection Hs as -> ->.
        apply ci_eqb_spec in Hc. congruence.
Qed.

Lemma branch_cons_inv a r w :
  branch_matches (a :: r) w ->
  exists w1 w2, w = w1 ++ w2 /\ atom_matches a w1 /\ branch_matches r w2.
Proof. intros H. inversion H; subst. eauto. Qed.

Lemma atom_lit_inv p w : atom_matches (Lit p) w -> lit_matches (str p) w.
Proof. intros H. inversion H. assumption. Qed.

Lemma atom_any_inv w : atom_matches AnyStar w -> Forall (fun c => dot c = true) w.
Proof. intros H. inversion H. assumption. Qed.

Lemma branch_any_nil r w : branch_matches r w -> branch_matches (AnyStar :: r) w.
Proof.
  intros H. change w with ([] ++ w).
  constructor; [constructor; constructor | assumption].
Qed.

Lemma match_here_spec r : forall s, match_here r s = true <-> prefix_matches r s.
Proof.
  induction r as [|a r IH]; intros s.
  - simpl. split; [|reflexivity]. intros _. exists [], s. split; [reflexivity | constructor].
  - destruct a as [p|].
    + simpl. destruct (strip_lit (str p) s) as [s'|] eqn:E.
      * apply strip_lit_spec in E as (w & -> & Hw). rewrite IH. split.
        -- intros (w2 & suf & -> & Hb). exists (w ++ w2), suf.
           split; [now rewrite <- app_assoc|]. constructor; [constructor|]; assumption.
        -- intros (w0 & suf & Hs & Hb).
           apply branch_cons_inv in Hb as (w1 & w2 & -> & Ha & Hb).
           apply atom_lit_inv in Ha.
           rewrite <- app_assoc in Hs.
           assert (Hlen : length w = length w1).
           { apply Forall2_length in Ha, Hw. congruence. }
           apply app_inj_1 in Hs as [-> ->]; [|assumption].
           exists w2, suf. split; [reflexivity | assumption].
      * split; [discriminate|]. intros (w0 & suf & Hs & Hb).
        apply branch_cons_inv in Hb as (w1 & w2 & -> & Ha & Hb).
        apply atom_lit_inv in Ha.
        assert (strip_lit (str p) s = Some (w2 ++ suf)) as E'.
        { apply strip_lit_spec. exists w1. split; [now rewrite Hs, <- app_assoc | assumption]. }
        congruence.
    + change (match_here (AnyStar :: r) s) with
        ((fix star (s : jsstring) : bool :=
            match_here r s || match s with c :: s' => dot c && star s' | [] => false end) s).
      induction s as [|c s IHs].
      * rewrite orb_false_r, IH. split.
        -- intros (w & suf & Hs & Hb). exists w, suf. split; [assumption|].
           now apply branch_any_nil.
        -- intros (w & suf & Hs & Hb). symmetry in Hs. apply app_eq_nil in Hs as [-> ->].
           apply branch_cons_inv in Hb as (w1 & w2 & Heq & Ha & Hb).
           symmetry in Heq. apply app_eq_nil in Heq as [-> ->].
           exists [], []. split; [reflexivity | assumption].
      * rewrite orb_true_iff, andb_true_iff, IHs, IH. split.
        -- intros [(w & suf & Hs & Hb) | [Hd (w & suf & -> & Hb)]].
           ++ exists w, suf. split; [assumption|]. now apply branch_any_nil.
           ++ apply branch_cons_inv in Hb as (w1 & w2 & -> & Ha & Hb).
              apply atom_any_inv in Ha.
              exists ((c :: w1) ++ w2), suf. split; [reflexivity|].
              constructor; [constructor; constructor; assumption | assumption].
        -- intros (w & suf & Hs & Hb).
           apply branch_cons_inv in Hb as (w1 & w2 & -> & Ha & Hb).
           apply atom_any_inv in Ha.
           destruct w1 as [|d w1].
           ++ left. exists w2, suf. split; assumption.
           ++ right. simpl in Hs. injection Hs as -> ->.
              inversion Ha; subst. split; [assumption|].
              exists (w1 ++ w2), suf. split; [reflexivity|].
              constructor; [constructor|]; assumption.
Qed.

Lemma match_at_spec re s :
  match_at re s = true <-> exists r, In r re /\ prefix_matches r s.
Proof.
  unfold match_at. rewrite existsb_exists.
  split; intros (r & Hin & H); exists r; (split; [assumption|]);
    now apply match_here_spec.
Qed.

Lemma RegExp_test_spec re s :
  RegExp_test re s = true <-> matches_somewhere re s.
Proof.
  induction s as [|c s IH]; simpl.
  - rewrite orb_false_r, match_at_spec. split.
    + intros (r & Hin & w & suf & Hs & Hb). exists [], w, suf, r. auto.
    + intros (pre & mid & suf & r & Hs & Hin & Hb).
      symmetry in Hs. apply app_eq_nil in Hs as [-> Hs].
      exists r. split; [assumption|]. exists mid, suf. auto.
  - rewrite orb_true_iff, IH, match_at_spec. split.
    + intros [(r & Hin & w & suf & Hs & Hb) | (pre & mid & suf & r & -> & Hin & Hb)].
      * exists [], w, suf, r. auto.
      * exists (c :: pre), mid, suf, r. auto.
    + intros (pre & mid & suf & r & Hs & Hin & Hb).
      destruct pre as [|d pre].
      * left. exists r. split; [assumption|]. exists mid, suf. auto.
      * right. simpl in Hs. injection Hs as -> ->. exists pre, mid, suf, r. auto.
Qed.

Lemma detect_in_spec sigs chunk i :
  In i (detect_in sigs chunk) <->
  exists sig, In sig sigs /\ stepId sig = i /\ RegExp_test (pattern sig) chunk = true.
Proof.
  induction sigs as [|sig sigs IH]; simpl.
  - split; [tauto | intros (? & [] & _)].
  - destruct (RegExp_test (pattern sig) chunk) eqn:E; simpl; rewrite IH; split.
    + intros [<- | (sig' & Hin & Hid & Ht)]; eauto 6.
    + intros (sig' & [-> | Hin] & Hid & Ht); eauto.
    + intros (sig' & Hin & Hid & Ht); eauto 6.
    + intros (sig' & [-> | Hin] & Hid & Ht); [congruence | eauto].
Qed.

Lemma detect_phase_ids_In text i :
  In i (detectStepsFromChunk text) -> In i PHASE_IDS.
Proof.
  intros Hi. apply detect_in_spec in Hi as (sig & Hin & <- & _).
  simpl in Hin. repeat (destruct Hin as [<- | Hin]; [simpl; tauto|]). destruct Hin.
Qed.

(** ** Updates are per-id maps *)

Lemma stream_update_map_turn id u :
  stream_update id u ->
  exists f, (forall m, m_id (f m) = m_id m) /\ forall prev, u prev = map_turn id f prev.
Proof.
  intros [stepId now|stepId d detail|c| |d|].
  - exists (on_steps (activate_steps stepId now)). split.
    + intros m. unfold on_steps. destruct (m_processSteps m); reflexivity.
    + intros prev. apply map_ext. intros m. unfold on_steps.
      destruct (m_id m =? id)%string; reflexivity.
  - exists (on_steps (complete_steps stepId d detail)). split.
    + intros m. unfold on_steps. destruct (m_processSteps m); reflexivity.
    + intros prev. apply map_ext. intros m. unfold on_steps.
      destruct (m_id m =? id)%string; reflexivity.
  - exists (fun m => with_content m c). split; reflexivity.
  - exists (fun m => with_isStreaming m false). split; reflexivity.
  - exists (fun m => with_db_id m d). split; reflexivity.
  - exists (fun m => with_steps (with_isStreaming (with_content m errContent) false)
                      (option_map (map step_failed) (m_processSteps m))).
    split; reflexivity.
Qed.

Lemma map_turn_length id f prev : length (map_turn id f prev) = length prev.
Proof. apply length_map. Qed.

Lemma map_turn_other id f prev i m :
  prev !! i = Some m -> m_id m <> id -> map_turn id f prev !! i = Some m.
Proof.
  intros Hi Hne. unfold map_turn. rewrite list_lookup_fmap, Hi. simpl.
  apply String.eqb_neq in Hne. now rewrite Hne.
Qed.

Lemma map_turn_absent id f prev :
  Forall (fun m => m_id m <> id) prev -> map_turn id f prev = prev.
Proof.
  induction 1 as [|m prev Hm _ IH]; simpl; [reflexivity|].
  apply String.eqb_neq in Hm. rewrite Hm. f_equal. exact IH.
Qed.

Lemma map_turn_snoc id f prev m :
  Forall (fun m => m_id m <> id) prev -> m_id m = id ->
  map_turn id f (prev ++ [m]) = prev ++ [f m].
Proof.
  intros Hfresh Hid. unfold map_turn. rewrite map_app.
  fold (map_turn id f prev). rewrite map_turn_absent by assumption.
  simpl. apply String.eqb_eq in Hid. now rewrite Hid.
Qed.

Lemma activate_steps_absent stepId now steps :
  Forall (fun s => s_id s <> stepId) steps -> activate_steps stepId now steps = steps.
Proof.
  induction 1 as [|s steps Hs _ IH]; simpl; [reflexivity|].
  apply String.eqb_neq in Hs. rewrite Hs. f_equal. exact IH.
Qed.

(** ** The turn while the stream is read *)

Ltac munfold :=
  unfold exec, hoare, mbind, M_bind, mret, M_ret, ret, skip, get, modify,
    setMessages, now in *.

Lemma activate_update_map_turn id x t ms :
  activate_update id x t ms = map_turn id (on_steps (activate_steps x t)) ms.
Proof.
  apply map_ext. intros m. unfold on_steps.
  destruct (m_id m =? id)%string; reflexivity.
Qed.

Lemma complete_update_map_turn id x d detail ms :
  complete_update id x d detail ms =
  map_turn id (on_steps (complete_steps x d detail)) ms.
Proof.
  apply map_ext. intros m. unfold on_steps.
  destruct (m_id m =? id)%string; reflexivity.
Qed.

Lemma activate_steps_ids x t steps :
  map s_id (activate_steps x t steps) = map s_id steps.
Proof.
  unfold activate_steps. rewrite map_map. apply map_ext. intros s.
  destruct (s_id s =? x)%string; reflexivity.
Qed.

Lemma complete_steps_ids x d detail steps :
  map s_id (complete_steps x d detail steps) = map s_id steps.
Proof.
  unfold complete_steps. rewrite map_map. apply map_ext. intros s.
  destruct (s_id s =? x)%string; reflexivity.
Qed.

Lemma is_turn_activate env prev ms m steps x t :
  fresh env prev -> is_turn env prev ms m steps ->
  is_turn env prev (activate_update (aiTempId env) x t ms)
    (with_steps m (Some (activate_steps x t steps))) (activate_steps x t steps).
Proof.
  intros Hf (-> & Hid & Hs & Hids). unfold is_turn.
  rewrite activate_update_map_turn, map_turn_snoc by assumption.
  unfold on_steps. rewrite Hs, activate_steps_ids. auto.
Qed.

Lemma is_turn_complete env prev ms m steps x d detail :
  fresh env prev -> is_turn env prev ms m steps ->
  is_turn env prev (complete_update (aiTempId env) x d detail ms)
    (with_steps m (Some (complete_steps x d detail steps)))
    (complete_steps x d detail steps).
Proof.
  intros Hf (-> & Hid & Hs & Hids). unfold is_turn.
  rewrite complete_update_map_turn, map_turn_snoc by assumption.
  unfold on_steps. rewrite Hs, complete_steps_ids. auto.
Qed.

Lemma is_turn_content env prev ms m steps c :
  fresh env prev -> is_turn env prev ms m steps ->
  is_turn env prev (content_update (aiTempId env) c ms) (with_content m c) steps.
Proof.
  intros Hf (-> & Hid & Hs & Hids). unfold is_turn.
  change (content_update (aiTempId env) c) with
    (map_turn (aiTempId env) (fun m => with_content m c)).
  rewrite map_turn_snoc by assumption. auto.
Qed.

Lemma is_turn_streaming_done env prev ms m steps :
  fresh env prev -> is_turn env prev ms m steps ->
  is_turn env prev (streaming_done_update (aiTempId env) ms)
    (with_isStreaming m false) steps.
Proof.
  intros Hf (-> & Hid & Hs & Hids). unfold is_turn.
  change (streaming_done_update (aiTempId env)) with
    (map_turn (aiTempId env) (fun m => with_isStreaming m false)).
  rewrite map_turn_snoc by assumption. auto.
Qed.

Lemma is_turn_db_id env prev ms m steps d :
  fresh env prev -> is_turn env prev ms m steps ->
  is_turn env prev (db_id_update (aiTempId env) d ms) (with_db_id m d) steps.
Proof.
  intros Hf (-> & Hid & Hs & Hids). unfold is_turn.
  change (db_id_update (aiTempId env) d) with
    (map_turn (aiTempId env) (fun m => with_db_id m d)).
  rewrite map_turn_snoc by assumption. auto.
Qed.

Lemma is_turn_error env prev ms m steps :
  fresh env prev -> is_turn env prev ms m steps ->
  is_turn env prev (error_update (aiTempId env) ms)
    (with_steps (with_isStreaming (with_content m errContent) false)
       (Some (map step_failed steps)))
    (map step_failed steps).
Proof.
  intros Hf (-> & Hid & Hs & Hids). unfold is_turn.
  change (error_update (aiTempId env)) with
    (map_turn (aiTempId env) (fun m =>
       with_steps (with_isStreaming (with_content m errContent) false)
         (option_map (map step_failed) (m_processSteps m)))).
  rewrite map_turn_snoc by assumption. rewrite Hs. simpl.
  rewrite map_map. auto.
Qed.

Lemma is_turn_inj env prev ms m steps m' steps' :
  is_turn env prev ms m steps -> is_turn env prev ms m' steps' ->
  m = m' /\ steps = steps'.
Proof.
  intros (-> & _ & Hs & _) (Heq & _ & Hs' & _).
  apply app_inv_head in Heq. injection Heq as <-. split; congruence.
Qed.

(** *** Steps *)

Lemma count_running_le1 c steps :
  List.NoDup (map s_id steps) -> running_only c steps -> (count_running steps <= 1)%nat.
Proof.
  intros Hnd Hro.
  assert (forall l, running_only c l -> ~ In c (map s_id l) -> count_running l = 0%nat) as H0.
  { induction l as [|s l IH]; intros Hl Hnin; simpl; [reflexivity|].
    inversion Hl as [|? ? Hs Hl']; subst. simpl in Hnin.
    rewrite IH by tauto.
    destruct (s_status s); simpl; try reflexivity. exfalso. apply Hnin. left. now apply Hs. }
  induction steps as [|s steps IH]; simpl; [lia|].
  inversion Hnd as [|? ? Hnin Hnd']; subst.
  inversion Hro as [|? ? Hs Hro']; subst.
  destruct (status_eqb (s_status s) running) eqn:E.
  - assert (s_id s = c) as <-. { apply Hs. destruct (s_status s); try discriminate; reflexivity. }
    rewrite H0; [lia | assumption | assumption].
  - specialize (IH Hnd' Hro'). lia.
Qed.

Lemma stepOrder_NoDup : List.NoDup stepOrder.
Proof. unfold stepOrder. repeat constructor; simpl; intuition discriminate. Qed.

Lemma running_only_complete c d detail steps :
  running_only c steps ->
  Forall (fun s => s_status s <> running) (complete_steps c d detail steps).
Proof.
  intros H. unfold complete_steps. rewrite Forall_map.
  eapply Forall_impl; [exact H|]. intros s Hs. simpl in *.
  destruct (s_id s =? c)%string eqn:E; simpl; [discriminate|].
  intros Hr. apply Hs in Hr. apply String.eqb_neq in E. contradiction.
Qed.

Lemma no_running_only c steps :
  Forall (fun s => s_status s <> running) steps -> running_only c steps.
Proof. intros H. eapply Forall_impl; [exact H|]. intros s Hs Hr. contradiction. Qed.

Lemma running_only_activate c t steps :
  Forall (fun s => s_status s <> running) steps ->
  running_only c (activate_steps c t steps).
Proof.
  intros H. unfold running_only, activate_steps. rewrite Forall_map.
  eapply Forall_impl; [exact H|]. intros s Hs. simpl in *.
  destruct (s_id s =? c)%string eqn:E; simpl.
  - intros _. now apply String.eqb_eq.
  - intros Hr. contradiction.
Qed.

Lemma activate_steps_foreign x t steps :
  ~ In x (map s_id steps) -> activate_steps x t steps = steps.
Proof.
  intros Hnin. apply activate_steps_absent. rewrite Forall_forall.
  intros s Hs Heq. apply Hnin. rewrite <- Heq. apply in_map.
  now apply list_elem_of_In.
Qed.

(** *** The primitives, as state transformers *)

Lemma exec_bind {A B} (m : M A) (f : A -> M B) st :
  exec (m ≫= f) st = exec (f (m st).1) (m st).2.
Proof. unfold exec, mbind, M_bind. destruct (m st). reflexivity. Qed.

Lemma exec_activateStep env x st :
  exec (activateStep env x) st =
  if decide (x ∈ activatedSteps st) then st
  else
    let t := Date_now env (clock st) in
    let ms := activate_update (aiTempId env) x t (messages st) in
    {| messages := ms; snapshots := ms :: snapshots st;
       activatedSteps := {[x]} ∪ activatedSteps st;
       stepStartTimes := <[x := t]> (stepStartTimes st);
       currentStepIndex := currentStepIndex st; charCount := charCount st;
       fullContent := fullContent st; loop_done := loop_done st;
       responseStarted := responseStarted st; stepInterval := stepInterval st;
       clock := S (clock st); saveRequests := saveRequests st;
       phase := phase st |}.
Proof.
  unfold activateStep. munfold.
  destruct (decide (x ∈ activatedSteps st)); reflexivity.
Qed.

Lemma exec_completeStep env x st :
  exec (completeStep env x) st =
  let ms := complete_update (aiTempId env) x (complete_timing env x st).1 None
              (messages st) in
  {| messages := ms; snapshots := ms :: snapshots st;
     activatedSteps := activatedSteps st;
     stepStartTimes := stepStartTimes st;
     currentStepIndex := currentStepIndex st; charCount := charCount st;
     fullContent := fullContent st; loop_done := loop_done st;
     responseStarted := responseStarted st; stepInterval := stepInterval st;
     clock := (complete_timing env x st).2; saveRequests := saveRequests st;
     phase := phase st |}.
Proof.
  unfold completeStep, complete_timing. munfold.
  destruct (stepStartTimes st !! x) as [t|]; [destruct (t =? 0)%Z|]; reflexivity.
Qed.

Lemma live_snapshot_mono env prev (q q' : Prop) ms :
  (q' -> q) -> live_snapshot env prev q ms -> live_snapshot env prev q' ms.
Proof.
  intros Hq [-> | (m & steps & Ht & Hs & Hc)]; [left; reflexivity|].
  right. exists m, steps. auto.
Qed.

Lemma live_snapshots_mono env prev (q q' : Prop) l :
  (q' -> q) -> Forall (live_snapshot env prev q) l ->
  Forall (live_snapshot env prev q') l.
Proof.
  intros Hq H. eapply Forall_impl; [exact H|].
  intros ms. now apply live_snapshot_mono.
Qed.

Lemma is_turn_NoDup env prev ms m steps :
  is_turn env prev ms m steps -> List.NoDup (map s_id steps).
Proof. intros (_ & _ & _ & ->). apply stepOrder_NoDup. Qed.

Lemma completeStep_Core env prev x st :
  fresh env prev -> Core env prev st ->
  Core env prev (exec (completeStep env x) st) /\
  (x = stepOrder_at (currentStepIndex st) ->
   mids_inactive st -> none_running env prev (exec (completeStep env x) st)).
Proof.
  intros Hf [Hph (m & steps & Ht & Hs & Hc & Hd & Hr) Hsn Hsec Hsv].
  rewrite exec_completeStep. cbv zeta.
  set (d := (complete_timing env x st).1).
  pose proof (is_turn_complete env prev _ m steps x d None Hf Ht) as Ht'.
  assert (mids_inactive st ->
          running_only (stepOrder_at (currentStepIndex st))
            (complete_steps x d None steps)) as Hr'.
  { intros Hq. specialize (Hr Hq). unfold running_only, complete_steps.
    rewrite Forall_map. eapply Forall_impl; [exact Hr|]. intros s Hrs. simpl.
    destruct (s_id s =? x)%string; [discriminate | exact Hrs]. }
  split.
  - constructor; simpl; try assumption.
    + exists (with_steps m (Some (complete_steps x d None steps))),
        (complete_steps x d None steps).
      repeat split; try assumption; apply Ht'.
    + constructor; [|exact Hsn]. right.
      exists (with_steps m (Some (complete_steps x d None steps))),
        (complete_steps x d None steps).
      repeat split; try assumption; try apply Ht'.
      intros Hq. eapply count_running_le1; [eapply is_turn_NoDup; exact Ht' | auto].
  - intros -> Hq m' steps' Ht''. simpl in Ht''.
    destruct (is_turn_inj _ _ _ _ _ _ _ Ht' Ht'') as [_ <-].
    apply running_only_complete. auto.
Qed.

Lemma mids_inactive_activate env x st :
  mids_inactive (exec (activateStep env x) st) -> mids_inactive st.
Proof.
  rewrite exec_activateStep. destruct (decide (x ∈ activatedSteps st)); [auto|].
  unfold mids_inactive. simpl. set_solver.
Qed.

(** Activating [x] keeps the core invariant when [x] is no step of the
    turn, or when nothing is running and [x] is the current step. *)
Lemma activateStep_Core env prev x st :
  fresh env prev -> Core env prev st ->
  (x ∈ activatedSteps st \/ ~ In x stepOrder \/
   x = "amendments"%string \/ x = "landmark"%string \/ x = "recent"%string \/
   (x = stepOrder_at (currentStepIndex st) /\
    (mids_inactive st -> none_running env prev st))) ->
  Core env prev (exec (activateStep env x) st).
Proof.
  intros Hf HC Hx. pose proof (mids_inactive_activate env x st) as Hmono.
  rewrite exec_activateStep in *.
  destruct (decide (x ∈ activatedSteps st)) as [Hin|Hnin]; [assumption|].
  destruct HC as [Hph (m & steps & Ht & Hs & Hc & Hd & Hr) Hsn Hsec Hsv].
  cbv zeta in *. set (t := Date_now env (clock st)) in *.
  pose proof (is_turn_activate env prev _ m steps x t Hf Ht) as Ht'.
  set (st' := {| messages := activate_update (aiTempId env) x t (messages st) |}) in *.
  assert (mids_inactive st' ->
          running_only (stepOrder_at (currentStepIndex st))
            (activate_steps x t steps)) as Hr'.
  { intros Hq'. pose proof (Hmono Hq') as Hq.
    destruct Hx as [Hx|[Hx|[Hx|[Hx|[Hx|[Hx Hnr]]]]]].
    - contradiction.
    - rewrite activate_steps_foreign; [auto|].
      destruct Ht as (_ & _ & _ & ->). exact Hx.
    - exfalso. destruct Hq' as (Hq' & _ & _). apply Hq'. subst x st'. simpl. set_solver.
    - exfalso. destruct Hq' as (_ & Hq' & _). apply Hq'. subst x st'. simpl. set_solver.
    - exfalso. destruct Hq' as (_ & _ & Hq'). apply Hq'. subst x st'. simpl. set_solver.
    - rewrite <- Hx. apply running_only_activate. eapply Hnr; eauto. }
  constructor; try assumption.
  - exists (with_steps m (Some (activate_steps x t steps))), (activate_steps x t steps).
    repeat split; try assumption; apply Ht'.
  - simpl. constructor.
    + right.
      exists (with_steps m (Some (activate_steps x t steps))), (activate_steps x t steps).
      repeat split; try assumption; try apply Ht'.
      intros Hq'. eapply count_running_le1; [eapply is_turn_NoDup; exact Ht' | auto].
    + eapply live_snapshots_mono; [|exact Hsn]. exact Hmono.
  - simpl. set_solver.
Qed.

Lemma exec_seq {A} (m : M A) (k : M unit) st :
  exec (m ;; k) st = exec k (exec m st).
Proof. unfold exec, mbind, M_bind. destruct (m st). reflexivity. Qed.

Lemma exec_modify f st : exec (modify f) st = f st.
Proof. reflexivity. Qed.

Lemma exec_skip st : exec skip st = st.
Proof. reflexivity. Qed.

Lemma exec_get {B} (f : TurnState -> M B) st :
  exec (get ≫= f) st = exec (f st) st.
Proof. reflexivity. Qed.

(** What [activateStep] and [completeStep] leave alone. *)
Lemma activateStep_frame env x st :
  let st' := exec (activateStep env x) st in
  currentStepIndex st' = currentStepIndex st /\
  responseStarted st' = responseStarted st /\
  fullContent st' = fullContent st /\ charCount st' = charCount st /\
  loop_done st' = loop_done st /\ phase st' = phase st /\
  saveRequests st' = saveRequests st /\ stepInterval st' = stepInterval st /\
  activatedSteps st' = {[x]} ∪ activatedSteps st.
Proof.
  cbv zeta. rewrite exec_activateStep.
  destruct (decide (x ∈ activatedSteps st)); simpl; repeat split; set_solver.
Qed.

Lemma completeStep_frame env x st :
  let st' := exec (completeStep env x) st in
  currentStepIndex st' = currentStepIndex st /\
  responseStarted st' = responseStarted st /\
  fullContent st' = fullContent st /\ charCount st' = charCount st /\
  loop_done st' = loop_done st /\ phase st' = phase st /\
  saveRequests st' = saveRequests st /\ stepInterval st' = stepInterval st /\
  activatedSteps st' = activatedSteps st.
Proof. cbv zeta. rewrite exec_completeStep. simpl. repeat split. Qed.

Lemma Core_set_responseStarted env prev b st :
  Core env prev st -> Core env prev (set_responseStarted b st).
Proof. intros [? ? ? ? ?]. constructor; assumption. Qed.

Lemma Core_set_stepInterval env prev b st :
  Core env prev st -> Core env prev (set_stepInterval b st).
Proof. intros [? ? ? ? ?]. constructor; assumption. Qed.

Lemma Core_set_loop_done env prev b st :
  Core env prev st -> Core env prev (set_loop_done b st).
Proof. intros [? ? ? ? ?]. constructor; assumption. Qed.

Lemma Core_set_currentStepIndex env prev i st :
  Core env prev st -> (mids_inactive st -> none_running env prev st) ->
  Core env prev (set_currentStepIndex i st).
Proof.
  intros [Hph (m & steps & Ht & Hs & Hc & Hd & Hr) Hsn Hsec Hsv] Hnr.
  constructor; try assumption.
  exists m, steps. split; [exact Ht|]. do 3 (split; [assumption|]).
  intros Hq. apply no_running_only. eapply Hnr; eauto.
Qed.

Lemma start_response_Live env prev st :
  fresh env prev -> Live env prev st ->
  let st' := exec (start_response env) st in
  Live env prev st' /\ responseStarted st' = true /\
  fullContent st' = fullContent st.
Proof.
  intros Hf HL. pose proof HL as [HC Hst Hun]. cbv zeta. unfold start_response.
  rewrite exec_get. destruct (responseStarted st) eqn:Ers.
  - rewrite exec_skip. split; [exact HL | split; [assumption | reflexivity]].
  - destruct (Hun eq_refl) as (Hfc & Hidx & _). rewrite Hidx.
    change (0 <? length stepOrder - 1)%nat with true. cbv iota.
    rewrite !exec_seq, !exec_modify.
    set (st1 := set_responseStarted true st).
    assert (Core env prev st1) as HC1 by now apply Core_set_responseStarted.
    destruct (completeStep_Core env prev (stepOrder_at 0) st1 Hf HC1) as [HC2 Hnr2].
    set (st2 := exec (completeStep env (stepOrder_at 0)) st1) in *.
    destruct (completeStep_frame env (stepOrder_at 0) st1)
      as (Hi2 & Hr2 & Hc2 & _ & _ & _ & _ & _ & Ha2).
    fold st2 in Hi2, Hr2, Hc2, Ha2.
    assert (mids_inactive st2 -> none_running env prev st2) as Hnr2'.
    { intros Hq. apply Hnr2; [subst st1; simpl; now rewrite Hidx|].
      unfold mids_inactive in *. now rewrite Ha2 in Hq. }
    set (st3 := set_currentStepIndex (length stepOrder - 1) st2).
    assert (Core env prev st3) as HC3 by now apply Core_set_currentStepIndex.
    assert (Core env prev (exec (activateStep env "writing") st3)) as HC4.
    { apply activateStep_Core; [assumption..|].
      do 5 right. split; [reflexivity|]. exact Hnr2'. }
    destruct (activateStep_frame env "writing" st3)
      as (Hi4 & Hr4 & Hc4 & _ & _ & _ & _ & _ & Ha4).
    split; [|split].
    + constructor; [assumption| |].
      * intros _. rewrite Hi4, Ha4. split; [reflexivity | set_solver].
      * rewrite Hr4. subst st3. simpl. rewrite Hr2. discriminate.
    + rewrite Hr4. subst st3. simpl. now rewrite Hr2.
    + rewrite Hc4. subst st3. simpl. now rewrite Hc2.
Qed.

Lemma activateStep_signal_Live env prev x st :
  fresh env prev -> Live env prev st -> responseStarted st = true ->
  In x PHASE_IDS ->
  Live env prev (exec (activateStep env x) st).
Proof.
  intros Hf [HC Hst Hun] Hrs Hx.
  destruct (Hst Hrs) as [Hidx Hw].
  destruct (activateStep_frame env x st) as (Hi & Hr & _ & _ & _ & _ & _ & _ & Ha).
  constructor.
  - apply activateStep_Core; [assumption..|].
    simpl in Hx. destruct Hx as [<-|[<-|[<-|[<-|[<-|[<-|[]]]]]]].
    + left. apply HC.
    + auto.
    + auto.
    + auto 6.
    + right. left. simpl. intuition discriminate.
    + left. exact Hw.
  - intros _. rewrite Hi, Ha. split; [assumption | set_solver].
  - rewrite Hr, Hrs. discriminate.
Qed.

Lemma activate_triggered_Live env prev l : forall st,
  fresh env prev -> Live env prev st -> responseStarted st = true ->
  Forall (fun x => In x PHASE_IDS) l ->
  let st' := exec (activate_triggered env l) st in
  Live env prev st' /\ responseStarted st' = true /\
  fullContent st' = fullContent st.
Proof.
  induction l as [|x l IH]; intros st Hf HL Hrs Hl; cbv zeta; simpl.
  - auto.
  - inversion Hl as [|? ? Hx Hl']; subst.
    rewrite exec_get, exec_seq.
    assert (exec (if decide (x ∈ activatedSteps st) then skip
                  else activateStep env x) st = exec (activateStep env x) st) as ->.
    { destruct (decide (x ∈ activatedSteps st)) as [Hin|Hnin]; [|reflexivity].
      rewrite exec_skip, exec_activateStep.
      destruct (decide (x ∈ activatedSteps st)); [reflexivity | contradiction]. }
    destruct (activateStep_frame env x st) as (_ & Hr & Hc & _).
    destruct (IH (exec (activateStep env x) st)) as (HL' & Hr' & Hc'); auto.
    + now apply activateStep_signal_Live.
    + congruence.
    + split; [exact HL' | split; [exact Hr' | congruence]].
Qed.

Lemma detect_phase_ids text :
  Forall (fun x => In x PHASE_IDS) (detectStepsFromChunk text).
Proof.
  apply Forall_forall. intros x Hx. apply list_elem_of_In in Hx.
  eapply detect_phase_ids_In; eassumption.
Qed.

Lemma same_control_refl st : same_control st st.
Proof. unfold same_control. tauto. Qed.

Lemma same_control_trans st1 st2 st3 :
  same_control st1 st2 -> same_control st2 st3 -> same_control st1 st3.
Proof. unfold same_control. intuition congruence. Qed.

Lemma activateStep_control env x st :
  same_control st (exec (activateStep env x) st).
Proof.
  destruct (activateStep_frame env x st) as (? & ? & ? & ? & ? & ? & ? & ? & ?).
  unfold same_control. tauto.
Qed.

Lemma completeStep_control env x st :
  same_control st (exec (completeStep env x) st).
Proof.
  destruct (completeStep_frame env x st) as (? & ? & ? & ? & ? & ? & ? & ? & ?).
  unfold same_control. tauto.
Qed.

Lemma activate_triggered_control env l : forall st,
  same_control st (exec (activate_triggered env l) st).
Proof.
  induction l as [|x l IH]; intros st; simpl.
  - apply same_control_refl.
  - rewrite exec_get, exec_seq. eapply same_control_trans; [|apply IH].
    destruct (decide (x ∈ activatedSteps st)).
    + apply same_control_refl.
    + apply activateStep_control.
Qed.

Lemma Live_publish_content env prev st text :
  fresh env prev -> Live env prev st -> responseStarted st = true ->
  let fc := fullContent st ++ text in
  Live env prev
    (set_messages (content_update (aiTempId env) fc (messages st))
       (set_fullContent fc st)).
Proof.
  intros Hf [[Hph (m & steps & Ht & Hs & Hc & Hd & Hr) Hsn Hsec Hsv] Hst Hun] Hrs.
  cbv zeta. set (fc := fullContent st ++ text).
  pose proof (is_turn_content env prev _ m steps fc Hf Ht) as Ht'.
  constructor; [constructor|..]; simpl; try assumption.
  - exists (with_content m fc), steps.
    split; [exact Ht'|]. split; [exact Hs|]. split; [reflexivity|].
    split; [exact Hd | exact Hr].
  - constructor; [|exact Hsn]. right. exists (with_content m fc), steps.
    split; [exact Ht'|]. split; [exact Hs|].
    intros Hq. eapply count_running_le1; [eapply is_turn_NoDup; exact Ht | auto].
  - rewrite Hrs. discriminate.
Qed.

Lemma publish_Live env prev st text :
  fresh env prev -> Live env prev st -> responseStarted st = true ->
  let st' := exec (publish env text) st in
  Live env prev st' /\ fullContent st' = fullContent st ++ text /\
  loop_done st' = loop_done st.
Proof.
  intros Hf HL Hrs. cbv zeta. unfold publish.
  rewrite !exec_seq, exec_modify.
  destruct (activate_triggered_Live env prev (detectStepsFromChunk text) st
              Hf HL Hrs (detect_phase_ids text)) as (HL1 & Hrs1 & Hfc1).
  pose proof (activate_triggered_control env (detectStepsFromChunk text) st)
    as (_ & _ & _ & _ & Hld & _).
  set (st1 := exec (activate_triggered env (detectStepsFromChunk text)) st) in *.
  rewrite exec_get. unfold setMessages. rewrite exec_modify.
  change (fullContent (set_fullContent (fullContent st1 ++ text) st1))
    with (fullContent st1 ++ text).
  change (messages (set_fullContent (fullContent st1 ++ text) st1))
    with (messages st1).
  split; [|split].
  - now apply Live_publish_content.
  - simpl. now rewrite Hfc1.
  - simpl. exact Hld.
Qed.

Lemma on_content_Live env prev st content :
  fresh env prev -> Live env prev st ->
  let st' := exec (on_content env content) st in
  Live env prev st' /\
  fullContent st' = fullContent st ++
    match ToString env content with Some text => text | None => [] end /\
  loop_done st' = loop_done st.
Proof.
  intros Hf HL. cbv zeta. unfold on_content. rewrite exec_seq.
  destruct (start_response_Live env prev st Hf HL) as (HL1 & Hrs1 & Hfc1).
  assert (loop_done (exec (start_response env) st) = loop_done st) as Hld1.
  { unfold start_response. rewrite exec_get.
    destruct (responseStarted st); [reflexivity|].
    rewrite exec_seq, exec_modify.
    destruct (currentStepIndex st <? length stepOrder - 1)%nat; [|reflexivity].
    rewrite !exec_seq, exec_modify.
    pose proof (activateStep_control env "writing"
      (set_currentStepIndex (length stepOrder - 1)
         (exec (completeStep env (stepOrder_at (currentStepIndex st)))
            (set_responseStarted true st)))) as (_ & _ & _ & _ & -> & _).
    simpl.
    pose proof (completeStep_control env (stepOrder_at (currentStepIndex st))
      (set_responseStarted true st)) as (_ & _ & _ & _ & -> & _).
    reflexivity. }
  set (st1 := exec (start_response env) st) in *.
  destruct (ToString env content) as [text|].
  - destruct (publish_Live env prev st1 text Hf HL1 Hrs1) as (HL2 & Hfc2 & Hld2).
    split; [exact HL2|]. split; congruence.
  - rewrite exec_skip, app_nil_r. auto.
Qed.

Lemma on_line_Live env prev st line :
  fresh env prev -> Live env prev st ->
  let f := classify env line in
  let r := on_line env line st in
  Live env prev r.2 /\ r.1 = is_terminator f /\
  fullContent r.2 = fullContent st ++ fragment_of f /\
  loop_done r.2 = loop_done st || is_terminator f.
Proof.
  intros Hf HL. cbv zeta. unfold on_line, classify, payload.
  assert (forall b, b = b || false) as Hb by (intros []; reflexivity).
  assert (Live env prev st /\ false = false /\
          fullContent st = fullContent st ++ [] /\
          loop_done st = loop_done st || false) as Hsame.
  { rewrite app_nil_r. auto. }
  assert (Live env prev (set_loop_done true st) /\ true = true /\
          fullContent st = fullContent st ++ [] /\
          true = loop_done st || true) as Hstop.
  { rewrite app_nil_r, orb_true_r. split; [|auto].
    destruct HL as [HC ? ?]. constructor; [apply Core_set_loop_done, HC|assumption..]. }
  destruct (negb (startsWith (str "data:") line)); [exact Hsame|].
  destruct (js_eqb (trim (slice 5 line)) (str "[DONE]")); [exact Hstop|].
  destruct (JSON_parse (trim (slice 5 line))) as [data|]; [|exact Hsame].
  destruct data as [|b|n|s|items|ms]; try exact Hsame.
  all: destruct (is_str "heartbeat" _); [exact Hsame|].
  all: destruct (is_str "done" _); [exact Hstop|].
  all: destruct (prop "content" _) as [content|]; [|exact Hsame].
  all: destruct (ToBoolean env content); [|exact Hsame].
  all: munfold; simpl.
  all: destruct (on_content_Live env prev st content Hf HL) as (HL' & Hfc & Hld).
  all: unfold exec in *; destruct (on_content env content st) as [u st']; simpl in *.
  all: destruct (ToString env content); simpl;
       rewrite orb_false_r; auto.
Qed.

Lemma terminator_no_fragment f : is_terminator f = true -> fragment_of f = [].
Proof. destruct f; simpl; congruence. Qed.

Lemma on_lines_Live env prev lines : forall st,
  fresh env prev -> Live env prev st ->
  let fs := map (classify env) lines in
  let st' := exec (on_lines env lines) st in
  Live env prev st' /\
  fullContent st' = fullContent st ++ assembled fs /\
  loop_done st' = loop_done st || ends fs.
Proof.
  induction lines as [|line lines IH]; intros st Hf HL; cbv zeta.
  - simpl. rewrite exec_skip, app_nil_r, orb_false_r. auto.
  - simpl. rewrite exec_bind.
    destruct (on_line_Live env prev st line Hf HL) as (HL1 & Hstop & Hfc & Hld).
    destruct (on_line env line st) as [stop st1]. simpl in *.
    unfold assembled. simpl. subst stop.
    destruct (is_terminator (classify env line)) eqn:Et.
    + rewrite exec_skip. simpl.
      rewrite terminator_no_fragment in Hfc by assumption.
      rewrite orb_true_r in *. auto.
    + destruct (IH st1 Hf HL1) as (HL2 & Hfc2 & Hld2).
      split; [exact HL2|]. fold (assembled (map (classify env) lines)) in *.
      simpl. rewrite Hfc2, Hfc, Hld2, Hld, <- app_assoc, orb_false_r. auto.
Qed.

(** The interval callback never finds work: before the first fragment there
    is no content, and the first fragment moves the tracker to its last
    step. *)
Lemma on_tick_noop env prev st :
  Live env prev st -> exec (on_tick env) st = st.
Proof.
  intros [_ Hst Hun]. unfold on_tick. rewrite exec_get.
  destruct (responseStarted st) eqn:Ers.
  - destruct (Hst eq_refl) as [-> _]. reflexivity.
  - destruct (Hun eq_refl) as (-> & -> & _).
    destruct (charCount st); reflexivity.
Qed.

(** *** The end-of-stream pass *)

Lemma live_settled env prev q ms :
  live_snapshot env prev q ms -> settled_snapshot env prev ms.
Proof.
  intros [-> | (m & steps & Ht & Hs & _)]; [left; reflexivity|].
  right. exists m, steps. auto.
Qed.

Lemma Live_Closing env prev st :
  Live env prev st -> Closing env prev [] st.
Proof.
  intros [[_ (m & steps & Ht & Hs & Hc & Hd & _) Hsn _ _] _ _]. split.
  - exists m, steps. repeat (split; [assumption|]).
    apply Forall_forall. intros s _ [].
  - eapply Forall_impl; [exact Hsn|]. intros ms. apply live_settled.
Qed.

Lemma done_on_complete x d X steps :
  done_on X steps -> done_on (x :: X) (complete_steps x d None steps).
Proof.
  intros H. unfold done_on, complete_steps. rewrite Forall_map.
  eapply Forall_impl; [exact H|]. intros s Hs. simpl.
  destruct (s_id s =? x)%string eqn:E; simpl; [reflexivity|].
  apply String.eqb_neq in E. intros [Heq|Hin]; [congruence | auto].
Qed.

Lemma done_on_activate_complete x t d X steps :
  done_on X steps ->
  done_on (x :: X) (complete_steps x d None (activate_steps x t steps)).
Proof.
  intros H. unfold done_on, complete_steps, activate_steps.
  rewrite !Forall_map. eapply Forall_impl; [exact H|]. intros s Hs. simpl.
  destruct (s_id s =? x)%string eqn:E; simpl; rewrite E; simpl; [reflexivity|].
  apply String.eqb_neq in E. intros [Heq|Hin]; [congruence | auto].
Qed.

Lemma complete_remaining_Closing env prev ids : forall X st,
  fresh env prev -> Closing env prev X st ->
  let st' := exec (complete_remaining env ids) st in
  Closing env prev (rev ids ++ X) st' /\ same_control st st'.
Proof.
  induction ids as [|x ids IH]; intros X st Hf HC; cbv zeta; simpl.
  - rewrite exec_skip. split; [assumption | apply same_control_refl].
  - rewrite exec_get, !exec_seq.
    set (st1 := exec (if decide (x ∈ activatedSteps st) then skip
                      else activateStep env x) st).
    assert (same_control st st1) as Hsc1.
    { subst st1. destruct (decide (x ∈ activatedSteps st));
        [apply same_control_refl | apply activateStep_control]. }
    pose proof (completeStep_control env x st1) as Hsc2.
    set (st2 := exec (completeStep env x) st1) in *.
    assert (Closing env prev (x :: X) st2) as HC2.
    { destruct HC as [(m & steps & Ht & Hs & Hc & Hd & Hdone) Hsn].
      subst st2. rewrite exec_completeStep. cbv zeta.
      set (d := (complete_timing env x st1).1).
      assert (exists m1 steps1, is_turn env prev (messages st1) m1 steps1 /\
                m_isStreaming m1 = Some true /\ m_content m1 = fullContent st /\
                m_db_id m1 = None /\
                done_on (x :: X) (complete_steps x d None steps1) /\
                Forall (settled_snapshot env prev) (snapshots st1))
        as (m1 & steps1 & Ht1 & Hs1 & Hc1 & Hd1 & Hdone1 & Hsn1).
      { subst st1. destruct (decide (x ∈ activatedSteps st)).
        - rewrite exec_skip. exists m, steps. repeat (split; [assumption|]).
          split; [now apply done_on_complete | assumption].
        - rewrite exec_activateStep. destruct (decide (x ∈ activatedSteps st));
            [contradiction|]. cbv zeta. set (t := Date_now env (clock st)).
          pose proof (is_turn_activate env prev _ m steps x t Hf Ht) as Ht'.
          eexists _, _. simpl. split; [exact Ht'|].
          repeat (split; [assumption|]).
          split; [now apply done_on_activate_complete|].
          constructor; [|assumption]. right. eexists _, _. eauto. }
      pose proof (is_turn_complete env prev _ m1 steps1 x d None Hf Ht1) as Ht2.
      destruct Hsc1 as (_ & _ & Hfc1 & _).
      split; simpl.
      - eexists _, _. split; [exact Ht2|]. simpl.
        repeat (split; [congruence|]). exact Hdone1.
      - constructor; [|assumption]. right. eexists _, _. eauto. }
    destruct (IH (x :: X) st2 Hf HC2) as (HC3 & Hsc3).
    split.
    + rewrite <- app_assoc. exact HC3.
    + eapply same_control_trans; [|exact Hsc3].
      eapply same_control_trans; eassumption.
Qed.

Lemma exec_setMessages f st :
  exec (setMessages f) st = set_messages (f (messages st)) st.
Proof. reflexivity. Qed.

Ltac mstep :=
  repeat first [ rewrite exec_seq | rewrite exec_modify | rewrite exec_skip
               | rewrite exec_setMessages | rewrite exec_get ].

Lemma js_eqb_nil s : js_eqb s [] = match s with [] => true | _ => false end.
Proof. destruct s; reflexivity. Qed.

Lemma fallback_text_nonempty env : fallback_text env <> [].
Proof.
  unfold fallback_text. destruct (fallbackBody env) as [|a c]; [discriminate|].
  destruct a as [[|? ?]|]; simpl; try discriminate;
    destruct c as [[|? ?]|]; simpl; discriminate.
Qed.

Lemma done_on_all steps :
  map s_id steps = stepOrder -> done_on (rev stepOrder ++ []) steps ->
  Forall (fun s => s_status s = done) steps.
Proof.
  intros Hids H. apply Forall_forall. intros s Hs.
  unfold done_on in H. rewrite Forall_forall in H. apply H; [assumption|].
  rewrite app_nil_r, <- in_rev, <- Hids. apply in_map. now apply list_elem_of_In.
Qed.

(** The turn once streaming is marked done, before it is persisted. *)
Lemma persist_Ended env prev st m steps c fc :
  fresh env prev ->
  is_turn env prev (messages st) m steps ->
  m_isStreaming m = Some false -> m_db_id m = None ->
  Forall (fun s => s_status s = done) steps ->
  Forall (settled_snapshot env prev) (snapshots st) ->
  saveRequests st = [] -> fullContent st = c :: fc ->
  let st' := set_phase Completed (exec (persist env) st) in
  phase st' = Completed /\ saveRequests st' = [c :: fc] /\
  (exists m' steps', is_turn env prev (messages st') m' steps' /\
     m_isStreaming m' = Some false /\
     Forall (fun s => s_status s = done) steps' /\
     m_content m' = m_content m /\ m_db_id m' = backfilled env) /\
  Forall (settled_snapshot env prev) (snapshots st').
Proof.
  intros Hf Ht Hs Hd Hall Hsn Hsv Hfc. cbv zeta.
  unfold persist, backfilled. rewrite exec_get, Hfc. simpl negb. cbv iota.
  unfold saveMessage. munfold. simpl. rewrite Hsv.
  destruct (saveResult env) as [d|]; [destruct (d =? "")%string eqn:Ed|]; simpl.
  - repeat (split; [reflexivity|]). split; [|assumption].
    exists m, steps. auto.
  - repeat (split; [reflexivity|]).
    pose proof (is_turn_db_id env prev _ _ steps d Hf Ht) as Ht3. split.
    + eexists _, _. split; [exact Ht3|]. simpl. auto.
    + constructor; [|assumption]. right. eexists _, _.
      split; [exact Ht3|]. right. split; assumption.
  - repeat (split; [reflexivity|]). split; [|assumption].
    exists m, steps. auto.
Qed.

Lemma after_loop_Ended env prev st :
  fresh env prev -> Live env prev st ->
  Ended env prev (fullContent st) (exec (after_loop env) st).
Proof.
  intros Hf HL. unfold after_loop. rewrite !exec_seq, exec_modify.
  assert (Live env prev (set_stepInterval false st)) as HL0.
  { destruct HL as [HC ? ?]. constructor; [apply Core_set_stepInterval, HC|assumption..]. }
  destruct (complete_remaining_Closing env prev stepOrder [] _ Hf
              (Live_Closing _ _ _ HL0)) as (HC1 & Hsc1).
  set (st1 := exec (complete_remaining env stepOrder) (set_stepInterval false st)) in *.
  destruct HC1 as [(m & steps & Ht & Hs & Hc & Hd & Hdone) Hsn].
  assert (Forall (fun s => s_status s = done) steps) as Hall.
  { apply done_on_all; [apply Ht | exact Hdone]. }
  destruct Hsc1 as (_ & _ & Hfc1 & _ & _ & _ & Hsv1 & _). simpl in Hfc1, Hsv1.
  assert (saveRequests st1 = []) as Hsv by (rewrite Hsv1; apply HL).
  rewrite exec_setMessages.
  set (st2 := set_messages (streaming_done_update (aiTempId env) (messages st1)) st1).
  pose proof (is_turn_streaming_done env prev _ m steps Hf Ht) as Ht2.
  assert (Forall (settled_snapshot env prev) (snapshots st2)) as Hsn2.
  { simpl. constructor; [|assumption]. right. eexists _, _.
    split; [exact Ht2|]. right. split; [reflexivity | assumption]. }
  rewrite exec_get. change (fullContent st2) with (fullContent st1).
  rewrite Hfc1, js_eqb_nil. rewrite !exec_seq, exec_modify.
  unfold Ended, persisted_text, shown_text.
  destruct (fullContent st) as [|c fc] eqn:Efc.
  - pose proof (fallback_text_nonempty env) as Hne.
    unfold fallback, fallback_text in *.
    destruct (fallbackBody env) as [|a cnt] eqn:Efb.
    + rewrite exec_modify.
      edestruct (persist_Ended env prev
        (set_fullContent (str "Response received but could not be parsed.") st2)
        (with_isStreaming m false) steps) as (H1 & H2 & (m' & steps' & H3) & H4);
        try eassumption; try reflexivity.
      split; [exact H1|]. split; [exact H2|]. split; [|exact H4].
      exists m', steps'. destruct H3 as (? & ? & ? & Hc' & ?).
      repeat (split; [assumption|]). split; [|assumption].
      rewrite Hc'. simpl. rewrite Hc. exact Hfc1.
    + set (text := or_else a (or_else cnt (str "I'm JuristMind, your legal AI assistant."))) in *.
      destruct text as [|c0 text0] eqn:Etext; [contradiction|].
      rewrite exec_seq, exec_modify, exec_setMessages.
      pose proof (is_turn_content env prev _ _ steps (c0 :: text0) Hf Ht2) as Ht3.
      edestruct (persist_Ended env prev
        (set_messages (content_update (aiTempId env) (c0 :: text0)
                         (messages (set_fullContent (c0 :: text0) st2)))
           (set_fullContent (c0 :: text0) st2))
        (with_content (with_isStreaming m false) (c0 :: text0)) steps)
        as (H1 & H2 & (m' & steps' & H3) & H4);
        try eassumption; try reflexivity.
      { simpl. constructor; [|assumption]. right. eexists _, _.
        split; [exact Ht3|]. right. split; [reflexivity | assumption]. }
      split; [exact H1|]. split; [exact H2|]. split; [|exact H4].
      exists m', steps'. exact H3.
  - rewrite exec_skip.
    edestruct (persist_Ended env prev st2 (with_isStreaming m false) steps c fc)
      as (H1 & H2 & (m' & steps' & H3) & H4);
      try eassumption; try reflexivity.
    split; [exact H1|]. split; [exact H2|]. split; [|exact H4].
    exists m', steps'. destruct H3 as (? & ? & ? & Hc' & ?).
    repeat (split; [assumption|]). split; [|assumption].
    rewrite Hc'. simpl. rewrite Hc. exact Hfc1.
Qed.

(** *** The [catch] block *)

Lemma step_failed_spec steps :
  Forall2 (fun s s' =>
             s_id s' = s_id s /\
             (s_status s = running -> s_status s' = error) /\
             (s_status s <> running -> s_status s' = s_status s))
          steps (map step_failed steps).
Proof.
  induction steps as [|s steps IH]; simpl; constructor; [|exact IH].
  split; [reflexivity|]. simpl.
  destruct (s_status s); simpl; split; congruence.
Qed.

Lemma on_error_Aborted env prev st m steps :
  fresh env prev -> Live env prev st ->
  is_turn env prev (messages st) m steps ->
  Aborted env prev steps (exec (on_error env) st).
Proof.
  intros Hf HL Ht. unfold on_error, saveMessage. mstep.
  pose proof (is_turn_error env prev _ m steps Hf Ht) as Ht'.
  unfold Aborted. simpl.
  destruct HL as [[_ _ _ _ Hsv] _ _]. rewrite Hsv.
  repeat (split; [reflexivity|]).
  eexists _, _. split; [exact Ht'|]. simpl.
  repeat (split; [reflexivity|]). apply step_failed_spec.
Qed.

(** *** Events *)

Lemma phase_after_loop env st : phase (exec (after_loop env) st) = Completed.
Proof. unfold after_loop. mstep. reflexivity. Qed.

Lemma phase_on_error env st : phase (exec (on_error env) st) = Failed.
Proof. unfold on_error. mstep. reflexivity. Qed.

Lemma step_settled env st e :
  phase st = Completed \/ phase st = Failed -> step env st e = st.
Proof.
  intros H. unfold step, on_event. rewrite exec_get.
  destruct H as [-> | ->]; reflexivity.
Qed.

Lemma run_settled env evs : forall st,
  phase st = Completed \/ phase st = Failed -> run env evs st = st.
Proof.
  induction evs as [|e evs IH]; intros st H; simpl; [reflexivity|].
  rewrite step_settled by assumption. now apply IH.
Qed.

Lemma Live_set_loop_done env prev b st :
  Live env prev st -> Live env prev (set_loop_done b st).
Proof.
  intros [HC ? ?]. constructor; [apply Core_set_loop_done, HC | assumption..].
Qed.

Lemma Live_entering env prev st :
  Live env prev st ->
  Live env prev (set_phase Streaming (set_stepInterval true st)).
Proof.
  intros [[Hph Ht Hsn Hsec Hsv] Hst Hun].
  constructor; [constructor|..]; simpl; auto.
Qed.

Lemma start_response_phase env st :
  phase (exec (start_response env) st) = phase st.
Proof.
  unfold start_response. rewrite exec_get.
  destruct (responseStarted st); [reflexivity|]. mstep.
  destruct (currentStepIndex st <? length stepOrder - 1)%nat; [|reflexivity].
  mstep.
  pose proof (activateStep_control env "writing"
    (set_currentStepIndex (length stepOrder - 1)
       (exec (completeStep env (stepOrder_at (currentStepIndex st)))
          (set_responseStarted true st)))) as (_ & _ & _ & _ & _ & -> & _).
  simpl.
  pose proof (completeStep_control env (stepOrder_at (currentStepIndex st))
    (set_responseStarted true st)) as (_ & _ & _ & _ & _ & -> & _).
  reflexivity.
Qed.

Lemma publish_phase env text st :
  phase (exec (publish env text) st) = phase st.
Proof.
  unfold publish. mstep. simpl.
  now pose proof (activate_triggered_control env (detectStepsFromChunk text) st)
    as (_ & _ & _ & _ & _ & -> & _).
Qed.

Lemma on_content_phase env content st :
  phase (exec (on_content env content) st) = phase st.
Proof.
  unfold on_content. rewrite exec_seq.
  destruct (ToString env content).
  - now rewrite publish_phase, start_response_phase.
  - now rewrite exec_skip, start_response_phase.
Qed.

Lemma on_line_phase env line st :
  phase (on_line env line st).2 = phase st.
Proof.
  unfold on_line.
  destruct (negb (startsWith (str "data:") line)); [reflexivity|].
  destruct (js_eqb (trim (slice 5 line)) (str "[DONE]")); [reflexivity|].
  destruct (JSON_parse (trim (slice 5 line))) as [data|]; [|reflexivity].
  destruct data as [|b|n|s|items|ms]; try reflexivity.
  all: destruct (is_str "heartbeat" _); [reflexivity|].
  all: destruct (is_str "done" _); [reflexivity|].
  all: destruct (prop "content" _) as [content|]; [|reflexivity].
  all: destruct (ToBoolean env content); [|reflexivity].
  all: pose proof (on_content_phase env content st) as H.
  all: munfold; destruct (on_content env content st); exact H.
Qed.

Lemma on_lines_phase env lines : forall st,
  phase (exec (on_lines env lines) st) = phase st.
Proof.
  induction lines as [|line lines IH]; intros st; simpl; [reflexivity|].
  rewrite exec_bind. pose proof (on_line_phase env line st) as H.
  destruct (on_line env line st) as [[|] st1]; simpl in *.
  - now rewrite exec_skip.
  - now rewrite IH.
Qed.

(** One event on a live turn, with the content it assembles. *)
Lemma step_Live env prev st e :
  fresh env prev -> Live env prev st -> loop_done st = false ->
  let st' := step env st e in
  (Live env prev st' /\ loop_done st' = false /\
   (phase st = Streaming -> phase st' = Streaming /\
      fullContent st' = fullContent st ++ assembled (frames_of env [e]) /\
      ends (frames_of env [e]) = false)) \/
  (exists stX, Live env prev stX /\ phase stX = Streaming /\
     phase st = Streaming /\
     fullContent stX = fullContent st ++ assembled (frames_of env [e]) /\
     ends (frames_of env [e]) = true /\
     st' = exec (after_loop env) stX) \/
  (exists stX, Live env prev stX /\ st' = exec (on_error env) stX /\
     (e = Read RThrow \/ (e = Response false /\ phase st = Fetching))).
Proof.
  intros Hf HL Hnd. cbv zeta. unfold step, on_event. rewrite exec_get.
  pose proof HL as [[Hph _ _ _ _] _ _].
  destruct Hph as [Hph | Hph]; rewrite Hph.
  - destruct e as [[|]| |r].
    + mstep. left. split; [now apply Live_entering|]. split; [exact Hnd | discriminate].
    + right. right. exists st. auto.
    + rewrite exec_skip. left. split; [assumption|]. split; [exact Hnd | discriminate].
    + rewrite exec_skip. left. split; [assumption|]. split; [exact Hnd | discriminate].
  - destruct e as [ok| |r].
    + rewrite exec_skip. left. split; [assumption|]. split; [exact Hnd|]. intros _.
      simpl. unfold assembled. simpl. rewrite app_nil_r. auto.
    + rewrite (on_tick_noop env prev) by assumption. left.
      split; [assumption|]. split; [exact Hnd|]. intros _.
      simpl. unfold assembled. simpl. rewrite app_nil_r. auto.
    + destruct r as [chunk| |]; unfold on_read.
      * rewrite exec_seq, exec_get.
        destruct (on_lines_Live env prev (split_nn chunk) st Hf HL)
          as (HL1 & Hfc1 & Hld1).
        pose proof (on_lines_phase env (split_nn chunk) st) as Hph1.
        rewrite Hph in Hph1.
        set (st1 := exec (on_lines env (split_nn chunk)) st) in *.
        rewrite Hld1, Hnd. simpl frames_of. rewrite app_nil_r.
        fold (frames_of_chunk env chunk) in *.
        destruct (ends (frames_of_chunk env chunk)) eqn:Eends; simpl orb; cbv iota.
        -- right. left. exists st1. auto 7.
        -- rewrite exec_skip. left. split; [assumption|].
           split; [now rewrite Hld1, Hnd|]. auto.
      * mstep. right. left. exists (set_loop_done true st).
        split; [now apply Live_set_loop_done|]. split; [exact Hph|].
        split; [reflexivity|]. simpl. unfold assembled. simpl.
        rewrite app_nil_r. auto.
      * right. right. exists st. auto.
Qed.

Lemma assembled_app fs1 fs2 :
  assembled (fs1 ++ fs2) =
  if ends fs1 then assembled fs1 else assembled fs1 ++ assembled fs2.
Proof.
  unfold assembled, ends. induction fs1 as [|f fs1 IH]; simpl; [reflexivity|].
  destruct (is_terminator f); simpl; [reflexivity|].
  rewrite IH. destruct (existsb is_terminator fs1); [reflexivity|].
  now rewrite app_assoc.
Qed.

Lemma ends_app fs1 fs2 : ends (fs1 ++ fs2) = ends fs1 || ends fs2.
Proof. apply existsb_app. Qed.

Lemma frames_of_cons env e evs :
  frames_of env (e :: evs) = frames_of env [e] ++ frames_of env evs.
Proof.
  destruct e as [ok| |[chunk| |]]; simpl; rewrite ?app_nil_r; reflexivity.
Qed.

(** The whole stream, from a turn that reads. *)
Lemma run_Streaming env prev evs : forall st,
  fresh env prev -> Live env prev st -> loop_done st = false ->
  phase st = Streaming ->
  let st' := run env evs st in
  let fs := frames_of env evs in
  (Live env prev st' /\ loop_done st' = false /\ phase st' = Streaming /\
   fullContent st' = fullContent st ++ assembled fs /\ ends fs = false) \/
  (exists stX, Live env prev stX /\ phase stX = Streaming /\
     fullContent stX = fullContent st ++ assembled fs /\ ends fs = true /\
     st' = exec (after_loop env) stX) \/
  (exists stX, Live env prev stX /\ st' = exec (on_error env) stX /\
     In (Read RThrow) evs).
Proof.
  induction evs as [|e evs IH]; intros st Hf HL Hnd Hph; cbv zeta.
  - left. simpl. unfold assembled. simpl. rewrite app_nil_r. auto.
  - simpl run. rewrite frames_of_cons, assembled_app, ends_app.
    destruct (step_Live env prev st e Hf HL Hnd)
      as [(HL1 & Hnd1 & H1) | [(stX & HLX & HphX & _ & HfcX & HeX & Hst) |
                               (stX & HLX & Hst & He)]].
    + destruct (H1 Hph) as (Hph1 & Hfc1 & He1). rewrite He1. simpl orb.
      destruct (IH (step env st e) Hf HL1 Hnd1 Hph1)
        as [(HL2 & Hnd2 & Hph2 & Hfc2 & He2) |
            [(stX & HLX & HphX & HfcX & HeX & Hst) | (stX & HLX & Hst & Hin)]].
      * left. repeat (split; [assumption|]).
        split; [|assumption]. now rewrite Hfc2, Hfc1, <- app_assoc.
      * right. left. exists stX. repeat (split; [assumption|]).
        split; [|auto]. now rewrite HfcX, Hfc1, <- app_assoc.
      * right. right. exists stX. simpl. auto.
    + rewrite HeX. simpl orb. right. left. exists stX.
      repeat (split; [assumption|]). split; [reflexivity|].
      rewrite Hst. apply run_settled. left. apply phase_after_loop.
    + right. right. exists stX. split; [assumption|]. split.
      * rewrite Hst. apply run_settled. right. apply phase_on_error.
      * destruct He as [-> | [_ He]]; [left; reflexivity | congruence].
Qed.

(** *** The start of the turn *)

Lemma begin_eq env prev :
  begin env prev =
  let t := Date_now env 1 in
  let ms0 := prev ++ [aiPlaceholder env (Date_now env 0)] in
  let ms := activate_update (aiTempId env) "sections" t ms0 in
  {| messages := ms; snapshots := [ms; ms0; prev];
     activatedSteps := {["sections"]} ∪ ∅;
     stepStartTimes := <["sections" := t]> ∅;
     currentStepIndex := 0; charCount := 0; fullContent := [];
     loop_done := false; responseStarted := false; stepInterval := false;
     clock := 2; saveRequests := []; phase := Fetching |}.
Proof.
  unfold begin. rewrite exec_bind. unfold now at 1. simpl.
  rewrite exec_seq, exec_setMessages, exec_activateStep. simpl.
  destruct (decide ("sections" ∈ (∅ : gset string))) as [Hin|_]; [set_solver|].
  reflexivity.
Qed.

Lemma begin_Live env prev :
  fresh env prev ->
  Live env prev (begin env prev) /\ loop_done (begin env prev) = false /\
  phase (begin env prev) = Fetching.
Proof.
  intros Hf. rewrite begin_eq. cbv zeta.
  set (m0 := aiPlaceholder env (Date_now env 0)).
  assert (is_turn env prev (prev ++ [m0]) m0 (getInitialSteps None)) as Ht0.
  { unfold is_turn. auto. }
  pose proof (is_turn_activate env prev _ m0 _ "sections" (Date_now env 1) Hf Ht0)
    as Ht1.
  split; [|split; reflexivity].
  constructor; [constructor|..]; simpl.
  - left; reflexivity.
  - eexists _, _. split; [exact Ht1|]. repeat (split; [reflexivity|]).
    intros _. unfold running_only. simpl. repeat constructor; simpl; congruence.
  - constructor; [|constructor; [|constructor; [|constructor]]].
    + right. eexists _, _. split; [exact Ht1|]. split; [reflexivity|].
      intros _. simpl. lia.
    + right. eexists _, _. split; [exact Ht0|]. split; [reflexivity|].
      intros _. simpl. lia.
    + left. reflexivity.
  - set_solver.
  - reflexivity.
  - discriminate.
  - intros _. do 2 (split; [reflexivity|]). split; [set_solver|].
    intros m steps Ht. destruct (is_turn_inj _ _ _ _ _ _ _ Ht1 Ht) as [_ <-].
    reflexivity.
Qed.

(** Whatever the events, the turn is still live, or has ended normally, or
    has been aborted. *)
Lemma run_Progress env prev evs : forall st,
  fresh env prev -> Live env prev st -> loop_done st = false ->
  Progress env prev (run env evs st).
Proof.
  induction evs as [|e evs IH]; intros st Hf HL Hnd; simpl.
  - now apply Still_live.
  - destruct (step_Live env prev st e Hf HL Hnd)
      as [(HL1 & Hnd1 & _) | [(stX & HLX & HphX & _ & _ & _ & Hst) |
                              (stX & HLX & Hst)]].
    + now apply IH.
    + rewrite Hst, run_settled by (left; apply phase_after_loop).
      eapply Has_ended; eauto.
    + destruct Hst as [Hst _].
      rewrite Hst, run_settled by (right; apply phase_on_error).
      eapply Has_failed; eauto.
Qed.

Lemma processMessage_Progress env prev events :
  fresh env prev -> Progress env prev (processMessage env prev events).
Proof.
  intros Hf. destruct (begin_Live env prev Hf) as (HL & Hnd & _).
  now apply run_Progress.
Qed.

(** *** Statuses through the step helpers *)

Lemma activate_triggered_steps env prev l : forall st m steps,
  fresh env prev -> is_turn env prev (messages st) m steps ->
  let st' := exec (activate_triggered env l) st in
  exists m' steps', is_turn env prev (messages st') m' steps' /\
    Forall2 (fun s s' =>
               s_id s' = s_id s /\
               s_status s' =
                 after_signals l (activatedSteps st) (s_id s) (s_status s))
            steps steps'.
Proof.
  unfold after_signals.
  induction l as [|x l IH]; intros st m steps Hf Ht; cbv zeta; simpl.
  - rewrite exec_skip. exists m, steps. split; [assumption|].
    apply Forall2_same_length_lookup_2; [reflexivity|].
    intros i s s' H1 H2. rewrite H1 in H2. injection H2 as <-. auto.
  - rewrite exec_get, exec_seq.
    destruct (decide (x ∈ activatedSteps st)) as [Hin|Hnin].
    + rewrite exec_skip. destruct (IH st m steps Hf Ht) as (m' & steps' & Ht' & HF).
      exists m', steps'. split; [assumption|].
      eapply Forall2_impl; [exact HF|]. intros s s' [Hid Hs]. split; [assumption|].
      rewrite Hs. destruct (String.eqb_spec (s_id s) x) as [->|Hne]; simpl; [|reflexivity].
      rewrite (bool_decide_eq_true_2 _ Hin). simpl. now rewrite andb_false_r.
    + pose proof (activateStep_frame env x st) as (_ & _ & _ & _ & _ & _ & _ & _ & HA).
      assert (messages (exec (activateStep env x) st) =
              activate_update (aiTempId env) x (Date_now env (clock st)) (messages st))
        as Hms.
      { rewrite exec_activateStep.
        destruct (decide (x ∈ activatedSteps st)); [contradiction | reflexivity]. }
      pose proof (is_turn_activate env prev _ m steps x (Date_now env (clock st)) Hf Ht)
        as Ht1.
      rewrite <- Hms in Ht1.
      destruct (IH _ _ _ Hf Ht1) as (m' & steps' & Ht' & HF).
      exists m', steps'. split; [assumption|].
      unfold activate_steps in HF. rewrite Forall2_fmap_l in HF.
      eapply Forall2_impl; [exact HF|]. intros s s' H.
      unfold compose in H. destruct H as [Hid Hs]. rewrite HA in Hs.
      destruct (s_id s =? x)%string eqn:E; simpl in *.
      * split; [assumption|]. apply String.eqb_eq in E.
        assert (bool_decide (s_id s ∈ activatedSteps st) = false) as ->
          by (apply bool_decide_eq_false_2; congruence).
        simpl. rewrite Hs. now destruct (_ && _).
      * split; [assumption|]. rewrite Hs. apply String.eqb_neq in E.
        assert (bool_decide (s_id s ∈ ({[x]} ∪ activatedSteps st : gset string)) =
                bool_decide (s_id s ∈ activatedSteps st)) as ->
          by (apply bool_decide_ext; set_solver).
        reflexivity.
Qed.

Lemma statuses_combine steps :
  statuses steps = combine (map s_id steps) (map s_status steps).
Proof. induction steps as [|s steps IH]; simpl; [reflexivity | now rewrite IH]. Qed.

Lemma statuses_complete x d detail steps :
  statuses (complete_steps x d detail steps) =
  map (fun p => (p.1, if (p.1 =? x)%string then done else p.2)) (statuses steps).
Proof.
  unfold statuses, complete_steps. rewrite !map_map. apply map_ext. intros s.
  simpl. destruct (s_id s =? x)%string; reflexivity.
Qed.

Lemma statuses_activate x t steps :
  statuses (activate_steps x t steps) =
  map (fun p => (p.1, if (p.1 =? x)%string then running else p.2)) (statuses steps).
Proof.
  unfold statuses, activate_steps. rewrite !map_map. apply map_ext. intros s.
  simpl. destruct (s_id s =? x)%string; reflexivity.
Qed.

Lemma statuses_Forall2 (f : string -> ProcessStepStatus -> ProcessStepStatus)
    steps steps' :
  Forall2 (fun s s' => s_id s' = s_id s /\ s_status s' = f (s_id s) (s_status s))
          steps steps' ->
  statuses steps' = map (fun p => (p.1, f p.1 p.2)) (statuses steps).
Proof.
  induction 1 as [|s s' steps steps' [Hid Hs] _ IH]; simpl; [reflexivity|].
  now rewrite IH, Hid, Hs.
Qed.

(** A content record is handed to [on_content], and the loop goes on. *)
Lemma on_line_content env line text :
  classify env line = FContent text ->
  exists content, ToString env content = Some text /\
    forall st, on_line env line st = (false, exec (on_content env content) st).
Proof.
  unfold classify, on_line, payload.
  destruct (negb (startsWith (str "data:") line)); [discriminate|].
  destruct (js_eqb (trim (slice 5 line)) (str "[DONE]")); [discriminate|].
  destruct (JSON_parse (trim (slice 5 line))) as [data|]; [|discriminate].
  destruct data as [|b|n|s|items|ms]; try discriminate.
  all: destruct (is_str "heartbeat" _); [discriminate|].
  all: destruct (is_str "done" _); [discriminate|].
  all: destruct (prop "content" _) as [content|]; [|discriminate].
  all: destruct (ToBoolean env content); [|discriminate].
  all: destruct (ToString env content) as [t|] eqn:E; [|discriminate].
  all: intros [= <-]; exists content; split; [exact E|].
  all: intros st; munfold; destruct (on_content env content st); reflexivity.
Qed.

(** The first content fragment of a turn. *)
Lemma first_fragment env prev st line text :
  fresh env prev -> Live env prev st -> responseStarted st = false ->
  classify env line = FContent text ->
  let st' := (on_line env line st).2 in
  responseStarted st' = true /\ currentStepIndex st' = 4%nat /\
  fullContent st' = text /\
  exists m steps, is_turn env prev (messages st') m steps /\
    m_content m = text /\
    statuses steps =
      [("sections", done); ("amendments", signalled text "amendments");
       ("landmark", signalled text "landmark");
       ("recent", signalled text "recent"); ("writing", running)]%string.
Proof.
  intros Hf HL Hrs Hcl. cbv zeta.
  destruct (on_line_content env line text Hcl) as (content & HtoS & Hline).
  rewrite Hline. simpl. clear Hline.
  pose proof HL as [[_ (m0 & steps0 & Ht0 & _) _ _ _] _ Hun].
  destruct (Hun Hrs) as (Hfc0 & Hidx0 & HA0 & Hst0).
  specialize (Hst0 _ _ Ht0).
  destruct (on_content_Live env prev st content Hf HL) as (HL' & Hfc' & _).
  rewrite HtoS, Hfc0 in Hfc'. simpl in Hfc'.
  unfold on_content in *. rewrite exec_seq, HtoS in *.
  destruct (start_response_Live env prev st Hf HL) as (HL1 & Hrs1 & _).
  (* the state after the first-fragment block *)
  assert (exists m1 steps1,
            is_turn env prev (messages (exec (start_response env) st)) m1 steps1 /\
            statuses steps1 =
              [("sections", done); ("amendments", pending); ("landmark", pending);
               ("recent", pending); ("writing", running)]%string /\
            activatedSteps (exec (start_response env) st) =
              {["writing"]} ∪ {["sections"]}) as (m1 & steps1 & Ht1 & Hst1 & HA1).
  { unfold start_response. rewrite exec_get, Hrs, Hidx0.
    change (0 <? length stepOrder - 1)%nat with true. cbv iota. mstep.
    rewrite exec_activateStep, exec_completeStep. cbv zeta. simpl activatedSteps.
    rewrite HA0.
    destruct (decide ("writing" ∈ ({["sections"]} : gset string))) as [Hin|_];
      [set_solver|].
    simpl. eexists _, _. split; [|split; [|reflexivity]].
    - apply is_turn_activate; [assumption|]. apply is_turn_complete; eassumption.
    - rewrite statuses_activate, statuses_complete, statuses_combine, Hst0.
      destruct Ht0 as (_ & _ & _ & ->). reflexivity. }
  set (st1 := exec (start_response env) st) in *.
  destruct (activate_triggered_steps env prev (detectStepsFromChunk text) st1
              m1 steps1 Hf Ht1) as (m2 & steps2 & Ht2 & HF).
  apply statuses_Forall2 in HF.
  rewrite Hst1, HA1 in HF. unfold after_signals in HF. cbn [map fst snd] in HF.
  assert (forall x, x <> "writing"%string -> x <> "sections"%string ->
            bool_decide (x ∈ ({["writing"]} ∪ {["sections"]} : gset string)) = false)
    as Hout by (intros x ? ?; apply bool_decide_eq_false_2; set_solver).
  assert (forall x, x = "writing"%string \/ x = "sections"%string ->
            bool_decide (x ∈ ({["writing"]} ∪ {["sections"]} : gset string)) = true)
    as Hinn by (intros x ?; apply bool_decide_eq_true_2; set_solver).
  rewrite !Hinn in HF by auto. rewrite !Hout in HF by discriminate.
  cbn [negb] in HF. rewrite !andb_false_r, !andb_true_r in HF.
  destruct HL' as [[_ (m' & steps' & Ht' & _ & Hc' & _) _ _ _] Hst' _].
  split; [|split; [|split]].
  - unfold publish in *. revert Hst'. mstep. simpl.
    pose proof (activate_triggered_control env (detectStepsFromChunk text) st1)
      as (_ & -> & _). now rewrite Hrs1.
  - unfold publish in *. revert Hst'. mstep. simpl.
    pose proof (activate_triggered_control env (detectStepsFromChunk text) st1)
      as (Hi & Hr & _). rewrite Hr, Hrs1. intros H. now apply H.
  - exact Hfc'.
  - exists m', steps'. split; [exact Ht'|]. split; [congruence|].
    unfold publish in Ht'. revert Ht'. mstep. simpl. intros Ht'.
    pose proof (is_turn_content env prev _ _ _
                  (fullContent st1 ++ text) Hf Ht2) as Ht3.
    assert (fullContent (exec (activate_triggered env (detectStepsFromChunk text)) st1)
            = fullContent st1) as Hfc2.
    { now pose proof (activate_triggered_control env (detectStepsFromChunk text) st1)
        as (_ & _ & -> & _). }
    rewrite Hfc2 in Ht'.
    destruct (is_turn_inj _ _ _ _ _ _ _ Ht3 Ht') as [_ <-].
    rewrite HF. unfold signalled. reflexivity.
Qed.

Lemma reading_Live env prev events :
  fresh env prev ->
  phase (processMessage env prev events) = Fetching \/
  phase (processMessage env prev events) = Streaming ->
  Live env prev (processMessage env prev events).
Proof.
  intros Hf Hph. destruct (processMessage_Progress env prev events Hf)
    as [HL _ | stX _ _ Hst | stX _ Hst]; [exact HL | exfalso..].
  - rewrite Hst, phase_after_loop in Hph. destruct Hph; discriminate.
  - rewrite Hst, phase_on_error in Hph. destruct Hph; discriminate.
Qed.

Lemma on_line_malformed env line st :
  classify env line = FMalformed -> on_line env line st = (false, st).
Proof.
  unfold classify, on_line, payload.
  destruct (negb (startsWith (str "data:") line)); [discriminate|].
  destruct (js_eqb (trim (slice 5 line)) (str "[DONE]")); [discriminate|].
  destruct (JSON_parse (trim (slice 5 line))) as [data|]; [|reflexivity].
  destruct data as [|b|n|s|items|ms]; try discriminate.
  all: destruct (is_str "heartbeat" _); [discriminate|].
  all: destruct (is_str "done" _); [discriminate|].
  all: destruct (prop "content" _) as [content|]; [|discriminate].
  all: destruct (ToBoolean env content); [|discriminate].
  all: destruct (ToString env content); discriminate.
Qed.

Lemma streaming_after_response env prev :
  fresh env prev ->
  let st := processMessage env prev [Response true] in
  Live env prev st /\ loop_done st = false /\ phase st = Streaming /\
  fullContent st = [].
Proof.
  intros Hf. destruct (begin_Live env prev Hf) as (HL & Hnd & Hph).
  unfold processMessage, run. simpl. unfold step, on_event.
  rewrite exec_get, Hph. mstep.
  split; [now apply Live_entering|]. split; [exact Hnd|]. split; [reflexivity|].
  simpl. destruct HL as [_ _ Hun]. apply Hun. rewrite begin_eq. reflexivity.
Qed.

Lemma run_cons env e events st :
  run env (e :: events) st = run env events (run env [e] st).
Proof. reflexivity. Qed.

Lemma processMessage_cons env prev e events :
  processMessage env prev (e :: events) =
  run env events (processMessage env prev [e]).
Proof. unfold processMessage. apply run_cons. Qed.


Lemma count_running_none steps :
  Forall (fun s => s_status s <> running) steps -> count_running steps = 0%nat.
Proof.
  induction 1 as [|s steps Hs _ IH]; simpl; [reflexivity|]. rewrite IH.
  destruct (s_status s); simpl; congruence.
Qed.

Lemma no_signal_in_hello sig :
  In sig STEP_SIGNALS -> ~ matches_somewhere (pattern sig) (str "hello").
Proof.
  intros Hin Hm. apply RegExp_test_spec in Hm. revert Hm.
  simpl in Hin.
  repeat (destruct Hin as [<- | Hin]; [vm_compute; discriminate|]).
  destruct Hin.
Qed.

(** ** A whole turn changes the list through its per-id updates only *)

Section Keeps.

Variable env : Env.
Variable P : list Message -> Prop.
Hypothesis P_stable : stable (aiTempId env) P.

Lemma keeps_ret {A} (a : A) : keeps P (ret a).
Proof. intros st H. exact H. Qed.

Lemma keeps_skip : keeps P skip.
Proof. intros st H. exact H. Qed.

Lemma keeps_bind {A B} (m : M A) (f : A -> M B) :
  keeps P m -> (forall a, keeps P (f a)) -> keeps P (m ≫= f).
Proof.
  intros Hm Hf st H. unfold mbind, M_bind. specialize (Hm st H).
  destruct (m st) as [a st1]. simpl in Hm. exact (Hf a st1 Hm).
Qed.

Lemma keeps_get : keeps P get.
Proof. intros st H. exact H. Qed.

Lemma keeps_modify (f : TurnState -> TurnState) :
  (forall st, messages (f st) = messages st) -> keeps P (modify f).
Proof. intros Hf st H. simpl. now rewrite Hf. Qed.

Lemma keeps_setMessages u :
  stream_update (aiTempId env) u -> keeps P (setMessages u).
Proof. intros Hu st H. simpl. now apply P_stable. Qed.

Lemma keeps_now : keeps P (now env).
Proof. intros st H. exact H. Qed.

Ltac keeps_step :=
  first [ apply keeps_skip | apply keeps_ret | apply keeps_now
        | apply keeps_get
        | apply keeps_setMessages; constructor
        | apply keeps_modify; intros ?; reflexivity
        | apply keeps_bind; [|intros ?] ].

Lemma keeps_activateStep x : keeps P (activateStep env x).
Proof.
  unfold activateStep. apply keeps_bind; [apply keeps_get|]. intros st.
  destruct (decide (x ∈ activatedSteps st)); repeat keeps_step.
Qed.

Lemma keeps_completeStep x : keeps P (completeStep env x).
Proof.
  unfold completeStep. apply keeps_bind; [apply keeps_get|]. intros st.
  apply keeps_bind.
  - destruct (stepStartTimes st !! x) as [t|]; [destruct (t =? 0)%Z|];
      repeat keeps_step.
  - intros startTime. repeat keeps_step.
Qed.

Lemma keeps_on_tick : keeps P (on_tick env).
Proof.
  unfold on_tick. apply keeps_bind; [apply keeps_get|]. intros st.
  destruct (_ && _); [|apply keeps_skip].
  apply keeps_bind; [repeat keeps_step|]. intros _.
  destruct (findIndex _ _) as [nextIdx|]; [|apply keeps_skip].
  destruct (currentStepIndex st <? nextIdx)%nat; [|apply keeps_skip].
  apply keeps_bind; [apply keeps_completeStep|]. intros _.
  apply keeps_bind; [repeat keeps_step|]. intros _.
  destruct (nextIdx <? length stepOrder)%nat;
    [apply keeps_activateStep | apply keeps_skip].
Qed.

Lemma keeps_activate_triggered l : keeps P (activate_triggered env l).
Proof.
  induction l as [|x l IH]; simpl; [apply keeps_skip|].
  apply keeps_bind; [apply keeps_get|]. intros st.
  apply keeps_bind; [|intros _; exact IH].
  destruct (decide (x ∈ activatedSteps st));
    [apply keeps_skip | apply keeps_activateStep].
Qed.

Lemma keeps_start_response : keeps P (start_response env).
Proof.
  unfold start_response. apply keeps_bind; [apply keeps_get|]. intros st.
  destruct (responseStarted st); [apply keeps_skip|].
  apply keeps_bind; [repeat keeps_step|]. intros _.
  destruct (_ <? _)%nat; [|apply keeps_skip].
  apply keeps_bind; [apply keeps_completeStep|]. intros _.
  apply keeps_bind; [repeat keeps_step|]. intros _.
  apply keeps_activateStep.
Qed.

Lemma keeps_publish text : keeps P (publish env text).
Proof.
  unfold publish. apply keeps_bind; [apply keeps_activate_triggered|].
  intros _. repeat keeps_step.
Qed.

Lemma keeps_on_content content : keeps P (on_content env content).
Proof.
  unfold on_content. apply keeps_bind; [apply keeps_start_response|].
  intros _. destruct (ToString env content);
    [apply keeps_publish | apply keeps_skip].
Qed.

Lemma keeps_on_line line : keeps P (on_line env line).
Proof.
  unfold on_line.
  destruct (negb _); [apply keeps_ret|].
  destruct (js_eqb _ _); [repeat keeps_step|].
  destruct (JSON_parse _) as [data|]; [|apply keeps_ret].
  destruct data as [|b|n|s|items|ms]; try apply keeps_ret.
  all: destruct (is_str "heartbeat" _); [apply keeps_ret|].
  all: destruct (is_str "done" _); [repeat keeps_step|].
  all: destruct (prop "content" _) as [content|]; [|apply keeps_ret].
  all: destruct (ToBoolean env content); [|apply keeps_ret].
  all: apply keeps_bind; [apply keeps_on_content | intros _; apply keeps_ret].
Qed.

Lemma keeps_on_lines lines : keeps P (on_lines env lines).
Proof.
  induction lines as [|line lines IH]; simpl; [apply keeps_skip|].
  apply keeps_bind; [apply keeps_on_line|]. intros [|];
    [apply keeps_skip | exact IH].
Qed.

Lemma keeps_complete_remaining ids : keeps P (complete_remaining env ids).
Proof.
  induction ids as [|x ids IH]; simpl; [apply keeps_skip|].
  apply keeps_bind; [apply keeps_get|]. intros st.
  apply keeps_bind.
  - destruct (decide (x ∈ activatedSteps st));
      [apply keeps_skip | apply keeps_activateStep].
  - intros _. apply keeps_bind; [apply keeps_completeStep | intros _; exact IH].
Qed.

Lemma keeps_saveMessage content : keeps P (saveMessage env content).
Proof. unfold saveMessage. repeat keeps_step. Qed.

Lemma keeps_after_loop : keeps P (after_loop env).
Proof.
  unfold after_loop.
  apply keeps_bind; [repeat keeps_step|]. intros _.
  apply keeps_bind; [apply keeps_complete_remaining|]. intros _.
  apply keeps_bind; [repeat keeps_step|]. intros _.
  apply keeps_bind; [apply keeps_get|]. intros st.
  apply keeps_bind.
  { destruct (js_eqb _ _); [|apply keeps_skip].
    unfold fallback. destruct (fallbackBody env); repeat keeps_step. }
  intros _. apply keeps_bind; [|intros _; repeat keeps_step].
  unfold persist. apply keeps_bind; [apply keeps_get|]. intros st'.
  destruct (negb _); [|apply keeps_skip].
  apply keeps_bind; [apply keeps_saveMessage|]. intros [d|]; [|apply keeps_skip].
  destruct (d =? "")%string; repeat keeps_step.
Qed.

Lemma keeps_on_error : keeps P (on_error env).
Proof.
  unfold on_error.
  apply keeps_bind; [repeat keeps_step|]. intros _.
  apply keeps_bind; [repeat keeps_step|]. intros _.
  apply keeps_bind; [apply keeps_saveMessage|]. intros _. repeat keeps_step.
Qed.

Lemma keeps_on_event e : keeps P (on_event env e).
Proof.
  unfold on_event. apply keeps_bind; [apply keeps_get|]. intros st.
  destruct (phase st), e as [[|]| |[chunk| |]]; try apply keeps_skip;
    try apply keeps_on_error; try apply keeps_on_tick;
    try (solve [repeat keeps_step]); unfold on_read.
  - apply keeps_bind; [apply keeps_on_lines|]. intros _.
    apply keeps_bind; [apply keeps_get|]. intros st'.
    destruct (loop_done st'); [apply keeps_after_loop | apply keeps_skip].
  - apply keeps_bind; [repeat keeps_step|]. intros _.
    apply keeps_after_loop.
Qed.

Lemma keeps_run events : forall st,
  P (messages st) -> P (messages (run env events st)).
Proof.
  induction events as [|e events IH]; intros st H; simpl; [exact H|].
  apply IH. exact (keeps_on_event e st H).
Qed.

End Keeps.

Lemma activate_update_absent id stepId t prev :
  Forall (fun m => forall steps, m_processSteps m = Some steps ->
                   Forall (fun s => s_id s <> stepId) steps) prev ->
  activate_update id stepId t prev = prev.
Proof.
  intros Hall. unfold activate_update.
  induction Hall as [|m ms Hm _ IH]; simpl; [reflexivity|]. rewrite IH. f_equal.
  destruct (m_id m =? id)%string; simpl; [|reflexivity].
  destruct (m_processSteps m) as [steps|] eqn:E; [|reflexivity].
  fold (activate_steps stepId t steps).
  rewrite activate_steps_absent by auto.
  destruct m; simpl in *; subst; reflexivity.
Qed.

Lemma kept_stable id prev : stable id (kept id prev).
Proof.
  intros u ms Hu [Hlen Hk].
  destruct (stream_update_map_turn id u Hu) as (f & _ & ->). split.
  - now rewrite map_turn_length.
  - intros i m Hi Hne. apply map_turn_other; auto.
Qed.

Lemma processMessage_kept env prev events :
  kept (aiTempId env) prev (messages (processMessage env prev events)).
Proof.
  unfold processMessage. apply keeps_run; [apply kept_stable|].
  rewrite begin_eq. cbv zeta. simpl. apply kept_stable; [constructor|]. split.
  - rewrite length_app. simpl. lia.
  - intros i m Hi _. now apply lookup_app_l_Some.
Qed.

(** ** Which steps get activated while the stream is read *)

Lemma activated_by_mono A A' fs fs' x :
  activated_by A fs x -> (forall y, y ∈ A -> activated_by A' fs' y) ->
  (forall f, In f fs -> In f fs') -> activated_by A' fs' x.
Proof.
  intros [H | [H | (f & Hf & Hx)]] HA Hfs.
  - now apply HA.
  - right. left. exact H.
  - right. right. exists f. auto.
Qed.

Lemma activate_triggered_activated env l : forall st x,
  x ∈ activatedSteps (exec (activate_triggered env l) st) ->
  x ∈ activatedSteps st \/ In x l.
Proof.
  induction l as [|y l IH]; intros st x; simpl.
  - rewrite exec_skip. auto.
  - rewrite exec_get, exec_seq. intros Hx. apply IH in Hx as [Hx | Hx]; [|auto].
    destruct (decide (y ∈ activatedSteps st)).
    + rewrite exec_skip in Hx. auto.
    + destruct (activateStep_frame env y st) as (_ & _ & _ & _ & _ & _ & _ & _ & HA).
      rewrite HA in Hx. apply elem_of_union in Hx as [Hx | Hx]; [|auto].
      apply elem_of_singleton in Hx. auto.
Qed.

Lemma start_response_activated env st x :
  x ∈ activatedSteps (exec (start_response env) st) ->
  x ∈ activatedSteps st \/ x = "writing"%string.
Proof.
  unfold start_response. rewrite exec_get.
  destruct (responseStarted st); [rewrite exec_skip; auto|]. mstep.
  destruct (_ <? _)%nat; [|rewrite exec_skip; auto]. mstep.
  destruct (activateStep_frame env "writing"
              (set_currentStepIndex (length stepOrder - 1)
                 (exec (completeStep env (stepOrder_at (currentStepIndex st)))
                    (set_responseStarted true st))))
    as (_ & _ & _ & _ & _ & _ & _ & _ & HA).
  rewrite HA. simpl.
  destruct (completeStep_frame env (stepOrder_at (currentStepIndex st))
              (set_responseStarted true st))
    as (_ & _ & _ & _ & _ & _ & _ & _ & HA').
  rewrite HA'. simpl. intros Hx.
  apply elem_of_union in Hx as [Hx | Hx]; [|auto].
  apply elem_of_singleton in Hx. auto.
Qed.

Lemma on_line_activated env line st x :
  x ∈ activatedSteps (on_line env line st).2 ->
  activated_by (activatedSteps st) [classify env line] x.
Proof.
  unfold on_line, classify, payload, activated_by.
  destruct (negb _); [auto|].
  destruct (js_eqb _ _); [auto|].
  destruct (JSON_parse _) as [data|]; [|auto].
  destruct data as [|b|n|s|items|ms]; auto.
  all: destruct (is_str "heartbeat" _); [auto|].
  all: destruct (is_str "done" _); [auto|].
  all: destruct (prop "content" _) as [content|]; [|auto].
  all: destruct (ToBoolean env content); [|auto].
  all: munfold; destruct (on_content env content st) as [u st'] eqn:E; simpl.
  all: assert (st' = exec (on_content env content) st) as ->
         by (unfold exec; now rewrite E).
  all: unfold on_content; rewrite exec_seq.
  all: destruct (ToString env content) as [text|].
  all: try (rewrite exec_skip; intros Hx;
            apply start_response_activated in Hx as [Hx | Hx]; auto).
  all: unfold publish; mstep; simpl; intros Hx.
  all: apply activate_triggered_activated in Hx as [Hx | Hx];
       [apply start_response_activated in Hx as [Hx | Hx]; auto|].
  all: right; right; eexists; split; [left; reflexivity | exact Hx].
Qed.

Lemma on_lines_activated env lines : forall st x,
  x ∈ activatedSteps (exec (on_lines env lines) st) ->
  activated_by (activatedSteps st) (map (classify env) lines) x.
Proof.
  induction lines as [|line lines IH]; intros st x; simpl.
  - rewrite exec_skip. left. assumption.
  - rewrite exec_bind. pose proof (on_line_activated env line st) as H1.
    destruct (on_line env line st) as [[|] st1]; simpl in *.
    + rewrite exec_skip. intros Hx. eapply activated_by_mono; [apply H1, Hx| |].
      * intros y Hy. left. exact Hy.
      * intros f [<- | []]. left. reflexivity.
    + intros Hx. eapply activated_by_mono; [apply IH, Hx| |].
      * intros y Hy. eapply activated_by_mono; [apply H1, Hy| |].
        -- intros z Hz. left. exact Hz.
        -- intros f [<- | []]. left. reflexivity.
      * intros f Hf. right. exact Hf.
Qed.

Lemma step_activated env prev st e x :
  Live env prev st ->
  let st' := step env st e in
  phase st' = Fetching \/ phase st' = Streaming ->
  x ∈ activatedSteps st' ->
  activated_by (activatedSteps st) (frames_of env [e]) x.
Proof.
  intros HL. cbv zeta. unfold step, on_event. rewrite exec_get.
  pose proof HL as [[Hph _ _ _ _] _ _].
  destruct Hph as [Hph | Hph]; rewrite Hph.
  - destruct e as [[|]| |r]; try (rewrite exec_skip; left; assumption).
    + mstep. left. assumption.
    + rewrite phase_on_error. intros [H|H]; discriminate H.
  - destruct e as [ok| |r].
    + rewrite exec_skip. left. assumption.
    + rewrite (on_tick_noop env prev) by assumption. left. assumption.
    + destruct r as [chunk| |]; unfold on_read.
      * rewrite exec_seq, exec_get.
        destruct (loop_done (exec (on_lines env (split_nn chunk)) st)).
        -- rewrite phase_after_loop. intros [H|H]; discriminate H.
        -- rewrite exec_skip. intros _ Hx. simpl. rewrite app_nil_r.
           now apply on_lines_activated.
      * rewrite exec_seq, phase_after_loop. intros [H|H]; discriminate H.
      * rewrite phase_on_error. intros [H|H]; discriminate H.
Qed.

Lemma run_activated env prev evs : forall st x,
  fresh env prev -> Live env prev st -> loop_done st = false ->
  let st' := run env evs st in
  phase st' = Fetching \/ phase st' = Streaming ->
  x ∈ activatedSteps st' ->
  activated_by (activatedSteps st) (frames_of env evs) x.
Proof.
  induction evs as [|e evs IH]; intros st x Hf HL Hnd; cbv zeta.
  - intros _ Hx. left. exact Hx.
  - simpl run. rewrite frames_of_cons. intros Hph Hx.
    destruct (step_Live env prev st e Hf HL Hnd)
      as [(HL1 & Hnd1 & _) | [(stX & _ & _ & _ & _ & _ & Hst) |
                              (stX & _ & Hst & _)]].
    + eapply activated_by_mono; [exact (IH _ _ Hf HL1 Hnd1 Hph Hx)| |].
      * intros y Hy. eapply activated_by_mono.
        -- apply (step_activated env prev st e y HL); [|exact Hy].
           destruct HL1 as [[H _ _ _ _] _ _]. exact H.
        -- intros z Hz. left. exact Hz.
        -- intros f Hin. apply in_or_app. left. exact Hin.
      * intros f Hin. apply in_or_app. right. exact Hin.
    + exfalso. rewrite Hst, run_settled, phase_after_loop in Hph
        by (left; apply phase_after_loop). destruct Hph; discriminate.
    + exfalso. rewrite Hst, run_settled, phase_on_error in Hph
        by (right; apply phase_on_error). destruct Hph; discriminate.
Qed.

Lemma quiet_stream_mids_inactive env prev events :
  fresh env prev -> no_mid_signal env events ->
  let st := processMessage env prev events in
  phase st = Fetching \/ phase st = Streaming -> mids_inactive st.
Proof.
  intros Hf Hq st Hph.
  destruct (begin_Live env prev Hf) as (HL & Hnd & _).
  assert (forall x, x ∈ activatedSteps st ->
            x <> "amendments"%string /\ x <> "landmark"%string /\
            x <> "recent"%string) as H.
  { intros x Hx.
    destruct (run_activated env prev events _ x Hf HL Hnd Hph Hx)
      as [Hb | [-> | (f & Hin & Hs)]].
    - rewrite begin_eq in Hb. simpl in Hb.
      assert (x = "sections"%string) as -> by set_solver.
      repeat split; discriminate.
    - repeat split; discriminate.
    - eapply Hq; eassumption. }
  unfold mids_inactive. repeat split; intros Hx; apply H in Hx;
    destruct Hx as (H1 & H2 & H3); congruence.
Qed.

(** ** The fuel of the JSON parser is never exhausted *)

Lemma skip_ws_length s : (length (skip_ws s) <= length s)%nat.
Proof.
  induction s as [|c s IH]; simpl; [lia|].
  destruct (is_json_ws c); simpl; lia.
Qed.

Lemma skip_ws_cons_length s c r :
  skip_ws s = c :: r -> (S (length r) <= length s)%nat.
Proof.
  intros H. pose proof (skip_ws_length s) as Hl. rewrite H in Hl. exact Hl.
Qed.

Lemma parse_chars_length_upto n : forall s t r,
  (length s <= n)%nat ->
  parse_chars s = Some (t, r) -> (length r < length s)%nat.
Proof.
  induction n as [|n IH]; intros s t r Hn.
  { destruct s; [discriminate | simpl in Hn; lia]. }
  destruct s as [|c s]; simpl; [discriminate|]. simpl in Hn.
  destruct (c =? 34); [intros [= <- <-]; lia|].
  destruct (c <? 32); [discriminate|].
  destruct (c =? 92).
  - destruct s as [|e r1]; [discriminate|].
    destruct (e =? 117).
    + destruct r1 as [|h1 [|h2 [|h3 [|h4 r2]]]]; try discriminate.
      destruct (hex_digit h1); [|discriminate]. simpl.
      destruct (hex_digit h2); [|discriminate]. simpl.
      destruct (hex_digit h3); [|discriminate]. simpl.
      destruct (hex_digit h4); [|discriminate]. simpl.
      destruct (parse_chars r2) as [[t' r']|] eqn:E; [|discriminate]. simpl.
      intros [= <- <-]. apply IH in E; simpl in *; lia.
    + destruct (simple_escape e); [|discriminate]. simpl.
      destruct (parse_chars r1) as [[t' r']|] eqn:E; [|discriminate]. simpl.
      intros [= <- <-]. apply IH in E; simpl in *; lia.
  - destruct (parse_chars s) as [[t' r']|] eqn:E; [|discriminate]. simpl.
    intros [= <- <-]. apply IH in E; simpl in *; lia.
Qed.

Lemma parse_chars_length s t r :
  parse_chars s = Some (t, r) -> (length r < length s)%nat.
Proof. apply (parse_chars_length_upto (length s)). lia. Qed.

Lemma take_digits_length s :
  (length (take_digits s).2 <= length s)%nat.
Proof.
  induction s as [|c s IH]; simpl; [lia|].
  destruct (is_digit c); [|simpl; lia].
  destruct (take_digits s) as [ds rest]. simpl in *. lia.
Qed.

Lemma parse_number_length s n r :
  parse_number s = Some (n, r) -> (length r <= length s)%nat.
Proof.
  unfold parse_number.
  assert (exists sign s1, (match s with
                           | c :: r => if c =? 45 then ([c], r) else ([], s)
                           | [] => ([], s)
                           end) = (sign, s1) /\ (length s1 <= length s)%nat)
    as (sign & s1 & -> & H1).
  { destruct s as [|c s']; [eexists _, _; split; [reflexivity | lia]|].
    destruct (c =? 45); eexists _, _; (split; [reflexivity | simpl; lia]). }
  destruct (parse_int s1) as [[i s2]|] eqn:Ei; [|discriminate]. simpl.
  destruct (parse_frac s2) as [[f s3]|] eqn:Ef; [|discriminate]. simpl.
  destruct (parse_exp s3) as [[e s4]|] eqn:Ee; [|discriminate]. simpl.
  intros [= <- <-].
  assert (length s2 <= length s1)%nat.
  { unfold parse_int in Ei. destruct s1 as [|c s1']; [discriminate|].
    destruct (c =? 48); [injection Ei as <- <-; simpl; lia|].
    destruct (is_digit c); [|discriminate].
    pose proof (take_digits_length s1') as Hl.
    destruct (take_digits s1') as [ds rest]. injection Ei as <- <-.
    simpl in *. lia. }
  assert (length s3 <= length s2)%nat.
  { unfold parse_frac in Ef. destruct s2 as [|c s2']; [injection Ef as <- <-; lia|].
    destruct (c =? 46); [|injection Ef as <- <-; lia].
    pose proof (take_digits_length s2') as Hl.
    destruct (take_digits s2') as [[|d ds] rest]; [discriminate|].
    injection Ef as <- <-. simpl in *. lia. }
  assert (length s4 <= length s3)%nat.
  { unfold parse_exp in Ee. destruct s3 as [|c s3']; [injection Ee as <- <-; lia|].
    destruct ((c =? 101) || (c =? 69)); [|injection Ee as <- <-; lia].
    assert (exists sg r1, (match s3' with
                           | d :: r' => if (d =? 43) || (d =? 45) then ([d], r') else ([], s3')
                           | [] => ([], s3')
                           end) = (sg, r1) /\ (length r1 <= length s3')%nat)
      as (sg & r1 & Hsg & Hr1).
    { destruct s3' as [|d r']; [eexists _, _; split; [reflexivity | lia]|].
      destruct ((d =? 43) || (d =? 45)); eexists _, _;
        (split; [reflexivity | simpl; lia]). }
    rewrite Hsg in Ee.
    pose proof (take_digits_length r1) as Hl.
    destruct (take_digits r1) as [[|d ds] rest]; [discriminate|].
    injection Ee as <- <-. simpl in *. lia. }
  lia.
Qed.

Lemma expect_length lit v s v' r :
  expect lit v s = Some (v', r) -> (length r <= length s)%nat.
Proof.
  unfold expect. destruct (startsWith (str lit) s); [|discriminate].
  intros [= <- <-]. rewrite length_drop. lia.
Qed.

Lemma parse_rest_length fuel :
  (forall s v r, parse_value fuel s = Some (v, r) ->
                 (length r <= length s)%nat) /\
  (forall s vs r, parse_elements fuel s = Some (vs, r) ->
                  (length r <= length s)%nat) /\
  (forall s ms r, parse_members fuel s = Some (ms, r) ->
                  (length r <= length s)%nat).
Proof.
  induction fuel as [|fuel (IHv & IHe & IHm)];
    [repeat split; intros; discriminate|].
  split; [|split].
  - intros s v r. simpl.
    destruct (skip_ws s) as [|c r0] eqn:Es; [discriminate|].
    apply skip_ws_cons_length in Es.
    destruct (c =? 123).
    { destruct (skip_ws r0) as [|d r'] eqn:Er; [discriminate|].
      apply skip_ws_cons_length in Er.
      destruct (d =? 125); [intros [= <- <-]; lia|].
      destruct (parse_members fuel (d :: r')) as [[ms rest]|] eqn:E;
        [|discriminate]. simpl.
      intros [= <- <-]. apply IHm in E. simpl in E. lia. }
    destruct (c =? 91).
    { destruct (skip_ws r0) as [|d r'] eqn:Er; [discriminate|].
      apply skip_ws_cons_length in Er.
      destruct (d =? 93); [intros [= <- <-]; lia|].
      destruct (parse_elements fuel (d :: r')) as [[vs rest]|] eqn:E;
        [|discriminate]. simpl.
      intros [= <- <-]. apply IHe in E. simpl in E. lia. }
    destruct (c =? 34).
    { destruct (parse_chars r0) as [[t rest]|] eqn:E; [|discriminate]. simpl.
      intros [= <- <-]. apply parse_chars_length in E. lia. }
    destruct (c =? 116).
    { intros E. apply expect_length in E. simpl in E. lia. }
    destruct (c =? 102).
    { intros E. apply expect_length in E. simpl in E. lia. }
    destruct (c =? 110).
    { intros E. apply expect_length in E. simpl in E. lia. }
    destruct (parse_number (c :: r0)) as [[n rest]|] eqn:E; [|discriminate].
    simpl. intros [= <- <-]. apply parse_number_length in E. simpl in E. lia.
  - intros s vs r. simpl.
    destruct (parse_value fuel s) as [[v r0]|] eqn:Ev; [|discriminate]. simpl.
    apply IHv in Ev.
    destruct (skip_ws r0) as [|c r'] eqn:Er; [discriminate|].
    apply skip_ws_cons_length in Er.
    destruct (c =? 44).
    { destruct (parse_elements fuel r') as [[vs' rest]|] eqn:E; [|discriminate].
      simpl. intros [= <- <-]. apply IHe in E. lia. }
    destruct (c =? 93); [|discriminate]. intros [= <- <-]. lia.
  - intros s ms r. simpl.
    destruct (skip_ws s) as [|q r0] eqn:Es; [discriminate|].
    apply skip_ws_cons_length in Es.
    destruct (q =? 34); [|discriminate].
    destruct (parse_chars r0) as [[k r1]|] eqn:Ek; [|discriminate]. simpl.
    apply parse_chars_length in Ek.
    destruct (skip_ws r1) as [|colon r2] eqn:E1; [discriminate|].
    apply skip_ws_cons_length in E1.
    destruct (colon =? 58); [|discriminate].
    destruct (parse_value fuel r2) as [[v r3]|] eqn:Ev; [|discriminate]. simpl.
    apply IHv in Ev.
    destruct (skip_ws r3) as [|c r'] eqn:E3; [discriminate|].
    apply skip_ws_cons_length in E3.
    destruct (c =? 44).
    { destruct (parse_members fuel r') as [[ms' rest]|] eqn:E; [|discriminate].
      simpl. intros [= <- <-]. apply IHm in E. lia. }
    destruct (c =? 125); [|discriminate]. intros [= <- <-]. lia.
Qed.

(** Past twice the length of the text, more fuel changes nothing. *)
Lemma parse_fuel_stable fuel :
  (forall s fuel', (2 * length s < fuel)%nat -> (fuel <= fuel')%nat ->
                   parse_value fuel' s = parse_value fuel s) /\
  (forall s fuel', (2 * length s + 1 < fuel)%nat -> (fuel <= fuel')%nat ->
                   parse_elements fuel' s = parse_elements fuel s) /\
  (forall s fuel', (2 * length s + 1 < fuel)%nat -> (fuel <= fuel')%nat ->
                   parse_members fuel' s = parse_members fuel s).
Proof.
  induction fuel as [|fuel (IHv & IHe & IHm)];
    [repeat split; intros; lia|].
  pose proof (parse_rest_length fuel) as (Lv & Le & Lm).
  split; [|split].
  - intros s [|fuel'] Hs Hf; [lia|]. simpl.
    destruct (skip_ws s) as [|c r0] eqn:Es; [reflexivity|].
    apply skip_ws_cons_length in Es.
    destruct (c =? 123).
    { destruct (skip_ws r0) as [|d r'] eqn:Er; [reflexivity|].
      apply skip_ws_cons_length in Er.
      destruct (d =? 125); [reflexivity|].
      rewrite (IHm (d :: r') fuel') by (simpl; lia). reflexivity. }
    destruct (c =? 91).
    { destruct (skip_ws r0) as [|d r'] eqn:Er; [reflexivity|].
      apply skip_ws_cons_length in Er.
      destruct (d =? 93); [reflexivity|].
      rewrite (IHe (d :: r') fuel') by (simpl; lia). reflexivity. }
    reflexivity.
  - intros s [|fuel'] Hs Hf; [lia|]. simpl.
    rewrite (IHv s fuel') by lia.
    destruct (parse_value fuel s) as [[v r0]|] eqn:Ev; [|reflexivity]. simpl.
    apply Lv in Ev.
    destruct (skip_ws r0) as [|c r'] eqn:Er; [reflexivity|].
    apply skip_ws_cons_length in Er.
    destruct (c =? 44); [|reflexivity].
    rewrite (IHe r' fuel') by lia. reflexivity.
  - intros s [|fuel'] Hs Hf; [lia|]. simpl.
    destruct (skip_ws s) as [|q r0] eqn:Es; [reflexivity|].
    apply skip_ws_cons_length in Es.
    destruct (q =? 34); [|reflexivity].
    destruct (parse_chars r0) as [[k r1]|] eqn:Ek; [|reflexivity]. simpl.
    apply parse_chars_length in Ek.
    destruct (skip_ws r1) as [|colon r2] eqn:E1; [reflexivity|].
    apply skip_ws_cons_length in E1.
    destruct (colon =? 58); [|reflexivity].
    rewrite (IHv r2 fuel') by lia.
    destruct (parse_value fuel r2) as [[v r3]|] eqn:Ev; [|reflexivity]. simpl.
    apply Lv in Ev.
    destruct (skip_ws r3) as [|c r'] eqn:E3; [reflexivity|].
    apply skip_ws_cons_length in E3.
    destruct (c =? 44); [|reflexivity].
    rewrite (IHm r' fuel') by lia. reflexivity.
Qed.

(** [JSON_parse] gives the parser all the fuel it can use. *)
Lemma JSON_parse_fuel text fuel :
  (2 * length text + 2 <= fuel)%nat ->
  parse_value fuel text = parse_value (2 * length text + 2) text.
Proof.
  intros H. apply (parse_fuel_stable (2 * length text + 2)); lia.
Qed.


(** ** Reads that hold whole records *)










(** How a turn stands once the response has come and some reads were made. *)
Lemma after_response env prev evs :
  fresh env prev ->
  let st := processMessage env prev (Response true :: evs) in
  let fs := frames_of env evs in
  (Live env prev st /\ phase st = Streaming /\
   fullContent st = assembled fs /\ ends fs = false) \/
  (exists stX, Live env prev stX /\ fullContent stX = assembled fs /\
     ends fs = true /\ st = exec (after_loop env) stX) \/
  (exists stX, Live env prev stX /\ st = exec (on_error env) stX /\
     In (Read RThrow) evs).
Proof.
  intros Hf. cbv zeta.
  destruct (streaming_after_response env prev Hf) as (HL0 & Hnd0 & Hph0 & Hfc0).
  rewrite (processMessage_cons env prev (Response true) evs).
  destruct (run_Streaming env prev evs _ Hf HL0 Hnd0 Hph0)
    as [(HL & _ & Hph & Hfc & He) |
        [(stX & HLX & _ & HfcX & He & Hst) | (stX & HLX & Hst & Hin)]].
  - left. rewrite Hfc0 in Hfc. auto.
  - right. left. exists stX. rewrite Hfc0 in HfcX. auto.
  - right. right. exists stX. auto.
Qed.




(** ** Two observations on concrete streams *)

(** Each chunk is split on its own: a record cut by the boundary between two
    reads is seen as two pieces, neither of which is a content record, and
    its fragment is lost. *)
Lemma record_cut_between_reads_is_lost :
  let events :=
    [Read (RChunk (js "data: {\x22content\x22:\x22Hel"));
     Read (RChunk (js "lo\x22}\n\n")); Read REnd] in
  let st := processMessage demo_env [] (Response true :: events) in
  frames_of demo_env events = [FMalformed; FNoMarker; FNoMarker; FDone] /\
  phase st = Completed /\
  saveRequests st = [str "Response received but could not be parsed."].
Proof.
  cbv zeta. split; [vm_compute; reflexivity|].
  split; vm_compute; reflexivity.
Qed.

(** The end-of-stream pass activates each remaining step while writing is
    still running: one of the values the message list takes during the pass
    has two running steps, though no record carried a signal. *)
Lemma end_pass_runs_two_steps :
  let st := processMessage demo_env []
              [Response true;
               Read (RChunk (js "data: {\x22content\x22:\x22Hi\x22}\n\n")); Read REnd] in
  exists ms, In ms (snapshots st) /\
    statuses (turn_steps (aiTempId demo_env) ms) =
      [("sections", done); ("amendments", running); ("landmark", pending);
       ("recent", pending); ("writing", running)]%string.
Proof.
  cbv zeta. eexists. split.
  - vm_compute. do 8 right. left. reflexivity.
  - vm_compute. reflexivity.
Qed.

(** * Properties of the stream reader and the step tracker *)

(** C1, amended: when the first content fragment of a turn arrives, whatever
    its length, the tracker completes the current step (sections), moves its
    index to the last step and activates writing.  The steps in between are
    not marked done: amendments, landmark and recent each stay pending, or
    become running when the fragment carries their signal. *)
Theorem first_fragment_moves_to_writing (env : Env) (prev : list Message)
    (events : list event) (line text : jsstring) :
  fresh env prev ->
  let st := processMessage env prev events in
  phase st = Streaming -> responseStarted st = false ->
  classify env line = FContent text ->
  let st' := (on_line env line st).2 in
  (fullContent st = [] /\ currentStepIndex st = 0%nat) /\
  currentStepIndex st' = 4%nat /\ stepOrder_at 4 = "writing"%string /\
  exists m steps, is_turn env prev (messages st') m steps /\
    m_content m = text /\
    statuses steps =
      [("sections", done); ("amendments", signalled text "amendments");
       ("landmark", signalled text "landmark");
       ("recent", signalled text "recent"); ("writing", running)]%string.
Proof.
  intros Hf st Hph Hrs Hcl st'.
  pose proof (reading_Live env prev events Hf (or_intror Hph)) as HL.
  destruct (first_fragment env prev st line text Hf HL Hrs Hcl)
    as (_ & Hidx & _ & Hex).
  destruct HL as [_ _ Hun]. destruct (Hun Hrs) as (Hfc & Hi & _).
  auto.
Qed.

Lemma first_fragment_witness :
  let st := processMessage demo_env [] [Response true; Tick] in
  let line := js "data: {\x22content\x22:\x22Searched cases on the point.\x22}" in
  let text := str "Searched cases on the point." in
  let st' := (on_line demo_env line st).2 in
  (fullContent st = [] /\ currentStepIndex st = 0%nat) /\
  currentStepIndex st' = 4%nat /\ stepOrder_at 4 = "writing"%string /\
  exists m steps, is_turn demo_env [] (messages st') m steps /\
    m_content m = text /\
    statuses steps =
      [("sections", done); ("amendments", signalled text "amendments");
       ("landmark", signalled text "landmark");
       ("recent", signalled text "recent"); ("writing", running)]%string.
Proof.
  apply (first_fragment_moves_to_writing demo_env [] [Response true; Tick]).
  - constructor.
  - vm_compute. reflexivity.
  - vm_compute. reflexivity.
  - vm_compute. reflexivity.
Defined.

(** C1 as stated fails: after the first fragment amendments, landmark and
    recent are still pending, not done. *)
Lemma first_fragment_leaves_steps_pending :
  let st := processMessage demo_env []
              [Response true;
               Read (RChunk (js "data: {\x22content\x22:\x22Hi\x22}\n\n"))] in
  let steps := turn_steps (aiTempId demo_env) (messages st) in
  responseStarted st = true /\ currentStepIndex st = 4%nat /\
  statuses steps =
    [("sections", done); ("amendments", pending); ("landmark", pending);
     ("recent", pending); ("writing", running)]%string /\
  ~ Forall (fun s => s_id s <> "writing"%string -> s_status s = done) steps.
Proof.
  cbv zeta.
  assert (statuses (turn_steps (aiTempId demo_env)
            (messages (processMessage demo_env []
               [Response true;
                Read (RChunk (js "data: {\x22content\x22:\x22Hi\x22}\n\n"))]))) =
          [("sections", done); ("amendments", pending); ("landmark", pending);
           ("recent", pending); ("writing", running)]%string) as Hst
    by (vm_compute; reflexivity).
  split; [vm_compute; reflexivity|]. split; [vm_compute; reflexivity|].
  split; [exact Hst|]. intros Hall.
  assert (Forall (fun p => p.1 <> "writing"%string -> p.2 = done)
            (statuses (turn_steps (aiTempId demo_env)
               (messages (processMessage demo_env []
                  [Response true;
                   Read (RChunk (js "data: {\x22content\x22:\x22Hi\x22}\n\n"))])))))
    as Hall'.
  { unfold statuses. rewrite Forall_map. exact Hall. }
  rewrite Hst in Hall'. inversion Hall' as [|? ? _ Hrest]; subst.
  inversion Hrest as [|? ? H _]; subst. simpl in H.
  assert (pending = done) as Habs by (apply H; discriminate). discriminate Habs.
Qed.







(** C4, amended: on the index-driven paths (the kick-off, the jump on the
    first fragment, the interval) the tracker completes the running step
    before it activates the next one.  So for a stream in which no record
    carries a signal for amendments, landmark or recent, at most one step of
    the turn is running after every single update of the message list while
    the turn awaits the response or reads the stream; and once the turn has
    ended, normally or by a failure, no step is running. *)
Theorem at_most_one_running_without_signals (env : Env)
    (prev : list Message) (events : list event) :
  fresh env prev -> no_mid_signal env events ->
  let st := processMessage env prev events in
  (phase st = Fetching \/ phase st = Streaming ->
   (forall ms m steps, In ms (snapshots st) -> is_turn env prev ms m steps ->
                       (count_running steps <= 1)%nat) /\
   (forall m steps, is_turn env prev (messages st) m steps ->
                    (count_running steps <= 1)%nat)) /\
  (phase st = Completed \/ phase st = Failed ->
   forall m steps, is_turn env prev (messages st) m steps ->
                   count_running steps = 0%nat).
Proof.
  intros Hf Hquiet st. split.
  - intros Hph.
    pose proof (quiet_stream_mids_inactive env prev events Hf Hquiet Hph) as Hq.
    pose proof (reading_Live env prev events Hf Hph)
      as [[_ (m' & steps' & Ht' & _ & _ & _ & Hr) Hsn _ _] _ _].
    split.
    + intros ms m steps Hin Ht.
      rewrite Forall_forall in Hsn. apply list_elem_of_In in Hin.
      destruct (Hsn ms Hin) as [-> | (m2 & steps2 & Ht2 & _ & Hc)].
      * destruct Ht as (Heq & _). exfalso.
        apply (f_equal (@length Message)) in Heq. rewrite length_app in Heq.
        simpl in Heq. lia.
      * destruct (is_turn_inj _ _ _ _ _ _ _ Ht2 Ht) as [_ <-]. auto.
    + intros m steps Ht.
      destruct (is_turn_inj _ _ _ _ _ _ _ Ht' Ht) as [_ <-].
      eapply count_running_le1; [eapply is_turn_NoDup; exact Ht' | auto].
  - intros Hph m steps Ht.
    destruct (processMessage_Progress env prev events Hf)
      as [HL _ | stX HLX _ Hst | stX HLX Hst]; subst st.
    + exfalso. destruct HL as [[[H|H] _ _ _ _] _ _]; rewrite H in Hph;
        destruct Hph; discriminate.
    + pose proof (after_loop_Ended env prev stX Hf HLX)
        as (_ & _ & (m' & steps' & Ht' & _ & Hdone & _) & _).
      rewrite <- Hst in Ht'.
      destruct (is_turn_inj _ _ _ _ _ _ _ Ht' Ht) as [_ <-].
      apply count_running_none.
      eapply Forall_impl; [exact Hdone|]. intros s H. rewrite H. discriminate.
    + pose proof HLX as [[_ (m0 & steps0 & Ht0 & _) _ _ _] _ _].
      pose proof (on_error_Aborted env prev stX m0 steps0 Hf HLX Ht0)
        as (_ & _ & m' & steps' & Ht' & _ & _ & HF).
      rewrite <- Hst in Ht'.
      destruct (is_turn_inj _ _ _ _ _ _ _ Ht' Ht) as [_ <-].
      apply count_running_none.
      clear -HF. induction HF as [|s s' l l' (_ & Hr & Hn) _ IH]; constructor; [|exact IH].
      destruct (s_status s) eqn:E;
        try (rewrite Hn by discriminate; discriminate).
      rewrite Hr by reflexivity. discriminate.
Qed.

Lemma at_most_one_running_witness :
  let events :=
    [Response true;
     Read (RChunk (js "data: {\x22content\x22:\x22Hello\x22}\n\n")); Tick;
     Read (RChunk (js "data: {\x22content\x22:\x22 world\x22}\n\n"))] in
  let st := processMessage demo_env [] events in
  (phase st = Fetching \/ phase st = Streaming ->
   (forall ms m steps, In ms (snapshots st) -> is_turn demo_env [] ms m steps ->
                       (count_running steps <= 1)%nat) /\
   (forall m steps, is_turn demo_env [] (messages st) m steps ->
                    (count_running steps <= 1)%nat)) /\
  (phase st = Completed \/ phase st = Failed ->
   forall m steps, is_turn demo_env [] (messages st) m steps ->
                   count_running steps = 0%nat).
Proof.
  apply (at_most_one_running_without_signals demo_env []).
  - constructor.
  - intros f x Hf. vm_compute in Hf.
    repeat (destruct Hf as [<- | Hf]; [intros []|]). destruct Hf.
Defined.

(** C4 as stated fails on the signal-driven path: the first fragment moves
    the tracker to writing, and its signal [PHASE 2] activates amendments
    without completing writing, so two steps are running. *)
Lemma signal_activation_runs_two_steps :
  let st := processMessage demo_env []
              [Response true;
               Read (RChunk (js "data: {\x22content\x22:\x22PHASE 2\x22}\n\n"))] in
  let steps := turn_steps (aiTempId demo_env) (messages st) in
  phase st = Streaming /\
  statuses steps =
    [("sections", done); ("amendments", running); ("landmark", pending);
     ("recent", pending); ("writing", running)]%string /\
  count_running steps = 2%nat /\ ~ (count_running steps <= 1)%nat.
Proof.
  cbv zeta.
  assert (count_running (turn_steps (aiTempId demo_env)
            (messages (processMessage demo_env []
               [Response true;
                Read (RChunk (js "data: {\x22content\x22:\x22PHASE 2\x22}\n\n"))]))) = 2%nat)
    as Hc by (vm_compute; reflexivity).
  split; [vm_compute; reflexivity|]. split; [vm_compute; reflexivity|].
  split; [exact Hc|]. rewrite Hc. lia.
Qed.

(** C5, amended: for a stream that emits content fragments totalling 199
    characters and then one more character crossing 200, the time-boxed
    heuristic advances nothing at the 200-character threshold, and nothing
    before it: the first content fragment has already moved the tracker to
    its last step, where it is as soon as any content has accumulated, and
    the interval callback acts before the last step only.  In every state a
    turn can reach, a run of the callback changes nothing. *)
Theorem interval_never_advances :
  (forall env prev events, fresh env prev ->
     step env (processMessage env prev events) Tick =
     processMessage env prev events) /\
  (forall env prev events, fresh env prev ->
     let st := processMessage env prev events in
     phase st = Fetching \/ phase st = Streaming ->
     fullContent st <> [] ->
     currentStepIndex st = (length stepOrder - 1)%nat) /\
  (let at_ n := processMessage demo_env [] (Response true :: drip n) in
   let shown st := statuses (turn_steps (aiTempId demo_env) (messages st)) in
   length (fullContent (at_ 1%nat)) = 1%nat /\ currentStepIndex (at_ 1%nat) = 4%nat /\
   length (fullContent (at_ 199%nat)) = 199%nat /\
   currentStepIndex (at_ 199%nat) = 4%nat /\
   length (fullContent (at_ 200%nat)) = 200%nat /\
   currentStepIndex (at_ 200%nat) = 4%nat /\
   shown (at_ 199%nat) = shown (at_ 200%nat) /\
   shown (at_ 200%nat) =
     [("sections", done); ("amendments", pending); ("landmark", pending);
      ("recent", pending); ("writing", running)]%string).
Proof.
  split; [|split].
  - intros env prev events Hf.
    destruct (processMessage_Progress env prev events Hf)
      as [HL _ | stX _ _ Hst | stX _ Hst].
    + unfold step, on_event. rewrite exec_get.
      pose proof HL as [[[Hph|Hph] _ _ _ _] _ _]; rewrite Hph.
      * reflexivity.
      * now apply (on_tick_noop env prev).
    + apply step_settled. left. rewrite Hst. apply phase_after_loop.
    + apply step_settled. right. rewrite Hst. apply phase_on_error.
  - intros env prev events Hf st Hph Hne.
    destruct (reading_Live env prev events Hf Hph) as [_ Hstarted Hunstarted].
    fold st in Hstarted, Hunstarted.
    destruct (responseStarted st) eqn:E.
    + now destruct (Hstarted eq_refl) as [-> _].
    + exfalso. now destruct (Hunstarted eq_refl) as [Hfc _].
  - cbv zeta. do 7 (split; [vm_compute; reflexivity|]). vm_compute. reflexivity.
Qed.

Lemma interval_witness :
  step demo_env (processMessage demo_env [] (Response true :: drip 3)) Tick =
  processMessage demo_env [] (Response true :: drip 3).
Proof.
  destruct interval_never_advances as [H _]. apply H. constructor.
Defined.

(** C5 as stated fails: with single-character fragments, a run of the
    interval callback after each, the tracker is at its last step with 199
    characters and with 200, and shows the same statuses: crossing the
    threshold advances it by no step.  It had moved to the last step on the
    first character, well before the threshold. *)
Lemma crossing_200_advances_nothing :
  let at_ n := processMessage demo_env [] (Response true :: drip n) in
  let shown st := statuses (turn_steps (aiTempId demo_env) (messages st)) in
  currentStepIndex (at_ 0%nat) = 0%nat /\
  length (fullContent (at_ 1%nat)) = 1%nat /\
  currentStepIndex (at_ 1%nat) = 4%nat /\
  length (fullContent (at_ 199%nat)) = 199%nat /\
  length (fullContent (at_ 200%nat)) = 200%nat /\
  shown (at_ 199%nat) = shown (at_ 200%nat) /\
  currentStepIndex (at_ 200%nat) = currentStepIndex (at_ 199%nat) /\
  currentStepIndex (at_ 200%nat) <> S (currentStepIndex (at_ 199%nat)).
Proof.
  cbv zeta.
  assert (currentStepIndex
            (processMessage demo_env [] (Response true :: drip 199)) = 4%nat)
    as H199 by (vm_compute; reflexivity).
  assert (currentStepIndex
            (processMessage demo_env [] (Response true :: drip 200)) = 4%nat)
    as H200 by (vm_compute; reflexivity).
  do 6 (split; [vm_compute; reflexivity|]).
  rewrite H199, H200. split; [reflexivity | discriminate].
Qed.

(** C6, amended: [getInitialSteps] creates no step for the hints [greeting]
    and [simple_non_law], and for any other hint, or none, exactly the five
    steps sections, amendments, landmark, recent, writing, all pending.
    [processMessage] passes no hint, so the placeholder of every assistant
    turn carries the five steps, whatever the question, and [processSteps] is
    present. *)
Theorem initial_steps_by_intent_hint :
  (getInitialSteps (Some "greeting"%string) = [] /\
   getInitialSteps (Some "simple_non_law"%string) = []) /\
  (forall hint,
     hint <> Some "greeting"%string -> hint <> Some "simple_non_law"%string ->
     statuses (getInitialSteps hint) =
       [("sections", pending); ("amendments", pending); ("landmark", pending);
        ("recent", pending); ("writing", pending)]%string) /\
  (forall env timestamp,
     m_processSteps (aiPlaceholder env timestamp) = Some (getInitialSteps None) /\
     m_sender (aiPlaceholder env timestamp) = ai /\
     m_isStreaming (aiPlaceholder env timestamp) = Some true).
Proof.
  split; [split; reflexivity|]. split.
  - intros [h|] Hg Hs; [|reflexivity]. unfold getInitialSteps.
    destruct (h =? "")%string eqn:E0; [reflexivity|]. simpl.
    destruct (h =? "greeting")%string eqn:E1.
    { apply String.eqb_eq in E1. congruence. }
    destruct (h =? "simple_non_law")%string eqn:E2.
    { apply String.eqb_eq in E2. congruence. }
    reflexivity.
  - intros env timestamp. repeat split.
Qed.

Lemma initial_steps_witness :
  statuses (getInitialSteps (Some "legal"%string)) =
    [("sections", pending); ("amendments", pending); ("landmark", pending);
     ("recent", pending); ("writing", pending)]%string.
Proof.
  destruct initial_steps_by_intent_hint as (_ & H & _).
  apply H; discriminate.
Defined.

(** C6 as stated fails: the turn that answers the greeting [hello] carries
    the five process steps. *)
Lemma greeting_turn_carries_steps :
  let st := begin demo_env [] in
  messageContent demo_env = str "hello" /\
  exists m steps,
    messages st = [m] /\ m_sender m = ai /\ m_processSteps m = Some steps /\
    statuses steps =
      [("sections", running); ("amendments", pending); ("landmark", pending);
       ("recent", pending); ("writing", pending)]%string /\
    m_processSteps m <> None /\ length steps = 5%nat.
Proof.
  cbv zeta. split; [reflexivity|]. eexists _, _.
  split; [vm_compute; reflexivity|]. split; [reflexivity|].
  split; [reflexivity|]. split; [reflexivity|]. split; [discriminate | reflexivity].
Qed.

(** C7: for every chunk, [detectStepsFromChunk] returns ids of the fixed
    phase-id set only; it returns the id of a signal exactly when the pattern
    of that signal matches somewhere in the chunk; and it returns the empty
    list when no pattern matches.  It is a function of the chunk alone: the
    patterns carry no [g] or [y] flag, so [test] keeps no state. *)
Theorem detectStepsFromChunk_spec (C : jsstring) :
  (forall i, In i (detectStepsFromChunk C) -> In i PHASE_IDS) /\
  (forall sig, In sig STEP_SIGNALS ->
     (In (stepId sig) (detectStepsFromChunk C) <->
      matches_somewhere (pattern sig) C)) /\
  ((forall sig, In sig STEP_SIGNALS -> ~ matches_somewhere (pattern sig) C) ->
   detectStepsFromChunk C = []).
Proof.
  unfold detectStepsFromChunk. split; [|split].
  - intros i. apply detect_phase_ids_In.
  - intros sig Hsig. rewrite detect_in_spec, <- RegExp_test_spec. split.
    + intros (sig' & Hin & Hid & Ht).
      assert (sig' = sig) as ->; [|assumption].
      simpl in Hsig, Hin.
      repeat (destruct Hsig as [<- | Hsig]; [
        repeat (destruct Hin as [<- | Hin]; [first [reflexivity | discriminate Hid]|]);
        destruct Hin|]).
      destruct Hsig.
    + intros Ht. eauto.
  - intros Hno. destruct (detect_in STEP_SIGNALS C) as [|i l] eqn:E; [reflexivity|].
    assert (In i (detect_in STEP_SIGNALS C)) as Hi by (rewrite E; left; reflexivity).
    apply detect_in_spec in Hi as (sig & Hin & _ & Ht).
    apply RegExp_test_spec in Ht. exfalso. eapply Hno; eassumption.
Qed.

Lemma detectStepsFromChunk_witness :
  detectStepsFromChunk (str "hello") = [] /\
  (In "landmark"%string (detectStepsFromChunk (str "We SEARCHED CASES")) <->
   matches_somewhere
     [ [Lit "PHASE 3"]; [Lit "landmark case"];
       [Lit "searching"; AnyStar; Lit "case"];
       [Lit "case"; AnyStar; Lit "search"]; [Lit "searched cases"] ]
     (str "We SEARCHED CASES")).
Proof.
  split.
  - destruct (detectStepsFromChunk_spec (str "hello")) as (_ & _ & H).
    apply H. exact no_signal_in_hello.
  - destruct (detectStepsFromChunk_spec (str "We SEARCHED CASES")) as (_ & H & _).
    apply (H {| pattern := [ [Lit "PHASE 3"]; [Lit "landmark case"];
                             [Lit "searching"; AnyStar; Lit "case"];
                             [Lit "case"; AnyStar; Lit "search"];
                             [Lit "searched cases"] ];
                stepId := "landmark";
                sig_label := "Searching landmark cases";
                sig_icon := cases |}).
    simpl. auto.
Defined.

(** C8: when the transport throws mid-read, the turn shows the fixed apology
    and stops streaming, every step that was running becomes error, every
    other step keeps its status (a step not yet started stays pending), and
    the apology is what is handed to [saveMessage]. *)
Theorem transport_failure_marks_running_steps (env : Env)
    (prev : list Message) (events : list event) :
  fresh env prev ->
  let st := processMessage env prev events in
  phase st = Streaming ->
  let st' := step env st (Read RThrow) in
  exists m steps m' steps',
    is_turn env prev (messages st) m steps /\
    is_turn env prev (messages st') m' steps' /\
    m_content m' = errContent /\ m_isStreaming m' = Some false /\
    Forall2 (fun s s' =>
               s_id s' = s_id s /\
               (s_status s = running -> s_status s' = error) /\
               (s_status s <> running -> s_status s' = s_status s))
            steps steps' /\
    saveRequests st' = [errContent] /\ phase st' = Failed.
Proof.
  intros Hf st Hph st'.
  pose proof (reading_Live env prev events Hf (or_intror Hph)) as HL.
  pose proof HL as [[_ (m & steps & Ht & _) _ _ _] _ _].
  assert (st' = exec (on_error env) st) as ->.
  { subst st'. unfold step, on_event. rewrite exec_get. fold st. now rewrite Hph. }
  destruct (on_error_Aborted env prev st m steps Hf HL Ht)
    as (Hp & Hsv & m' & steps' & Ht' & Hc & Hs & HF).
  exists m, steps, m', steps'. auto 10.
Qed.

Lemma transport_failure_witness :
  let st := processMessage demo_env []
              [Response true; Read (RChunk (js "data: {\x22content\x22:\x22Hi\x22}\n\n"))] in
  let st' := step demo_env st (Read RThrow) in
  exists m steps m' steps',
    is_turn demo_env [] (messages st) m steps /\
    is_turn demo_env [] (messages st') m' steps' /\
    m_content m' = errContent /\ m_isStreaming m' = Some false /\
    Forall2 (fun s s' =>
               s_id s' = s_id s /\
               (s_status s = running -> s_status s' = error) /\
               (s_status s <> running -> s_status s' = s_status s))
            steps steps' /\
    saveRequests st' = [errContent] /\ phase st' = Failed.
Proof.
  apply (transport_failure_marks_running_steps demo_env []
           [Response true; Read (RChunk (js "data: {\x22content\x22:\x22Hi\x22}\n\n"))]).
  - constructor.
  - vm_compute. reflexivity.
Defined.

(** C9: a malformed frame between two valid content frames changes nothing
    (the loop body leaves the whole state as it was and goes on to the next
    record), both fragments are applied in order, and the turn keeps reading;
    so for the stream [data: {"content":"A"}], [data: {not json}],
    [data: {"content":"B"}] the content is [AB]. *)
Theorem malformed_frame_is_skipped (env : Env) (prev : list Message)
    (events : list event) (l1 bad l2 t1 t2 : jsstring) :
  fresh env prev ->
  let st := processMessage env prev events in
  phase st = Streaming ->
  classify env l1 = FContent t1 ->
  classify env bad = FMalformed ->
  classify env l2 = FContent t2 ->
  (forall st0, on_line env bad st0 = (false, st0)) /\
  (let st' := exec (on_lines env [l1; bad; l2]) st in
   fullContent st' = fullContent st ++ t1 ++ t2 /\
   loop_done st' = loop_done st /\ phase st' = Streaming /\
   exists m steps, is_turn env prev (messages st') m steps /\
                   m_content m = fullContent st') /\
  (let st' := processMessage env prev
                [Response true; Read (RChunk malformed_between_stream)] in
   fullContent st' = str "AB" /\ phase st' = Streaming /\
   exists m steps, is_turn env prev (messages st') m steps /\
                   m_content m = str "AB").
Proof.
  intros Hf st Hph H1 Hbad H2.
  pose proof (reading_Live env prev events Hf (or_intror Hph)) as HL. fold st in HL.
  split; [|split].
  - intros st0. now apply on_line_malformed.
  - cbv zeta.
    destruct (on_lines_Live env prev [l1; bad; l2] st Hf HL) as (HL' & Hfc & Hld).
    simpl in Hfc, Hld. rewrite H1, Hbad, H2 in Hfc, Hld.
    unfold assembled in Hfc. simpl in Hfc, Hld. rewrite app_nil_r in Hfc.
    rewrite orb_false_r in Hld.
    split; [exact Hfc|]. split; [exact Hld|].
    split; [now rewrite on_lines_phase|].
    destruct HL' as [[_ (m & steps & Ht & _ & Hc & _) _ _ _] _ _]. eauto.
  - cbv zeta. rewrite processMessage_cons.
    destruct (streaming_after_response env prev Hf) as (HL0 & Hnd0 & Hph0 & Hfc0).
    destruct (run_Streaming env prev [Read (RChunk malformed_between_stream)]
                _ Hf HL0 Hnd0 Hph0)
      as [(HL1 & _ & Hph1 & Hfc1 & _) |
          [(stX & _ & _ & _ & He & _) | (stX & _ & _ & Hin)]].
    + assert (assembled (frames_of env [Read (RChunk malformed_between_stream)])
              = str "AB") as Ea by (vm_compute; reflexivity).
      cbv zeta in Hfc1. rewrite Ea, Hfc0 in Hfc1.
      split; [exact Hfc1|]. split; [exact Hph1|].
      destruct HL1 as [[_ (m & steps & Ht & _ & Hc & _) _ _ _] _ _].
      exists m, steps. split; [exact Ht | rewrite Hc; exact Hfc1].
    + exfalso. vm_compute in He. discriminate.
    + exfalso. simpl in Hin. destruct Hin as [Hin|[]]. discriminate.
Qed.

Lemma malformed_frame_witness :
  let env := demo_env in
  let st := processMessage env [] [Response true] in
  let l1 := js "data: {\x22content\x22:\x22A\x22}" in
  let bad := js "data: {not json}" in
  let l2 := js "data: {\x22content\x22:\x22B\x22}" in
  (forall st0, on_line env bad st0 = (false, st0)) /\
  (let st' := exec (on_lines env [l1; bad; l2]) st in
   fullContent st' = fullContent st ++ str "A" ++ str "B" /\
   loop_done st' = loop_done st /\ phase st' = Streaming /\
   exists m steps, is_turn env [] (messages st') m steps /\
                   m_content m = fullContent st') /\
  (let st' := processMessage env []
                [Response true; Read (RChunk malformed_between_stream)] in
   fullContent st' = str "AB" /\ phase st' = Streaming /\
   exists m steps, is_turn env [] (messages st') m steps /\
                   m_content m = str "AB").
Proof.
  apply (malformed_frame_is_skipped demo_env [] [Response true]).
  - constructor.
  - vm_compute. reflexivity.
  - vm_compute. reflexivity.
  - vm_compute. reflexivity.
  - vm_compute. reflexivity.
Defined.

(** C10: every update the turn hands to [setMessages] (step activation,
    step completion, content publication, end of streaming, identifier
    backfill, failure) keeps the length of the message list, leaves every
    message with another id as it is, and leaves the whole list as it is when
    no message carries the id of the turn; activating a step id that none of
    the steps carries, such as [principles] for the created steps, changes
    nothing.  Through a whole turn the list therefore grows by the
    placeholder only, and every earlier message with another id stays as it
    was. *)
Theorem updates_are_per_id_maps :
  (forall id u prev,
     stream_update id u ->
     length (u prev) = length prev /\
     (forall i m, prev !! i = Some m -> m_id m <> id -> u prev !! i = Some m) /\
     (Forall (fun m => m_id m <> id) prev -> u prev = prev)) /\
  (forall id stepId now prev,
     Forall (fun m => forall steps, m_processSteps m = Some steps ->
                      Forall (fun s => s_id s <> stepId) steps) prev ->
     activate_update id stepId now prev = prev) /\
  (forall env timestamp now,
     activate_update (aiTempId env) "principles" now [aiPlaceholder env timestamp]
     = [aiPlaceholder env timestamp]) /\
  (forall env prev events,
     let st := processMessage env prev events in
     length (messages st) = S (length prev) /\
     forall i m, prev !! i = Some m -> m_id m <> aiTempId env ->
                 messages st !! i = Some m).
Proof.
  split; [|split; [|split]].
  - intros id u prev Hu.
    destruct (stream_update_map_turn id u Hu) as (f & Hf & Heq).
    rewrite Heq. split; [apply map_turn_length|].
    split; [apply map_turn_other | apply map_turn_absent].
  - intros id stepId t prev. apply activate_update_absent.
  - intros env timestamp t. apply activate_update_absent.
    constructor; [|constructor]. intros steps [= <-].
    repeat constructor; discriminate.
  - intros env prev events. exact (processMessage_kept env prev events).
Qed.

Lemma updates_witness :
  let id := "1700000000001"%string in
  let u := content_update id (str "Hi") in
  let prev := [demo_question] in
  (length (u prev) = length prev /\
   (forall i m, prev !! i = Some m -> m_id m <> id -> u prev !! i = Some m) /\
   (Forall (fun m => m_id m <> id) prev -> u prev = prev)) /\
  activate_update id "principles" 0%Z prev = prev /\
  (let st := processMessage demo_env prev
               [Response true; Read (RChunk hello_world_stream)] in
   length (messages st) = 2%nat /\ messages st !! 0%nat = Some demo_question).
Proof.
  destruct updates_are_per_id_maps as (H1 & H2 & _ & H4). cbv zeta.
  split; [|split].
  - apply H1. constructor.
  - apply H2. constructor; [|constructor]. discriminate.
  - destruct (H4 demo_env [demo_question]
                [Response true; Read (RChunk hello_world_stream)]) as [Hl Hk].
    split; [exact Hl|]. apply Hk; [reflexivity | discriminate].
Defined.

(** * Properties of the component around the turn *)

(** * The component around the turn *)

(** ** The subscription *)

Lemma has_db_id_inserted newMsg :
  has_db_id (row_id newMsg) (inserted_message newMsg) = true.
Proof. unfold has_db_id. simpl. apply String.eqb_refl. Qed.

Lemma insert_update_listed newMsg prev :
  existsb (has_db_id (row_id newMsg)) (insert_update newMsg prev) = true.
Proof.
  unfold insert_update.
  destruct (existsb _ prev) eqn:E; [exact E|].
  rewrite existsb_app. simpl. rewrite has_db_id_inserted.
  now rewrite orb_true_r.
Qed.

Lemma insert_update_known newMsg prev :
  existsb (has_db_id (row_id newMsg)) prev = true ->
  insert_update newMsg prev = prev.
Proof. intros H. unfold insert_update. now rewrite H. Qed.

Lemma insert_update_new newMsg prev :
  existsb (has_db_id (row_id newMsg)) prev = false ->
  insert_update newMsg prev = prev ++ [inserted_message newMsg].
Proof. intros H. unfold insert_update. now rewrite H. Qed.

Lemma has_db_id_loaded r msg :
  has_db_id (row_id r) (loaded_message msg) = (row_id msg =? row_id r)%string.
Proof. reflexivity. Qed.

Lemma existsb_loaded r data :
  In r data ->
  existsb (has_db_id (row_id r)) (map loaded_message data) = true.
Proof.
  intros Hin. apply existsb_exists. exists (loaded_message r). split.
  - now apply in_map.
  - rewrite has_db_id_loaded. apply String.eqb_refl.
Qed.

Lemma db_id_update_length id d prev :
  length (db_id_update id d prev) = length prev.
Proof. unfold db_id_update. apply length_map. Qed.

Lemma db_id_update_app id d l1 l2 :
  db_id_update id d (l1 ++ l2) = db_id_update id d l1 ++ db_id_update id d l2.
Proof. unfold db_id_update. apply map_app. Qed.

Lemma db_id_update_listed id d prev :
  existsb (fun m => (m_id m =? id)%string) prev = true ->
  existsb (has_db_id d) (db_id_update id d prev) = true.
Proof.
  intros H. apply existsb_exists in H as (m & Hin & Hid).
  apply existsb_exists. exists (with_db_id m d). split.
  - unfold db_id_update. apply in_map_iff. exists m. split; [|exact Hin].
    now rewrite Hid.
  - unfold has_db_id. simpl. apply String.eqb_refl.
Qed.

(** X1: the update of the subscription never changes or drops an entry; it
    appends at most one entry, after which the row is listed; a notification
    delivered a second time changes nothing. *)
Theorem insert_update_appends_once (newMsg : Row) (prev : list Message) :
  (exists tail, insert_update newMsg prev = prev ++ tail /\
                (length tail <= 1)%nat) /\
  existsb (has_db_id (row_id newMsg)) (insert_update newMsg prev) = true /\
  insert_update newMsg (insert_update newMsg prev) = insert_update newMsg prev.
Proof.
  split; [|split].
  - unfold insert_update. destruct (existsb _ prev).
    + exists []. rewrite app_nil_r. split; [reflexivity | simpl; lia].
    + exists [inserted_message newMsg]. split; [reflexivity | simpl; lia].
  - apply insert_update_listed.
  - apply insert_update_known, insert_update_listed.
Qed.

(** X2: the order in which the identifier backfill of a saved message and the
    notification of its insertion reach the list matters.  When the backfill
    comes first the notification changes nothing; when the notification comes
    first it appends an entry for the row, and the backfill then leaves the
    list with one entry more: the message is listed twice. *)
Theorem backfill_races_notification (id : string) (newMsg : Row)
    (prev : list Message) :
  existsb (fun m => (m_id m =? id)%string) prev = true ->
  existsb (has_db_id (row_id newMsg)) prev = false ->
  insert_update newMsg (db_id_update id (row_id newMsg) prev) =
    db_id_update id (row_id newMsg) prev /\
  db_id_update id (row_id newMsg) (insert_update newMsg prev) =
    db_id_update id (row_id newMsg) prev ++ [inserted_message newMsg] /\
  length (db_id_update id (row_id newMsg) (insert_update newMsg prev)) =
    S (length (insert_update newMsg (db_id_update id (row_id newMsg) prev))).
Proof.
  intros Hid Hnew.
  assert (insert_update newMsg (db_id_update id (row_id newMsg) prev) =
          db_id_update id (row_id newMsg) prev) as E1.
  { apply insert_update_known, db_id_update_listed, Hid. }
  assert (db_id_update id (row_id newMsg) (insert_update newMsg prev) =
          db_id_update id (row_id newMsg) prev ++ [inserted_message newMsg]) as E2.
  { rewrite insert_update_new by exact Hnew. rewrite db_id_update_app. f_equal.
    unfold db_id_update. simpl. destruct (row_id newMsg =? id)%string; reflexivity. }
  split; [exact E1|]. split; [exact E2|].
  rewrite E1, E2, length_app. simpl. lia.
Qed.

Lemma backfill_races_notification_witness :
  let newMsg := {| row_id := "row-1"; row_content := str "hello";
                   row_sender := user; row_created_at := 1700000000000%Z |} in
  insert_update newMsg (db_id_update "1700000000000" "row-1" [demo_question]) =
    db_id_update "1700000000000" "row-1" [demo_question] /\
  db_id_update "1700000000000" "row-1" (insert_update newMsg [demo_question]) =
    db_id_update "1700000000000" "row-1" [demo_question] ++ [inserted_message newMsg] /\
  length (db_id_update "1700000000000" "row-1" (insert_update newMsg [demo_question])) =
    S (length (insert_update newMsg (db_id_update "1700000000000" "row-1" [demo_question]))).
Proof.
  exact (backfill_races_notification "1700000000000"
           {| row_id := "row-1"; row_content := str "hello";
              row_sender := user; row_created_at := 1700000000000%Z |}
           [demo_question] eq_refl eq_refl).
Defined.

(** ** Invariants of the tracker along a turn

    An invariant of the messages and of the bookkeeping of the tracker that
    the two step helpers and the step-preserving updates keep holds in every
    state a turn reaches, up to the [catch] block. *)

Section Tracked.

Variable env : Env.
Variable prev : list Message.
Variable Inv : TurnState -> Prop.

Hypothesis prev_fresh : fresh env prev.
Hypothesis Inv_track : forall st st', same_track st st' -> Inv st -> Inv st'.
Hypothesis Inv_activate :
  forall x st, Inv st -> Inv (exec (activateStep env x) st).
Hypothesis Inv_complete :
  forall x st, Inv st -> x ∈ activatedSteps st ->
               Inv (exec (completeStep env x) st).
Hypothesis Inv_plain :
  forall u st, plain_update (aiTempId env) u -> Inv st ->
               Inv (set_messages (u (messages st)) st).

Lemma Inv_control (f : TurnState -> TurnState) st :
  same_track st (f st) -> Inv st -> Inv (f st).
Proof. intros Hf H. exact (Inv_track st (f st) Hf H). Qed.

Ltac track := apply Inv_control; [repeat split|].

Lemma Inv_activate_triggered l : forall st,
  Inv st -> Inv (exec (activate_triggered env l) st).
Proof.
  induction l as [|x l IH]; intros st H; simpl; [exact H|].
  rewrite exec_get, exec_seq. apply IH.
  destruct (decide (x ∈ activatedSteps st)); [exact H | now apply Inv_activate].
Qed.

Lemma Inv_start_response st :
  Live env prev st -> Inv st -> Inv (exec (start_response env) st).
Proof.
  intros HL H. unfold start_response. rewrite exec_get.
  destruct (responseStarted st) eqn:Ers; [exact H|]. rewrite exec_seq, exec_modify.
  destruct (currentStepIndex st <? length stepOrder - 1)%nat eqn:Eidx.
  - change (currentStepIndex (set_responseStarted true st))
      with (currentStepIndex st).
    rewrite !exec_seq, exec_modify. apply Inv_activate.
    apply (Inv_control (set_currentStepIndex (length stepOrder - 1)));
      [repeat split|].
    apply Inv_complete.
    + apply (Inv_control (set_responseStarted true)); [repeat split | exact H].
    + destruct HL as [HC _ Hun]. destruct (Hun Ers) as (_ & -> & _).
      simpl. apply HC.
  - rewrite exec_skip.
    apply (Inv_control (set_responseStarted true)); [repeat split | exact H].
Qed.

Lemma Inv_publish text st : Inv st -> Inv (exec (publish env text) st).
Proof.
  intros H. unfold publish. rewrite !exec_seq, exec_modify, exec_get.
  rewrite exec_setMessages. apply Inv_plain; [constructor|].
  apply (Inv_control (fun st => set_fullContent (fullContent st ++ text) st));
    [repeat split|].
  now apply Inv_activate_triggered.
Qed.

Lemma Inv_on_content content st :
  Live env prev st -> Inv st -> Inv (exec (on_content env content) st).
Proof.
  intros HL H. unfold on_content. rewrite exec_seq.
  pose proof (Inv_start_response st HL H) as H1.
  destruct (ToString env content); [now apply Inv_publish | exact H1].
Qed.

Lemma Inv_on_line line st :
  Live env prev st -> Inv st -> Inv (on_line env line st).2.
Proof.
  intros HL H. unfold on_line.
  assert (Inv (set_loop_done true st)) as Hd.
  { apply (Inv_control (set_loop_done true)); [repeat split | exact H]. }
  destruct (negb (startsWith (str "data:") line)); [exact H|].
  destruct (js_eqb (trim (slice 5 line)) (str "[DONE]")); [exact Hd|].
  destruct (JSON_parse (trim (slice 5 line))) as [data|]; [|exact H].
  destruct data as [|b|n|s|items|ms]; try exact H.
  all: destruct (is_str "heartbeat" _); [exact H|].
  all: destruct (is_str "done" _); [exact Hd|].
  all: destruct (prop "content" _) as [content|]; [|exact H].
  all: destruct (ToBoolean env content); [|exact H].
  all: pose proof (Inv_on_content content st HL H) as H1.
  all: munfold; unfold exec in H1; destruct (on_content env content st);
       exact H1.
Qed.

Lemma Inv_on_lines lines : forall st,
  Live env prev st -> Inv st -> Inv (exec (on_lines env lines) st).
Proof.
  induction lines as [|line lines IH]; intros st HL H; simpl; [exact H|].
  rewrite exec_bind.
  pose proof (Inv_on_line line st HL H) as H1.
  destruct (on_line_Live env prev st line prev_fresh HL) as (HL1 & _).
  destruct (on_line env line st) as [[|] st1]; simpl in *; [exact H1|].
  now apply IH.
Qed.

Lemma Inv_complete_remaining ids : forall st,
  Inv st -> Inv (exec (complete_remaining env ids) st).
Proof.
  induction ids as [|x ids IH]; intros st H; simpl; [exact H|].
  rewrite exec_get, !exec_seq. apply IH.
  destruct (decide (x ∈ activatedSteps st)) as [Hin|Hin].
  - rewrite exec_skip. now apply Inv_complete.
  - apply Inv_complete; [now apply Inv_activate|].
    destruct (activateStep_frame env x st) as (_ & _ & _ & _ & _ & _ & _ & _ & ->).
    set_solver.
Qed.

Lemma Inv_persist st : Inv st -> Inv (exec (persist env) st).
Proof.
  intros H. unfold persist. rewrite exec_get.
  destruct (negb (js_eqb (fullContent st) [])); [|exact H].
  unfold saveMessage. munfold. simpl.
  assert (Inv (set_saveRequests (saveRequests st ++ [fullContent st]) st)) as Hs.
  { apply (Inv_control (fun st0 => set_saveRequests
             (saveRequests st ++ [fullContent st]) st0));
      [repeat split | exact H]. }
  destruct (saveResult env) as [d|]; [|exact Hs].
  destruct (d =? "")%string; [exact Hs|].
  apply (Inv_plain _ _ (pu_db_id (aiTempId env) d) Hs).
Qed.

Lemma Inv_after_loop st : Inv st -> Inv (exec (after_loop env) st).
Proof.
  intros H. unfold after_loop. rewrite !exec_seq, exec_modify.
  set (st1 := exec (setMessages (streaming_done_update (aiTempId env)))
                (exec (complete_remaining env stepOrder)
                   (set_stepInterval false st))).
  rewrite exec_get, !exec_seq, exec_modify.
  apply (Inv_control (set_phase Completed)); [repeat split|].
  apply Inv_persist.
  assert (Inv st1) as H1.
  { unfold st1. rewrite exec_setMessages. apply Inv_plain; [constructor|].
    apply Inv_complete_remaining.
    apply (Inv_control (set_stepInterval false)); [repeat split | exact H]. }
  destruct (js_eqb (fullContent st1) []); [|exact H1].
  unfold fallback. destruct (fallbackBody env) as [|a c].
  - rewrite exec_modify.
    apply (Inv_control (set_fullContent _)); [repeat split | exact H1].
  - rewrite exec_seq, exec_modify, exec_setMessages.
    apply Inv_plain; [constructor|].
    apply (Inv_control (set_fullContent _)); [repeat split | exact H1].
Qed.

Lemma Inv_step st e :
  Live env prev st -> Inv st -> loop_done st = false ->
  (Inv (step env st e) /\ phase (step env st e) <> Failed) \/
  step env st e = exec (on_error env) st.
Proof.
  intros HL H Hnd. unfold step, on_event. rewrite exec_get.
  pose proof HL as [[Hph _ _ _ _] _ _].
  destruct Hph as [Hph | Hph]; rewrite Hph.
  - destruct e as [[|]| |r].
    + left. mstep. split; [|discriminate].
      apply (Inv_control (fun st => set_phase Streaming (set_stepInterval true st)));
        [repeat split | exact H].
    + right. reflexivity.
    + left. rewrite exec_skip, Hph. split; [exact H | discriminate].
    + left. rewrite exec_skip, Hph. split; [exact H | discriminate].
  - destruct e as [ok| |r].
    + left. rewrite exec_skip, Hph. split; [exact H | discriminate].
    + left. rewrite (on_tick_noop env prev) by assumption. rewrite Hph.
      split; [exact H | discriminate].
    + destruct r as [chunk| |]; unfold on_read.
      * left. rewrite exec_seq, exec_get.
        pose proof (Inv_on_lines (split_nn chunk) st HL H) as H1.
        pose proof (on_lines_phase env (split_nn chunk) st) as Hph1.
        destruct (loop_done (exec (on_lines env (split_nn chunk)) st)).
        -- split; [now apply Inv_after_loop|].
           rewrite phase_after_loop. discriminate.
        -- rewrite exec_skip, Hph1, Hph. split; [exact H1 | discriminate].
      * left. rewrite exec_seq, exec_modify. split.
        -- apply Inv_after_loop.
           apply (Inv_control (set_loop_done true)); [repeat split | exact H].
        -- rewrite phase_after_loop. discriminate.
      * right. reflexivity.
Qed.

Lemma Inv_run evs : forall st,
  Live env prev st -> Inv st -> loop_done st = false ->
  Inv (run env evs st) \/
  exists stX, Live env prev stX /\ Inv stX /\
              run env evs st = exec (on_error env) stX.
Proof.
  induction evs as [|e evs IH]; intros st HL H Hnd; [left; exact H|].
  change (run env (e :: evs) st) with (run env evs (step env st e)).
  pose proof (Inv_step st e HL H Hnd) as HI.
  destruct (step_Live env prev st e prev_fresh HL Hnd)
    as [(HL1 & Hnd1 & _) | [(stX & _ & _ & _ & _ & _ & Hst) | (stX & _ & Hst & _)]].
  - apply IH; [exact HL1 | | exact Hnd1].
    destruct HI as [[HI _] | HI]; [exact HI|]. exfalso.
    pose proof (phase_on_error env st) as Hp. rewrite <- HI in Hp.
    destruct HL1 as [[[Hq|Hq] _ _ _ _] _ _]; rewrite Hq in Hp; discriminate.
  - rewrite (run_settled env evs) by (left; rewrite Hst; apply phase_after_loop).
    destruct HI as [[HI _] | HI]; [left; exact HI|]. exfalso.
    pose proof (phase_on_error env st) as Hp. rewrite <- HI in Hp.
    rewrite Hst, phase_after_loop in Hp. discriminate.
  - rewrite (run_settled env evs) by (right; rewrite Hst; apply phase_on_error).
    destruct HI as [[_ HI] | HI].
    + exfalso. apply HI. rewrite Hst. apply phase_on_error.
    + right. exists st. auto.
Qed.

Lemma Inv_processMessage events :
  Inv (begin env prev) ->
  let st := processMessage env prev events in
  Inv st \/
  exists stX, Live env prev stX /\ Inv stX /\ st = exec (on_error env) stX.
Proof.
  intros H. destruct (begin_Live env prev prev_fresh) as (HL & Hnd & _).
  exact (Inv_run events _ HL H Hnd).
Qed.

End Tracked.

(** ** The life of a step *)

Lemma Forall2_map_self {A} (R : A -> A -> Prop) (f : A -> A) (l : list A) :
  Forall (fun a => R a (f a)) l -> Forall2 R l (map f l).
Proof. induction 1; simpl; constructor; assumption. Qed.

Lemma Forall2_compose {A} (R S T : A -> A -> Prop) (l1 l2 l3 : list A) :
  (forall a b c, R a b -> S b c -> T a c) ->
  Forall2 R l1 l2 -> Forall2 S l2 l3 -> Forall2 T l1 l3.
Proof.
  intros HT H12. revert l3.
  induction H12 as [|a b l1 l2 Hab _ IH]; intros l3 H23; inversion H23; subst;
    constructor; eauto.
Qed.

Lemma Forall2_with_ids {A B} (f : A -> B) (R : A -> A -> Prop) (l l' : list A) :
  map f l = map f l' -> Forall2 R l l' ->
  Forall2 (fun a b => f b = f a /\ R a b) l l'.
Proof.
  intros Hm H. induction H as [|a b l l' Hab _ IH]; [constructor|].
  simpl in Hm. injection Hm as Hf Hm. constructor; auto.
Qed.

Lemma status_next_refl a : status_next a a = true.
Proof. destruct a; reflexivity. Qed.

Lemma status_le_refl a : status_le a a = true.
Proof. destruct a; reflexivity. Qed.

Lemma status_le_next a b c :
  status_le a b = true -> status_next b c = true -> status_le a c = true.
Proof. destruct a, b, c; simpl; congruence. Qed.

Lemma not_is_turn_prev env prev m steps : ~ is_turn env prev prev m steps.
Proof.
  intros (Heq & _). apply (f_equal (@length Message)) in Heq.
  rewrite length_app in Heq. simpl in Heq. lia.
Qed.

Lemma advance_same env prev next old new m steps m' :
  (forall a, next a a = true) ->
  is_turn env prev old m steps -> is_turn env prev new m' steps ->
  advance env prev next old new.
Proof.
  intros Hr Ht Ht' m0 steps0 Ht0.
  destruct (is_turn_inj _ _ _ _ _ _ _ Ht Ht0) as [_ <-].
  exists m', steps. split; [exact Ht'|].
  clear -Hr. induction steps; constructor; auto.
Qed.

Lemma advance_map env prev next old new m steps m' f :
  is_turn env prev old m steps -> is_turn env prev new m' (map f steps) ->
  Forall (fun s => next (s_status s) (s_status (f s)) = true) steps ->
  advance env prev next old new.
Proof.
  intros Ht Ht' Hall m0 steps0 Ht0.
  destruct (is_turn_inj _ _ _ _ _ _ _ Ht Ht0) as [_ <-].
  exists m', (map f steps). split; [exact Ht'|].
  now apply Forall2_map_self.
Qed.

Lemma history_cons R new old rest :
  R old new -> history R (old :: rest) -> history R (new :: old :: rest).
Proof. intros H1 H2. split; assumption. Qed.

(** What the history says of any earlier value against the newest one. *)
Lemma history_le env prev l : forall new old m steps,
  history (advance env prev status_next) (new :: l) ->
  In old (new :: l) -> is_turn env prev old m steps ->
  exists m' steps', is_turn env prev new m' steps' /\
    Forall2 (fun s s' => status_le (s_status s) (s_status s') = true)
            steps steps'.
Proof.
  induction l as [|mid l IH]; intros new old m steps Hh Hin Ht.
  - destruct Hin as [<- | []]. exists m, steps. split; [exact Ht|].
    clear. induction steps; constructor; auto using status_le_refl.
  - destruct Hin as [<- | Hin].
    + exists m, steps. split; [exact Ht|].
      clear. induction steps; constructor; auto using status_le_refl.
    + destruct Hh as [HR Hh].
      destruct (IH mid old m steps Hh Hin Ht) as (m1 & steps1 & Ht1 & Hle).
      destruct (HR m1 steps1 Ht1) as (m' & steps' & Ht' & Hnext).
      exists m', steps'. split; [exact Ht'|].
      eapply Forall2_compose; [|exact Hle|exact Hnext].
      intros a b c. apply status_le_next.
Qed.

Section TrackerInvariant.

Variable env : Env.
Variable prev : list Message.
Hypothesis prev_fresh : fresh env prev.

Lemma Tracker_track st st' :
  same_track st st' -> Tracker env prev st -> Tracker env prev st'.
Proof.
  intros (Hm & Hs & Ha & _ & _). unfold Tracker. now rewrite Hm, Hs, Ha.
Qed.

Lemma Tracker_activate x st :
  Tracker env prev st -> Tracker env prev (exec (activateStep env x) st).
Proof.
  intros HT. rewrite exec_activateStep.
  destruct (decide (x ∈ activatedSteps st)) as [|Hx]; [exact HT|].
  destruct HT as ((m & steps & Ht & Hall) & (rest & Hsn) & Hh).
  set (t := Date_now env (clock st)).
  pose proof (is_turn_activate env prev _ m steps x t prev_fresh Ht) as Ht'.
  unfold Tracker. cbv zeta. simpl. split; [|split].
  - eexists _, _. split; [exact Ht'|]. unfold activate_steps.
    rewrite Forall_map. eapply Forall_impl; [exact Hall|].
    intros s [Hne Hiff]. simpl.
    destruct (s_id s =? x)%string eqn:E; simpl.
    + apply String.eqb_eq in E. split; [discriminate|].
      split; [intros _; set_solver | discriminate].
    + apply String.eqb_neq in E. split; [exact Hne|].
      rewrite Hiff. set_solver.
  - eexists. reflexivity.
  - rewrite Hsn. rewrite Hsn in Hh. apply history_cons; [|exact Hh].
    eapply advance_map; [exact Ht | exact Ht' |].
    eapply Forall_impl; [exact Hall|]. intros s [_ Hiff]. simpl.
    destruct (s_id s =? x)%string eqn:E; [|apply status_next_refl].
    apply String.eqb_eq in E. simpl.
    destruct (s_status s) eqn:Es; try reflexivity; exfalso; apply Hx;
      rewrite <- E; apply Hiff; discriminate.
Qed.

Lemma Tracker_complete x st :
  Tracker env prev st -> x ∈ activatedSteps st ->
  Tracker env prev (exec (completeStep env x) st).
Proof.
  intros ((m & steps & Ht & Hall) & (rest & Hsn) & Hh) Hx.
  rewrite exec_completeStep. cbv zeta.
  set (d := (complete_timing env x st).1).
  pose proof (is_turn_complete env prev _ m steps x d None prev_fresh Ht) as Ht'.
  unfold Tracker. simpl. split; [|split].
  - eexists _, _. split; [exact Ht'|]. unfold complete_steps.
    rewrite Forall_map. eapply Forall_impl; [exact Hall|].
    intros s [Hne Hiff]. simpl.
    destruct (s_id s =? x)%string eqn:E; simpl; [|split; assumption].
    apply String.eqb_eq in E. split; [discriminate|].
    split; [intros _; rewrite E; exact Hx | discriminate].
  - eexists. reflexivity.
  - rewrite Hsn. rewrite Hsn in Hh. apply history_cons; [|exact Hh].
    eapply advance_map; [exact Ht | exact Ht' |].
    eapply Forall_impl; [exact Hall|]. intros s [Hne Hiff]. simpl.
    destruct (s_id s =? x)%string eqn:E; [|apply status_next_refl].
    apply String.eqb_eq in E. simpl.
    destruct (s_status s) eqn:Es; try reflexivity.
    + exfalso. rewrite <- E in Hx. apply Hiff in Hx. now apply Hx.
    + now exfalso.
Qed.

Lemma Tracker_plain u st :
  plain_update (aiTempId env) u -> Tracker env prev st ->
  Tracker env prev (set_messages (u (messages st)) st).
Proof.
  intros Hu ((m & steps & Ht & Hall) & (rest & Hsn) & Hh).
  assert (exists m', is_turn env prev (u (messages st)) m' steps) as (m' & Ht').
  { destruct Hu.
    - eexists. eapply is_turn_content; eassumption.
    - eexists. eapply is_turn_streaming_done; eassumption.
    - eexists. eapply is_turn_db_id; eassumption. }
  unfold Tracker. simpl. split; [|split].
  - exists m', steps. split; assumption.
  - eexists. reflexivity.
  - rewrite Hsn. rewrite Hsn in Hh. apply history_cons; [|exact Hh].
    eapply advance_same; [apply status_next_refl | exact Ht | exact Ht'].
Qed.

Lemma is_turn_placeholder timestamp :
  is_turn env prev (prev ++ [aiPlaceholder env timestamp])
    (aiPlaceholder env timestamp) (getInitialSteps None).
Proof. repeat split. Qed.

Lemma Tracker_begin : Tracker env prev (begin env prev).
Proof.
  rewrite begin_eq. cbv zeta.
  pose proof (is_turn_placeholder (Date_now env 0)) as Ht0.
  pose proof (is_turn_activate env prev _ _ _ "sections" (Date_now env 1)
                prev_fresh Ht0) as Ht1.
  unfold Tracker. simpl messages. simpl snapshots. simpl activatedSteps.
  split; [|split].
  - eexists _, _. split; [exact Ht1|].
    repeat constructor; simpl; try discriminate; try set_solver;
      intros H; exfalso; set_solver.
  - eexists. reflexivity.
  - apply history_cons; [|apply history_cons; [|simpl; auto]].
    + eapply advance_map; [exact Ht0 | exact Ht1 |].
      repeat constructor.
    + intros m steps Ht. exfalso. eapply not_is_turn_prev, Ht.
Qed.

(** The [catch] block closes the history: a running step fails, the others
    stay as they are. *)
Lemma Tracker_error st :
  Tracker env prev st ->
  let st' := exec (on_error env) st in
  (exists rest, snapshots st' = messages st' :: rest) /\
  history (advance env prev status_next) (snapshots st').
Proof.
  intros ((m & steps & Ht & Hall) & (rest & Hsn) & Hh). cbv zeta.
  unfold on_error, saveMessage. mstep. simpl.
  split; [eexists; reflexivity|].
  rewrite Hsn. rewrite Hsn in Hh. apply history_cons; [|exact Hh].
  pose proof (is_turn_error env prev _ m steps prev_fresh Ht) as Ht'.
  eapply advance_map; [exact Ht | exact Ht' |].
  clear. induction steps as [|s steps IH]; constructor; [|exact IH].
  simpl. destruct (s_status s); reflexivity.
Qed.

Lemma processMessage_history events :
  let st := processMessage env prev events in
  (exists rest, snapshots st = messages st :: rest) /\
  history (advance env prev status_next) (snapshots st).
Proof.
  cbv zeta.
  destruct (Inv_processMessage env prev (Tracker env prev) prev_fresh
              Tracker_track Tracker_activate Tracker_complete Tracker_plain
              events Tracker_begin) as [(_ & H1 & H2) | (stX & _ & HT & ->)].
  - split; assumption.
  - now apply Tracker_error.
Qed.

End TrackerInvariant.

(** ** Start times and durations *)

Section TimedInvariant.

Variable env : Env.
Variable prev : list Message.
Hypothesis prev_fresh : fresh env prev.
Hypothesis clock_monotone :
  forall i j, (i <= j)%nat -> (Date_now env i <= Date_now env j)%Z.

Lemma Timed_track st st' :
  same_track st st' -> Timed env prev st -> Timed env prev st'.
Proof.
  intros (Hm & _ & _ & Hs & Hc). unfold Timed. now rewrite Hm, Hs, Hc.
Qed.

Lemma Timed_activate x st :
  Timed env prev st -> Timed env prev (exec (activateStep env x) st).
Proof.
  intros HT. rewrite exec_activateStep.
  destruct (decide (x ∈ activatedSteps st)) as [|Hx]; [exact HT|].
  destruct HT as (Hstart & m & steps & Ht & Hall).
  set (t := Date_now env (clock st)).
  pose proof (is_turn_activate env prev _ m steps x t prev_fresh Ht) as Ht'.
  unfold Timed. cbv zeta. simpl. split.
  - intros y ty Hy. destruct (decide (x = y)) as [<- | Hne].
    + rewrite lookup_insert_eq in Hy. injection Hy as <-.
      exists (clock st). split; [lia | reflexivity].
    + rewrite lookup_insert_ne in Hy by exact Hne.
      destruct (Hstart y ty Hy) as (i & Hi & ->). exists i. split; [lia | reflexivity].
  - eexists _, _. split; [exact Ht'|]. unfold activate_steps.
    rewrite Forall_map. eapply Forall_impl; [exact Hall|].
    intros s Hs. destruct (s_id s =? x)%string; [|exact Hs].
    unfold duration_ok in *. simpl.
    destruct (s_durationMs s); [exact Hs | discriminate].
Qed.

Lemma complete_timing_ok x st :
  Timed env prev st ->
  (0 <= (complete_timing env x st).1)%Z /\
  (clock st < (complete_timing env x st).2)%nat.
Proof.
  intros (Hstart & _). unfold complete_timing.
  assert (0 <= Date_now env (S (clock st)) - Date_now env (clock st))%Z as H0.
  { pose proof (clock_monotone (clock st) (S (clock st))). lia. }
  destruct (stepStartTimes st !! x) as [t|] eqn:E; [|simpl; split; [exact H0 | lia]].
  destruct (t =? 0)%Z; simpl; [split; [exact H0 | lia]|].
  destruct (Hstart x t E) as (i & Hi & ->).
  pose proof (clock_monotone i (clock st)). split; lia.
Qed.

Lemma Timed_complete x st :
  Timed env prev st -> x ∈ activatedSteps st ->
  Timed env prev (exec (completeStep env x) st).
Proof.
  intros HT _. destruct (complete_timing_ok x st HT) as [Hd Hc].
  destruct HT as (Hstart & m & steps & Ht & Hall).
  rewrite exec_completeStep. cbv zeta.
  set (d := (complete_timing env x st).1) in *.
  pose proof (is_turn_complete env prev _ m steps x d None prev_fresh Ht) as Ht'.
  unfold Timed. simpl. split.
  - intros y ty Hy. destruct (Hstart y ty Hy) as (i & Hi & ->).
    exists i. split; [lia | reflexivity].
  - eexists _, _. split; [exact Ht'|]. unfold complete_steps.
    rewrite Forall_map. eapply Forall_impl; [exact Hall|].
    intros s Hs. destruct (s_id s =? x)%string; [exact Hd | exact Hs].
Qed.

Lemma Timed_plain u st :
  plain_update (aiTempId env) u -> Timed env prev st ->
  Timed env prev (set_messages (u (messages st)) st).
Proof.
  intros Hu (Hstart & m & steps & Ht & Hall).
  unfold Timed. simpl. split; [exact Hstart|].
  destruct Hu.
  - eexists _, steps. split; [eapply is_turn_content; eassumption | exact Hall].
  - eexists _, steps. split; [eapply is_turn_streaming_done; eassumption | exact Hall].
  - eexists _, steps. split; [eapply is_turn_db_id; eassumption | exact Hall].
Qed.

Lemma Timed_begin : Timed env prev (begin env prev).
Proof.
  rewrite begin_eq. cbv zeta.
  pose proof (is_turn_placeholder env prev (Date_now env 0)) as Ht0.
  pose proof (is_turn_activate env prev _ _ _ "sections" (Date_now env 1)
                prev_fresh Ht0) as Ht1.
  unfold Timed. simpl. split.
  - intros y ty Hy. destruct (decide ("sections"%string = y)) as [<- | Hne].
    + rewrite lookup_insert_eq in Hy. injection Hy as <-.
      exists 1%nat. split; [lia | reflexivity].
    + rewrite lookup_insert_ne in Hy by exact Hne.
      rewrite lookup_empty in Hy. discriminate.
  - eexists _, _. split; [exact Ht1|].
    repeat constructor; unfold duration_ok; simpl; discriminate.
Qed.

Lemma duration_ok_failed s : duration_ok s -> duration_ok (step_failed s).
Proof.
  unfold duration_ok. simpl. destruct (s_durationMs s); [auto|].
  destruct (s_status s); simpl; intros H; congruence.
Qed.

Lemma processMessage_Timed events :
  exists m steps,
    is_turn env prev (messages (processMessage env prev events)) m steps /\
    Forall duration_ok steps.
Proof.
  destruct (Inv_processMessage env prev (Timed env prev) prev_fresh
              Timed_track Timed_activate Timed_complete Timed_plain
              events Timed_begin) as [(_ & H) | (stX & _ & HT & ->)];
    [exact H|].
  destruct HT as (_ & m & steps & Ht & Hall).
  unfold on_error, saveMessage. mstep. simpl.
  eexists _, _. split; [eapply is_turn_error; eassumption|].
  rewrite Forall_map. eapply Forall_impl; [exact Hall|].
  intros s. apply duration_ok_failed.
Qed.

End TimedInvariant.

(** ** The interval is installed while the stream is read, and only then *)

Lemma start_response_interval env st :
  stepInterval (exec (start_response env) st) = stepInterval st.
Proof.
  unfold start_response. rewrite exec_get.
  destruct (responseStarted st); [reflexivity|]. mstep.
  destruct (currentStepIndex st <? length stepOrder - 1)%nat; [|reflexivity].
  mstep.
  pose proof (activateStep_control env "writing"
    (set_currentStepIndex (length stepOrder - 1)
       (exec (completeStep env (stepOrder_at (currentStepIndex st)))
          (set_responseStarted true st)))) as (_ & _ & _ & _ & _ & _ & _ & ->).
  simpl.
  pose proof (completeStep_control env (stepOrder_at (currentStepIndex st))
    (set_responseStarted true st)) as (_ & _ & _ & _ & _ & _ & _ & ->).
  reflexivity.
Qed.

Lemma publish_interval env text st :
  stepInterval (exec (publish env text) st) = stepInterval st.
Proof.
  unfold publish. mstep. simpl.
  now pose proof (activate_triggered_control env (detectStepsFromChunk text) st)
    as (_ & _ & _ & _ & _ & _ & _ & ->).
Qed.

Lemma on_content_interval env content st :
  stepInterval (exec (on_content env content) st) = stepInterval st.
Proof.
  unfold on_content. rewrite exec_seq.
  destruct (ToString env content).
  - now rewrite publish_interval, start_response_interval.
  - now rewrite exec_skip, start_response_interval.
Qed.

Lemma on_line_interval env line st :
  stepInterval (on_line env line st).2 = stepInterval st.
Proof.
  unfold on_line.
  destruct (negb (startsWith (str "data:") line)); [reflexivity|].
  destruct (js_eqb (trim (slice 5 line)) (str "[DONE]")); [reflexivity|].
  destruct (JSON_parse (trim (slice 5 line))) as [data|]; [|reflexivity].
  destruct data as [|b|n|s|items|ms]; try reflexivity.
  all: destruct (is_str "heartbeat" _); [reflexivity|].
  all: destruct (is_str "done" _); [reflexivity|].
  all: destruct (prop "content" _) as [content|]; [|reflexivity].
  all: destruct (ToBoolean env content); [|reflexivity].
  all: pose proof (on_content_interval env content st) as H.
  all: munfold; destruct (on_content env content st); exact H.
Qed.

Lemma on_lines_interval env lines : forall st,
  stepInterval (exec (on_lines env lines) st) = stepInterval st.
Proof.
  induction lines as [|line lines IH]; intros st; simpl; [reflexivity|].
  rewrite exec_bind. pose proof (on_line_interval env line st) as H.
  destruct (on_line env line st) as [[|] st1]; simpl in *.
  - now rewrite exec_skip.
  - now rewrite IH.
Qed.

Lemma complete_remaining_control env ids : forall st,
  same_control st (exec (complete_remaining env ids) st).
Proof.
  induction ids as [|x ids IH]; intros st; simpl; [apply same_control_refl|].
  rewrite exec_get, !exec_seq.
  eapply same_control_trans; [|apply IH].
  eapply same_control_trans; [|apply completeStep_control].
  destruct (decide (x ∈ activatedSteps st));
    [apply same_control_refl | apply activateStep_control].
Qed.

Lemma persist_interval env st :
  stepInterval (exec (persist env) st) = stepInterval st.
Proof.
  unfold persist. rewrite exec_get.
  destruct (negb (js_eqb (fullContent st) [])); [|reflexivity].
  unfold saveMessage. munfold. simpl.
  destruct (saveResult env) as [d|]; [|reflexivity].
  destruct (d =? "")%string; reflexivity.
Qed.

Lemma interval_after_loop env st :
  stepInterval (exec (after_loop env) st) = false.
Proof.
  unfold after_loop. rewrite !exec_seq, exec_modify.
  set (st1 := exec (setMessages (streaming_done_update (aiTempId env)))
                (exec (complete_remaining env stepOrder)
                   (set_stepInterval false st))).
  assert (stepInterval st1 = false) as H1.
  { pose proof (complete_remaining_control env stepOrder
                  (set_stepInterval false st))
      as (_ & _ & _ & _ & _ & _ & _ & Hi).
    unfold st1. rewrite exec_setMessages. exact Hi. }
  rewrite exec_get, !exec_seq, exec_modify.
  match goal with
  | |- stepInterval (set_phase _ ?X) = _ => change (stepInterval X = false)
  end.
  rewrite persist_interval.
  destruct (js_eqb (fullContent st1) []); [|exact H1].
  unfold fallback. destruct (fallbackBody env); mstep; exact H1.
Qed.

Lemma interval_on_error env st :
  stepInterval (exec (on_error env) st) = false.
Proof. unfold on_error, saveMessage. mstep. reflexivity. Qed.

Lemma on_tick_interval env st :
  stepInterval (exec (on_tick env) st) = stepInterval st /\
  phase (exec (on_tick env) st) = phase st.
Proof.
  unfold on_tick. rewrite exec_get.
  destruct (_ && _); [|split; reflexivity].
  rewrite exec_seq, exec_modify.
  destruct (findIndex _ _) as [nextIdx|]; [|split; reflexivity].
  destruct (currentStepIndex st <? nextIdx)%nat; [|split; reflexivity].
  rewrite !exec_seq, exec_modify.
  set (st1 := exec (completeStep env (stepOrder_at (currentStepIndex st)))
                (set_charCount (length (fullContent st)) st)).
  pose proof (completeStep_control env (stepOrder_at (currentStepIndex st))
                (set_charCount (length (fullContent st)) st))
    as (_ & _ & _ & _ & _ & Hp & _ & Hi).
  fold st1 in Hp, Hi. simpl in Hp, Hi.
  destruct (nextIdx <? length stepOrder)%nat.
  - pose proof (activateStep_control env (stepOrder_at nextIdx)
                  (set_currentStepIndex nextIdx st1))
      as (_ & _ & _ & _ & _ & Hp' & _ & Hi').
    simpl in Hp', Hi'. rewrite Hp', Hi'. split; assumption.
  - rewrite exec_skip. simpl. split; assumption.
Qed.

Lemma interval_matches_step env st e :
  interval_matches st -> interval_matches (step env st e).
Proof.
  unfold interval_matches, step, on_event. intros H. rewrite exec_get.
  destruct (phase st) eqn:Eph.
  - destruct e as [[|]| |r]; mstep; try (simpl; now rewrite Eph).
    + reflexivity.
    + now rewrite interval_on_error, phase_on_error.
  - destruct e as [ok| |r]; try (rewrite exec_skip; now rewrite Eph).
    + destruct (on_tick_interval env st) as [-> ->]. now rewrite Eph.
    + destruct r as [chunk| |]; unfold on_read.
      * rewrite exec_seq, exec_get.
        destruct (loop_done (exec (on_lines env (split_nn chunk)) st)).
        -- now rewrite interval_after_loop, phase_after_loop.
        -- rewrite exec_skip, on_lines_interval, on_lines_phase. now rewrite Eph.
      * rewrite exec_seq. now rewrite interval_after_loop, phase_after_loop.
      * now rewrite interval_on_error, phase_on_error.
  - rewrite exec_skip. now rewrite Eph.
  - rewrite exec_skip. now rewrite Eph.
Qed.

Lemma interval_matches_run env events : forall st,
  interval_matches st -> interval_matches (run env events st).
Proof.
  induction events as [|e events IH]; intros st H; [exact H|].
  change (run env (e :: events) st) with (run env events (step env st e)).
  apply IH, interval_matches_step, H.
Qed.

(** ** How a turn stands after the response *)

Lemma Live_turn env prev st :
  Live env prev st ->
  exists m steps, is_turn env prev (messages st) m steps /\
    m_isStreaming m = Some true /\ m_content m = fullContent st /\
    m_db_id m = None.
Proof.
  intros [[_ (m & steps & Ht & Hs & Hc & Hd & _) _ _ _] _ _].
  exists m, steps. auto.
Qed.

(** The turn the [catch] block leaves. *)
Lemma failed_turn env prev stX m steps :
  fresh env prev -> Live env prev stX ->
  is_turn env prev (messages stX) m steps ->
  let st := exec (on_error env) stX in
  let m' := with_steps (with_isStreaming (with_content m errContent) false)
              (Some (map step_failed steps)) in
  is_turn env prev (messages st) m' (map step_failed steps) /\
  m_db_id m' = None /\ phase st = Failed /\ saveRequests st = [errContent].
Proof.
  intros Hf HL Ht. cbv zeta.
  destruct (Live_turn env prev stX HL) as (m0 & steps0 & Ht0 & _ & _ & Hd).
  destruct (is_turn_inj _ _ _ _ _ _ _ Ht0 Ht) as [-> ->].
  pose proof HL as [[_ _ _ _ Hsv] _ _].
  unfold on_error, saveMessage. mstep. simpl. rewrite Hsv.
  split; [now apply is_turn_error|]. auto.
Qed.

(** ** The interval *)

(** X3: the interval that simulates progress is installed exactly while the
    stream is read: it does not exist while the response is awaited, and it
    is cleared on both ways out of the loop, the normal end and the [catch]
    block. *)
Theorem interval_installed_while_streaming (env : Env) (prev : list Message)
    (events : list event) :
  let st := processMessage env prev events in
  stepInterval st = true <-> phase st = Streaming.
Proof.
  cbv zeta.
  assert (interval_matches (processMessage env prev events)) as H.
  { unfold processMessage. apply interval_matches_run.
    rewrite begin_eq. reflexivity. }
  unfold interval_matches in H. rewrite H.
  destruct (phase (processMessage env prev events)); split;
    intros; congruence.
Qed.

(** ** What is persisted *)

Lemma persisted_by_phase env prev events :
  fresh env prev ->
  let st := processMessage env prev events in
  match phase st with
  | Fetching | Streaming => saveRequests st = []
  | Completed => exists text, saveRequests st = [text] /\ text <> []
  | Failed => saveRequests st = [errContent]
  end.
Proof.
  intros Hf. cbv zeta.
  destruct (processMessage_Progress env prev events Hf)
    as [HL _ | stX HLX _ Hst | stX HLX Hst].
  - destruct HL as [[[Hph|Hph] _ _ _ Hsv] _ _]; rewrite Hph; exact Hsv.
  - destruct (after_loop_Ended env prev stX Hf HLX) as (Hph & Hsv & _).
    rewrite <- Hst in Hph, Hsv. rewrite Hph.
    eexists. split; [exact Hsv|]. unfold persisted_text.
    destruct (fullContent stX); [apply fallback_text_nonempty | discriminate].
  - destruct (Live_turn env prev stX HLX) as (m & steps & Ht & _).
    destruct (failed_turn env prev stX m steps Hf HLX Ht) as (_ & _ & Hph & Hsv).
    rewrite Hst, Hph. exact Hsv.
Qed.

(** X4: a turn hands the assistant message to [saveMessage] exactly once, when
    it ends: nothing is persisted while the response is awaited or the stream
    is read; a turn that ended normally has persisted one text, which is not
    empty; a failed turn has persisted the apology, once. *)
Theorem turn_persists_once (env : Env) (prev : list Message)
    (events : list event) :
  fresh env prev ->
  let st := processMessage env prev events in
  match phase st with
  | Fetching | Streaming => saveRequests st = []
  | Completed => exists text, saveRequests st = [text] /\ text <> []
  | Failed => saveRequests st = [errContent]
  end.
Proof. exact (persisted_by_phase env prev events). Qed.

Lemma turn_persists_once_witness :
  let st := processMessage demo_env []
              [Response true; Read (RChunk hello_world_stream)] in
  match phase st with
  | Fetching | Streaming => saveRequests st = []
  | Completed => exists text, saveRequests st = [text] /\ text <> []
  | Failed => saveRequests st = [errContent]
  end.
Proof.
  apply (turn_persists_once demo_env []
           [Response true; Read (RChunk hello_world_stream)]).
  constructor.
Defined.

Lemma no_content_assembled fs :
  (forall text, ~ In (FContent text) fs) -> assembled fs = [].
Proof.
  unfold assembled. induction fs as [|f fs IH]; intros H; [reflexivity|].
  simpl. destruct (is_terminator f); [reflexivity|]. simpl.
  rewrite IH by (intros text Hin; apply (H text); now right).
  destruct f; try reflexivity. exfalso. apply (H fragment). now left.
Qed.

(** X5: when the stream ends normally and none of the records read was a
    content record, the text is taken from the body of the response: its
    [answer], else its [content], else a fixed introduction, and that text
    is both shown and persisted.  When the body cannot be read, a fixed
    notice is persisted, but it is not shown: the content of the turn stays
    empty. *)
Theorem empty_stream_falls_back (env : Env) (prev : list Message)
    (events : list event) :
  fresh env prev ->
  let st := processMessage env prev (Response true :: events) in
  phase st = Completed ->
  (forall text, ~ In (FContent text) (frames_of env events)) ->
  exists m steps, is_turn env prev (messages st) m steps /\
    m_isStreaming m = Some false /\
    match fallbackBody env with
    | BodyRecord answer content =>
        let text := or_else answer
                      (or_else content
                         (str "I'm JuristMind, your legal AI assistant.")) in
        saveRequests st = [text] /\ m_content m = text
    | BodyUnreadable =>
        saveRequests st = [str "Response received but could not be parsed."] /\
        m_content m = []
    end.
Proof.
  intros Hf st Hph Hnone. subst st.
  pose proof (no_content_assembled _ Hnone) as Hempty.
  destruct (after_response env prev events Hf)
    as [(_ & Hph1 & _) | [(stX & HLX & HfcX & _ & Hst) | (stX & _ & Hst & _)]].
  - rewrite Hph1 in Hph. discriminate.
  - destruct (after_loop_Ended env prev stX Hf HLX)
      as (_ & Hsv & (m & steps & Ht & Hs & _ & Hc & _) & _).
    rewrite <- Hst in Hsv, Ht. rewrite HfcX, Hempty in Hsv, Hc.
    exists m, steps. split; [exact Ht|]. split; [exact Hs|].
    unfold persisted_text, shown_text, fallback_text in *.
    destruct (fallbackBody env); auto.
  - rewrite Hst, phase_on_error in Hph. discriminate.
Qed.

Lemma empty_stream_falls_back_witness :
  let st := processMessage demo_env []
              (Response true ::
               [Read (RChunk (js "data: {\x22type\x22:\x22heartbeat\x22}\n\n"));
                Read REnd]) in
  exists m steps, is_turn demo_env [] (messages st) m steps /\
    m_isStreaming m = Some false /\
    match fallbackBody demo_env with
    | BodyRecord answer content =>
        let text := or_else answer
                      (or_else content
                         (str "I'm JuristMind, your legal AI assistant.")) in
        saveRequests st = [text] /\ m_content m = text
    | BodyUnreadable =>
        saveRequests st = [str "Response received but could not be parsed."] /\
        m_content m = []
    end.
Proof.
  apply (empty_stream_falls_back demo_env []
           [Read (RChunk (js "data: {\x22type\x22:\x22heartbeat\x22}\n\n"));
            Read REnd]).
  - constructor.
  - vm_compute. reflexivity.
  - intros text Hin. vm_compute in Hin.
    repeat (destruct Hin as [Hin | Hin]; [discriminate Hin|]). exact Hin.
Defined.




(** ** What a turn never changes *)

(** The fields of a message no update of a turn writes. *)
Lemma stream_update_identity id u ms :
  stream_update id u ->
  map (fun m => (m_id m, m_sender m, m_timestamp m, m_sources m)) (u ms) =
  map (fun m => (m_id m, m_sender m, m_timestamp m, m_sources m)) ms.
Proof.
  intros Hu.
  destruct Hu; unfold activate_update, complete_update, content_update,
    streaming_done_update, db_id_update, error_update;
    rewrite map_map; apply map_ext; intros m;
    destruct (m_id m =? id)%string; simpl; try reflexivity;
    destruct (m_processSteps m); reflexivity.
Qed.

Lemma identity_stable id (L : list (string * Sender * Z * option (list string))) :
  stable id (fun ms =>
    map (fun m => (m_id m, m_sender m, m_timestamp m, m_sources m)) ms = L).
Proof. intros u ms Hu H. now rewrite (stream_update_identity id). Qed.

Lemma length_stable id n : stable id (fun ms => length ms = n).
Proof.
  intros u ms Hu H. destruct (stream_update_map_turn id u Hu) as (f & _ & ->).
  now rewrite map_turn_length.
Qed.

Lemma absent_stable id ms0 :
  Forall (fun m => m_id m <> id) ms0 -> stable id (fun ms => ms = ms0).
Proof.
  intros Hall u ms Hu ->. destruct (stream_update_map_turn id u Hu) as (f & _ & ->).
  now apply map_turn_absent.
Qed.

Lemma turn_identity env prev events m steps :
  is_turn env prev (messages (processMessage env prev events)) m steps ->
  m_sender m = ai /\ m_timestamp m = Date_now env 0 /\ m_sources m = None.
Proof.
  intros (Heq & _).
  pose proof (keeps_run env _
    (identity_stable (aiTempId env)
       (map (fun m => (m_id m, m_sender m, m_timestamp m, m_sources m))
            (prev ++ [aiPlaceholder env (Date_now env 0)])))
    events (begin env prev)) as H.
  fold (processMessage env prev events) in H. rewrite Heq in H.
  rewrite !map_app in H. simpl in H.
  assert (map (fun m => (m_id m, m_sender m, m_timestamp m, m_sources m))
            (messages (begin env prev)) =
          map (fun m => (m_id m, m_sender m, m_timestamp m, m_sources m)) prev ++
          [(aiTempId env, ai, Date_now env 0, None)]) as H0.
  { rewrite begin_eq. cbv zeta. simpl messages.
    rewrite (stream_update_identity (aiTempId env)) by constructor.
    rewrite map_app. reflexivity. }
  specialize (H H0). apply app_inv_head in H. injection H as _ Hs Ht Hsrc.
  auto.
Qed.

(** X7: from any state of a turn on, whatever the events that follow, the turn
    leaves the number of entries of the list as it is, as well as the
    identifier, the sender, the timestamp and the sources of every entry; and
    when no entry carries its identifier any more (the list was emptied or
    replaced meanwhile), it leaves the whole list as it is. *)
Theorem turn_never_inserts (env : Env) (events : list event) (st : TurnState) :
  let st' := run env events st in
  length (messages st') = length (messages st) /\
  map (fun m => (m_id m, m_sender m, m_timestamp m, m_sources m)) (messages st') =
  map (fun m => (m_id m, m_sender m, m_timestamp m, m_sources m)) (messages st) /\
  (Forall (fun m => m_id m <> aiTempId env) (messages st) ->
   messages st' = messages st).
Proof.
  cbv zeta. split; [|split].
  - apply (keeps_run env _ (length_stable _ _)). reflexivity.
  - apply (keeps_run env _ (identity_stable _ _)). reflexivity.
  - intros Hall. apply (keeps_run env _ (absent_stable _ _ Hall)). reflexivity.
Qed.

Lemma turn_never_inserts_witness :
  let st := set_messages []
              (processMessage demo_env [demo_question]
                 [Response true;
                  Read (RChunk (js "data: {\x22content\x22:\x22Hello\x22}\n\n"))]) in
  let st' := run demo_env [Read (RChunk (js "data: {\x22content\x22:\x22 world\x22}\n\n"));
                           Read REnd] st in
  messages st' = [] /\ phase st' = Completed /\
  saveRequests st' = [str "Hello world"].
Proof.
  cbv zeta. split; [|split; vm_compute; reflexivity].
  apply (turn_never_inserts demo_env
           [Read (RChunk (js "data: {\x22content\x22:\x22 world\x22}\n\n")); Read REnd]
           (set_messages []
              (processMessage demo_env [demo_question]
                 [Response true;
                  Read (RChunk (js "data: {\x22content\x22:\x22Hello\x22}\n\n"))]))).
  constructor.
Defined.

(** ** The life of a step, over a whole turn *)

(** X8: every update of a turn leaves the status of a step as it is or moves
    it one stage on: from pending to running, from running to done, or, in
    the [catch] block, from running to error.  So, against any earlier value
    of the list, a step that was done is done, a step that had failed has
    failed, and a step that was running is not pending again. *)
Theorem steps_only_move_forward (env : Env) (prev : list Message)
    (events : list event) :
  fresh env prev ->
  let st := processMessage env prev events in
  history (advance env prev status_next) (snapshots st) /\
  forall old m steps,
    In old (snapshots st) -> is_turn env prev old m steps ->
    exists m' steps', is_turn env prev (messages st) m' steps' /\
      Forall2 (fun s s' => s_id s' = s_id s /\
                           status_le (s_status s) (s_status s') = true)
              steps steps'.
Proof.
  intros Hf st.
  destruct (processMessage_history env prev Hf events) as ((rest & Hsn) & Hh).
  fold st in Hsn, Hh. split; [exact Hh|].
  intros old m steps Hin Ht. rewrite Hsn in Hin, Hh.
  destruct (history_le env prev rest (messages st) old m steps Hh Hin Ht)
    as (m' & steps' & Ht' & Hle).
  exists m', steps'. split; [exact Ht'|].
  apply Forall2_with_ids; [|exact Hle].
  destruct Ht as (_ & _ & _ & ->). destruct Ht' as (_ & _ & _ & ->). reflexivity.
Qed.

Lemma steps_only_move_forward_witness :
  let st := processMessage demo_env []
              [Response true;
               Read (RChunk (js "data: {\x22content\x22:\x22PHASE 2\x22}\n\n"));
               Read RThrow] in
  history (advance demo_env [] status_next) (snapshots st) /\
  forall old m steps,
    In old (snapshots st) -> is_turn demo_env [] old m steps ->
    exists m' steps', is_turn demo_env [] (messages st) m' steps' /\
      Forall2 (fun s s' => s_id s' = s_id s /\
                           status_le (s_status s) (s_status s') = true)
              steps steps'.
Proof.
  apply (steps_only_move_forward demo_env []
           [Response true;
            Read (RChunk (js "data: {\x22content\x22:\x22PHASE 2\x22}\n\n"));
            Read RThrow]).
  constructor.
Defined.

(** X9: with a clock that does not go back, no step of a turn ever shows a
    negative duration, and every done step has a duration. *)
Theorem durations_are_not_negative (env : Env) (prev : list Message)
    (events : list event) :
  fresh env prev ->
  (forall i j, (i <= j)%nat -> (Date_now env i <= Date_now env j)%Z) ->
  let st := processMessage env prev events in
  exists m steps, is_turn env prev (messages st) m steps /\
    Forall (fun s => match s_durationMs s with
                     | Some d => (0 <= d)%Z
                     | None => s_status s <> done
                     end) steps.
Proof.
  intros Hf Hmono. exact (processMessage_Timed env prev Hf Hmono events).
Qed.

Lemma durations_are_not_negative_witness :
  let st := processMessage demo_env []
              [Response true; Read (RChunk hello_world_stream)] in
  exists m steps, is_turn demo_env [] (messages st) m steps /\
    Forall (fun s => match s_durationMs s with
                     | Some d => (0 <= d)%Z
                     | None => s_status s <> done
                     end) steps.
Proof.
  apply (durations_are_not_negative demo_env []
           [Response true; Read (RChunk hello_world_stream)]).
  - constructor.
  - intros i j Hij. unfold demo_env. cbn [Date_now]. lia.
Defined.

(** ** The turn, phase by phase *)

Lemma step_failed_not_running steps :
  Forall (fun s => s_status s <> running) (map step_failed steps).
Proof.
  rewrite Forall_map. apply Forall_forall. intros s _. simpl.
  destruct (s_status s); simpl; discriminate.
Qed.

Lemma turn_by_phase env prev events :
  fresh env prev ->
  let st := processMessage env prev events in
  exists m steps, is_turn env prev (messages st) m steps /\
    m_sender m = ai /\
    match phase st with
    | Fetching | Streaming =>
        m_isStreaming m = Some true /\ m_content m = fullContent st /\
        m_db_id m = None
    | Completed =>
        m_isStreaming m = Some false /\
        Forall (fun s => s_status s = done) steps /\
        m_db_id m = backfilled env /\
        (m_content m = [] -> fallbackBody env = BodyUnreadable)
    | Failed =>
        m_isStreaming m = Some false /\ m_content m = errContent /\
        m_db_id m = None /\ Forall (fun s => s_status s <> running) steps
    end.
Proof.
  intros Hf st.
  assert (forall m steps, is_turn env prev (messages st) m steps ->
                          m_sender m = ai) as Hai.
  { intros m steps Ht. now destruct (turn_identity env prev events m steps Ht). }
  destruct (processMessage_Progress env prev events Hf)
    as [HL _ | stX HLX _ Hst | stX HLX Hst]; fold st in HL || fold st in Hst.
  - destruct (Live_turn env prev st HL) as (m & steps & Ht & Hs & Hc & Hd).
    exists m, steps. split; [exact Ht|]. split; [eapply Hai; exact Ht|].
    destruct HL as [[[Hph|Hph] _ _ _ _] _ _]; rewrite Hph; auto.
  - destruct (after_loop_Ended env prev stX Hf HLX)
      as (Hph & _ & (m & steps & Ht & Hs & Hdone & Hc & Hd) & _).
    rewrite <- Hst in Hph, Ht. exists m, steps.
    split; [exact Ht|]. split; [eapply Hai; exact Ht|]. rewrite Hph.
    split; [exact Hs|]. split; [exact Hdone|]. split; [exact Hd|].
    rewrite Hc. unfold shown_text.
    pose proof (fallback_text_nonempty env) as Hne.
    destruct (fullContent stX); [|discriminate].
    destruct (fallbackBody env); [reflexivity | contradiction].
  - destruct (Live_turn env prev stX HLX) as (m & steps & Ht & _).
    destruct (failed_turn env prev stX m steps Hf HLX Ht) as (Ht' & Hd & Hph & _).
    rewrite <- Hst in Ht', Hph. eexists _, _.
    split; [exact Ht'|]. split; [eapply Hai; exact Ht'|]. rewrite Hph.
    split; [reflexivity|]. split; [reflexivity|]. split; [exact Hd|].
    apply step_failed_not_running.
Qed.

(** ** Rating a turn *)

(** X10: an assistant turn can be rated only once it has completed and its
    persistence has returned an identifier: for a turn that is still read,
    that has failed, or whose save returned nothing, [handleFeedback] sends
    nothing and answers that the message cannot be rated yet; otherwise it
    sends one row holding the identifier the save returned. *)
Theorem rating_needs_a_saved_turn (env : Env) (prev : list Message)
    (events : list event) (userId : string) (inserted isPositive : bool)
    (c : Chat) :
  fresh env prev ->
  let st := processMessage env prev events in
  exists m steps, is_turn env prev (messages st) m steps /\
    let c' := handleFeedback (Some userId) inserted m isPositive c in
    chat_messages c' = chat_messages c /\
    match phase st, backfilled env with
    | Completed, Some d =>
        chat_feedback c' =
          chat_feedback c ++
          [{| fb_message_id := d; fb_user_id := userId;
              fb_is_positive := isPositive |}]
    | _, _ =>
        chat_feedback c' = chat_feedback c /\
        chat_toasts c' = chat_toasts c ++ [toast_cannot_rate]
    end.
Proof.
  intros Hf st.
  destruct (turn_by_phase env prev events Hf) as (m & steps & Ht & _ & H).
  fold st in Ht, H. exists m, steps. split; [exact Ht|]. cbv zeta.
  unfold handleFeedback.
  assert (truthy_id (backfilled env) = backfilled env) as Hb.
  { unfold backfilled. destruct (saveResult env) as [d|]; [|reflexivity].
    destruct (d =? "")%string eqn:E; [reflexivity|]. simpl. now rewrite E. }
  destruct (phase st).
  - destruct H as (_ & _ & ->). simpl. destruct (backfilled env); auto.
  - destruct H as (_ & _ & ->). simpl. destruct (backfilled env); auto.
  - destruct H as (_ & _ & -> & _). rewrite Hb.
    destruct (backfilled env) as [d|]; simpl; [|auto].
    destruct inserted; simpl; auto.
  - destruct H as (_ & _ & -> & _). simpl. destruct (backfilled env); auto.
Qed.

Lemma rating_needs_a_saved_turn_witness :
  let c := {| chat_messages := []; chat_inputValue := []; chat_isLoading := false;
              chat_currentSessionId := Some "s1"%string; chat_toasts := [];
              chat_saved := []; chat_titles := []; chat_feedback := [];
              chat_asked := [] |} in
  let st := processMessage demo_env [] [Response true; Read RThrow] in
  exists m steps, is_turn demo_env [] (messages st) m steps /\
    let c' := handleFeedback (Some "u1"%string) true m true c in
    chat_messages c' = chat_messages c /\
    match phase st, backfilled demo_env with
    | Completed, Some d =>
        chat_feedback c' =
          chat_feedback c ++
          [{| fb_message_id := d; fb_user_id := "u1"; fb_is_positive := true |}]
    | _, _ =>
        chat_feedback c' = chat_feedback c /\
        chat_toasts c' = chat_toasts c ++ [toast_cannot_rate]
    end.
Proof.
  apply (rating_needs_a_saved_turn demo_env [] [Response true; Read RThrow]
           "u1" true true).
  constructor.
Defined.

(** ** The notification of the turn's own row *)

Lemma existsb_has_db_id_false d ms :
  Forall (fun m => m_db_id m <> Some d) ms -> existsb (has_db_id d) ms = false.
Proof.
  induction 1 as [|m ms Hm _ IH]; [reflexivity|]. simpl. rewrite IH.
  unfold has_db_id. destruct (m_db_id m) as [x|]; [|reflexivity].
  destruct (x =? d)%string eqn:E; [|reflexivity].
  apply String.eqb_eq in E. congruence.
Qed.

(** X11: when the row a turn has persisted is notified back to the list, a
    completed turn that has received its identifier is recognised and nothing
    is added.  A failed turn never receives an identifier, so the
    notification of the persisted apology appends a second entry for it. *)
Theorem own_row_notified (env : Env) (prev : list Message)
    (events : list event) (newMsg : Row) :
  fresh env prev ->
  Forall (fun m => m_db_id m <> Some (row_id newMsg)) prev ->
  let st := processMessage env prev events in
  (phase st = Completed -> backfilled env = Some (row_id newMsg) ->
   insert_update newMsg (messages st) = messages st) /\
  (phase st = Failed ->
   insert_update newMsg (messages st) = messages st ++ [inserted_message newMsg]).
Proof.
  intros Hf Hprev st.
  destruct (turn_by_phase env prev events Hf)
    as (m & steps & (Heq & _) & _ & H).
  fold st in Heq, H. split.
  - intros Hph Hb. rewrite Hph in H. destruct H as (_ & _ & Hd & _).
    apply insert_update_known. rewrite Heq, existsb_app. simpl.
    unfold has_db_id at 2. rewrite Hd, Hb, String.eqb_refl.
    now rewrite orb_true_r.
  - intros Hph. rewrite Hph in H. destruct H as (_ & _ & Hd & _).
    apply insert_update_new. rewrite Heq, existsb_app. simpl.
    unfold has_db_id at 2. rewrite Hd.
    now rewrite existsb_has_db_id_false by exact Hprev.
Qed.

Lemma own_row_notified_witness :
  let newMsg := {| row_id := "row-1"; row_content := errContent;
                   row_sender := ai; row_created_at := 1700000000050%Z |} in
  let st := processMessage demo_env [demo_question]
              [Response true; Read RThrow] in
  (phase st = Completed -> backfilled demo_env = Some (row_id newMsg) ->
   insert_update newMsg (messages st) = messages st) /\
  (phase st = Failed ->
   insert_update newMsg (messages st) = messages st ++ [inserted_message newMsg]).
Proof.
  apply (own_row_notified demo_env [demo_question] [Response true; Read RThrow]
           {| row_id := "row-1"; row_content := errContent;
              row_sender := ai; row_created_at := 1700000000050%Z |}).
  - repeat constructor. discriminate.
  - repeat constructor. discriminate.
Defined.

(** ** What is rendered of a turn *)

Lemma done_has_duration_stable id :
  stable id (fun ms =>
    Forall (fun m => m_id m = id -> forall steps, m_processSteps m = Some steps ->
              Forall (fun s => s_status s = done -> s_durationMs s <> None) steps)
           ms).
Proof.
  intros u ms Hu H.
  destruct Hu as [sid now | sid d detail | cc | | d | ];
    unfold activate_update, complete_update, content_update,
    streaming_done_update, db_id_update, error_update;
    rewrite Forall_map; (eapply Forall_impl; [exact H|]); intros m Hm; simpl;
    destruct (m_id m =? id)%string eqn:E; simpl; try exact Hm;
    apply String.eqb_eq in E; specialize (Hm E).
  - destruct (m_processSteps m) as [steps|] eqn:Es; [|now rewrite Es].
    intros _ steps' [= <-]. rewrite Forall_map.
    eapply Forall_impl; [exact (Hm steps eq_refl)|]. intros s Hs.
    destruct (s_id s =? sid)%string; [simpl; discriminate | exact Hs].
  - destruct (m_processSteps m) as [steps|] eqn:Es; [|now rewrite Es].
    intros _ steps' [= <-]. rewrite Forall_map.
    eapply Forall_impl; [exact (Hm steps eq_refl)|]. intros s Hs.
    destruct (s_id s =? sid)%string; [simpl; discriminate | exact Hs].
  - intros _ steps'. destruct (m_processSteps m) as [steps|]; [|discriminate].
    intros [= <-]. rewrite Forall_map.
    eapply Forall_impl; [exact (Hm steps eq_refl)|]. intros s Hs. simpl.
    intros Hd. apply Hs. destruct (s_status s); simpl in Hd; congruence.
Qed.

Lemma done_has_duration env prev events m steps :
  fresh env prev ->
  is_turn env prev (messages (processMessage env prev events)) m steps ->
  Forall (fun s => s_status s = done -> s_durationMs s <> None) steps.
Proof.
  intros Hf (Heq & Hid & Hs & _).
  pose proof (keeps_run env _ (done_has_duration_stable (aiTempId env))
                events (begin env prev)) as H.
  fold (processMessage env prev events) in H. rewrite Heq in H.
  assert (Forall (fun m0 => m_id m0 = aiTempId env ->
            forall steps0, m_processSteps m0 = Some steps0 ->
            Forall (fun s => s_status s = done -> s_durationMs s <> None) steps0)
          (messages (begin env prev))) as H0.
  { rewrite begin_eq. cbv zeta. simpl messages.
    apply (done_has_duration_stable (aiTempId env)); [constructor|].
    apply Forall_app. split.
    - eapply Forall_impl; [exact Hf|]. intros m0 Hne Hm0. contradiction.
    - constructor; [|constructor]. intros _ steps0 [= <-].
      repeat constructor; discriminate. }
  specialize (H H0). apply Forall_app in H as [_ H].
  inversion H as [|? ? Hm _]; subst. exact (Hm Hid steps Hs).
Qed.

Lemma doneCount_all steps :
  Forall (fun s => s_status s = done) steps -> doneCount steps = length steps.
Proof.
  unfold doneCount. induction 1 as [|s steps Hs _ IH]; [reflexivity|].
  simpl. rewrite Hs. simpl. now rewrite IH.
Qed.

Lemma hasAnyActive_done steps :
  hasAnyActive steps = true <->
  exists s, In s steps /\ (s_status s = running \/ s_status s = done).
Proof.
  unfold hasAnyActive. rewrite existsb_exists. split; intros (s & Hin & H);
    exists s; (split; [exact Hin|]).
  - destruct (s_status s); simpl in H; try discriminate; auto.
  - destruct H as [-> | ->]; reflexivity.
Qed.

Lemma is_turn_length env prev ms m steps :
  is_turn env prev ms m steps -> length ms = S (length prev) /\ length steps = 5%nat.
Proof.
  intros (-> & _ & _ & Hids). split.
  - rewrite length_app. simpl. lia.
  - apply (f_equal (@length string)) in Hids. now rewrite length_map in Hids.
Qed.

(** X12: while the response is awaited or the stream is read, the turn is
    rendered with its panel open to [Working], the dots and no count, one
    row per step; its bubble holds the waiting dots as long as no content
    has come and the content with the cursor afterwards; the actions are not
    offered, and the timer that collapses the panel is not armed. *)
Theorem reading_turn_is_rendered_working (env : Env) (prev : list Message)
    (events : list event) (isLoading collapsed : bool) :
  fresh env prev ->
  let st := processMessage env prev events in
  phase st = Fetching \/ phase st = Streaming ->
  exists m steps, is_turn env prev (messages st) m steps /\
    let v := render_message isLoading (length (messages st)) collapsed
               (length prev) m in
    mv_panel v =
      Some {| pv_title := str "Working" ++ [8230]; pv_dots := true;
              pv_count := None; pv_collapsed := collapsed;
              pv_rows := if collapsed then [] else map StepRow steps |} /\
    mv_bubble v =
      match fullContent st with
      | [] => BubbleWaiting
      | _ :: _ => BubbleText (fullContent st) true
      end /\
    mv_actions v = None /\ collapse_armed steps (negb (streaming m)) = false.
Proof.
  intros Hf st Hph.
  destruct (turn_by_phase env prev events Hf) as (m & steps & Ht & Hai & H).
  fold st in Ht, H.
  assert (m_isStreaming m = Some true /\ m_content m = fullContent st)
    as [Hs Hc] by (destruct Hph as [Hph|Hph]; rewrite Hph in H; tauto).
  exists m, steps. split; [exact Ht|]. cbv zeta.
  destruct Ht as (_ & _ & Hsteps & _).
  unfold render_message, ProcessPanel, collapse_armed, streaming, is_ai.
  rewrite Hai, Hsteps, Hs, Hc. simpl. rewrite andb_false_r.
  split; [reflexivity|]. split; [reflexivity|].
  split; [now rewrite andb_false_r | reflexivity].
Qed.

Lemma reading_turn_is_rendered_working_witness :
  let st := processMessage demo_env [demo_question] [Response true; Tick] in
  exists m steps, is_turn demo_env [demo_question] (messages st) m steps /\
    let v := render_message true (length (messages st)) false
               (length [demo_question]) m in
    mv_panel v =
      Some {| pv_title := str "Working" ++ [8230]; pv_dots := true;
              pv_count := None; pv_collapsed := false;
              pv_rows := if false then [] else map StepRow steps |} /\
    mv_bubble v =
      match fullContent st with
      | [] => BubbleWaiting
      | _ :: _ => BubbleText (fullContent st) true
      end /\
    mv_actions v = None /\ collapse_armed steps (negb (streaming m)) = false.
Proof.
  apply (reading_turn_is_rendered_working demo_env [demo_question]
           [Response true; Tick] true false).
  - repeat constructor. discriminate.
  - right. vm_compute. reflexivity.
Defined.

(** X13: a turn that ended normally is rendered with its panel titled
    [Analysis Complete], without the dots and with the count 5; every row
    shows the check mark and a duration, and the timer that collapses the
    panel is armed.  The actions are offered exactly when the turn has a
    content, Regenerate among them when nothing is loading; a completed turn
    is without content only when nothing was streamed and the body of the
    response could not be read, and its bubble then keeps the waiting
    dots. *)
Theorem completed_turn_is_rendered_complete (env : Env) (prev : list Message)
    (events : list event) (isLoading collapsed : bool) :
  fresh env prev ->
  let st := processMessage env prev events in
  phase st = Completed ->
  exists m steps, is_turn env prev (messages st) m steps /\
    let v := render_message isLoading (length (messages st)) collapsed
               (length prev) m in
    mv_panel v =
      Some {| pv_title := str "Analysis Complete"; pv_dots := false;
              pv_count := Some 5%nat; pv_collapsed := collapsed;
              pv_rows := if collapsed then [] else map StepRow steps |} /\
    Forall (fun s => rv_indicator (StepRow s) = IndCheck /\
                     rv_durationMs (StepRow s) <> None) steps /\
    collapse_armed steps (negb (streaming m)) = true /\
    match m_content m with
    | [] => mv_bubble v = BubbleWaiting /\ mv_actions v = None /\
            fallbackBody env = BodyUnreadable
    | _ :: _ => mv_bubble v = BubbleText (m_content m) false /\
                mv_actions v = Some (negb isLoading)
    end.
Proof.
  intros Hf st Hph.
  destruct (turn_by_phase env prev events Hf) as (m & steps & Ht & Hai & H).
  fold st in Ht, H. rewrite Hph in H. destruct H as (Hs & Hdone & _ & Hc).
  pose proof (done_has_duration env prev events m steps Hf Ht) as Hdur.
  destruct (is_turn_length _ _ _ _ _ Ht) as [Hlen Hlen5].
  exists m, steps. split; [exact Ht|]. cbv zeta.
  destruct Ht as (_ & _ & Hsteps & _).
  assert (hasAnyActive steps = true) as Hact.
  { apply hasAnyActive_done. destruct steps as [|s steps']; [discriminate Hlen5|].
    exists s. split; [left; reflexivity|]. right.
    now inversion Hdone. }
  unfold render_message, ProcessPanel, collapse_armed, streaming, is_ai.
  rewrite Hai, Hsteps, Hs, Hact, (doneCount_all steps Hdone), Hlen5, Hlen.
  simpl. split; [reflexivity|]. split; [|split; [reflexivity|]].
  - rewrite Forall_forall in Hdone, Hdur. apply Forall_forall. intros s Hin.
    unfold StepRow. simpl. rewrite (Hdone s Hin). split; [reflexivity|].
    apply (Hdur s Hin). apply (Hdone s Hin).
  - destruct (m_content m) as [|ch rest] eqn:Ec.
    + split; [reflexivity|]. split; [reflexivity|]. now apply Hc.
    + split; [reflexivity|]. simpl.
      replace (length prev - 0)%nat with (length prev) by lia.
      now rewrite Nat.eqb_refl.
Qed.

Lemma completed_turn_is_rendered_complete_witness :
  let st := processMessage demo_env [demo_question]
              [Response true; Read (RChunk hello_world_stream)] in
  exists m steps, is_turn demo_env [demo_question] (messages st) m steps /\
    let v := render_message false (length (messages st)) false
               (length [demo_question]) m in
    mv_panel v =
      Some {| pv_title := str "Analysis Complete"; pv_dots := false;
              pv_count := Some 5%nat; pv_collapsed := false;
              pv_rows := if false then [] else map StepRow steps |} /\
    Forall (fun s => rv_indicator (StepRow s) = IndCheck /\
                     rv_durationMs (StepRow s) <> None) steps /\
    collapse_armed steps (negb (streaming m)) = true /\
    match m_content m with
    | [] => mv_bubble v = BubbleWaiting /\ mv_actions v = None /\
            fallbackBody demo_env = BodyUnreadable
    | _ :: _ => mv_bubble v = BubbleText (m_content m) false /\
                mv_actions v = Some (negb false)
    end.
Proof.
  apply (completed_turn_is_rendered_complete demo_env [demo_question]
           [Response true; Read (RChunk hello_world_stream)] false false).
  - repeat constructor. discriminate.
  - vm_compute. reflexivity.
Defined.

(** X14: a failed turn is rendered with the apology in its bubble, without
    the cursor, and with its actions; no row spins any more.  Its panel is
    shown only if some step had been done, and is then titled
    [Analysis Complete] and counts the done steps; when no step had been
    done, as when the request itself fails, the panel is not rendered at
    all, so the step that failed is not shown. *)
Theorem failed_turn_is_rendered (env : Env) (prev : list Message)
    (events : list event) (isLoading collapsed : bool) :
  fresh env prev ->
  let st := processMessage env prev events in
  phase st = Failed ->
  exists m steps, is_turn env prev (messages st) m steps /\
    let v := render_message isLoading (length (messages st)) collapsed
               (length prev) m in
    mv_bubble v = BubbleText errContent false /\
    mv_actions v = Some (negb isLoading) /\
    Forall (fun s => rv_indicator (StepRow s) <> IndSpinner) steps /\
    (mv_panel v =
       if existsb (fun s => status_eqb (s_status s) done) steps
       then Some {| pv_title := str "Analysis Complete"; pv_dots := false;
                    pv_count := Some (doneCount steps);
                    pv_collapsed := collapsed;
                    pv_rows := if collapsed then [] else map StepRow steps |}
       else None) /\
    (forall rest, events = Response false :: rest -> mv_panel v = None).
Proof.
  intros Hf st Hph.
  destruct (turn_by_phase env prev events Hf) as (m & steps & Ht & Hai & H).
  fold st in Ht, H. rewrite Hph in H. destruct H as (Hs & Hc & _ & Hrun).
  destruct (is_turn_length _ _ _ _ _ Ht) as [Hlen _].
  exists m, steps. split; [exact Ht|]. cbv zeta.
  assert (hasAnyActive steps =
          existsb (fun s => status_eqb (s_status s) done) steps) as Hact.
  { unfold hasAnyActive. clear -Hrun.
    induction Hrun as [|s steps Hs _ IH]; [reflexivity|]. simpl. rewrite IH.
    destruct (s_status s); try reflexivity. congruence. }
  assert (mv_panel (render_message isLoading (length (messages st)) collapsed
                      (length prev) m) =
          if existsb (fun s => status_eqb (s_status s) done) steps
          then Some {| pv_title := str "Analysis Complete"; pv_dots := false;
                       pv_count := Some (doneCount steps);
                       pv_collapsed := collapsed;
                       pv_rows := if collapsed then [] else map StepRow steps |}
          else None) as Hpanel.
  { destruct Ht as (_ & _ & Hsteps & _).
    unfold render_message, ProcessPanel, streaming. simpl.
    rewrite Hai, Hsteps, Hs, Hact. simpl.
    destruct (existsb _ steps); reflexivity. }
  split; [|split; [|split; [|split; [exact Hpanel|]]]].
  - unfold render_message, streaming. simpl. rewrite Hc, Hs. reflexivity.
  - unfold render_message, streaming, is_ai. simpl. rewrite Hai, Hc, Hs, Hlen.
    simpl. replace (length prev - 0)%nat with (length prev) by lia.
    now rewrite Nat.eqb_refl.
  - eapply Forall_impl; [exact Hrun|]. intros s Hne. unfold StepRow. simpl.
    intros Heq. apply Hne.
    destruct (s_status s); try discriminate Heq; reflexivity.
  - intros rest ->. rewrite Hpanel.
    destruct (begin_Live env prev Hf) as (HL & _ & Hph0).
    destruct (Live_turn env prev _ HL) as (m0 & steps0 & Ht0 & _).
    assert (responseStarted (begin env prev) = false) as Hrs
      by (rewrite begin_eq; reflexivity).
    pose proof HL as [_ _ Hun].
    destruct (Hun Hrs) as (_ & _ & _ & Hst0). specialize (Hst0 m0 steps0 Ht0).
    destruct (failed_turn env prev _ m0 steps0 Hf HL Ht0) as (Ht1 & _).
    assert (processMessage env prev [Response false] =
            exec (on_error env) (begin env prev)) as E1.
    { unfold processMessage, run. cbn [fold_left]. unfold step, on_event.
      rewrite exec_get, Hph0. reflexivity. }
    assert (st = exec (on_error env) (begin env prev)) as Est.
    { unfold st. rewrite processMessage_cons, E1.
      apply run_settled. right. apply phase_on_error. }
    rewrite <- Est in Ht1.
    destruct (is_turn_inj _ _ _ _ _ _ _ Ht Ht1) as [_ ->].
    destruct steps0 as [|s1 [|s2 [|s3 [|s4 [|s5 [|? ?]]]]]]; try discriminate Hst0.
    injection Hst0 as E1' E2 E3 E4 E5. simpl.
    now rewrite E1', E2, E3, E4, E5.
Qed.

Lemma failed_turn_is_rendered_witness :
  let st := processMessage demo_env [demo_question]
              [Response true;
               Read (RChunk (js "data: {\x22content\x22:\x22Hello\x22}\n\n"));
               Read RThrow] in
  exists m steps, is_turn demo_env [demo_question] (messages st) m steps /\
    let v := render_message false (length (messages st)) false
               (length [demo_question]) m in
    mv_bubble v = BubbleText errContent false /\
    mv_actions v = Some (negb false) /\
    Forall (fun s => rv_indicator (StepRow s) <> IndSpinner) steps /\
    (mv_panel v =
       if existsb (fun s => status_eqb (s_status s) done) steps
       then Some {| pv_title := str "Analysis Complete"; pv_dots := false;
                    pv_count := Some (doneCount steps);
                    pv_collapsed := false;
                    pv_rows := if false then [] else map StepRow steps |}
       else None) /\
    (forall rest,
       [Response true;
        Read (RChunk (js "data: {\x22content\x22:\x22Hello\x22}\n\n"));
        Read RThrow] = Response false :: rest -> mv_panel v = None).
Proof.
  apply (failed_turn_is_rendered demo_env [demo_question]
           [Response true;
            Read (RChunk (js "data: {\x22content\x22:\x22Hello\x22}\n\n"));
            Read RThrow] false false).
  - repeat constructor. discriminate.
  - vm_compute. reflexivity.
Defined.

(** ** Calls of [processMessage] and the handlers that make them *)

Lemma truthy_id_Some id d : truthy_id id = Some d -> id = Some d /\ d <> ""%string.
Proof.
  destruct id as [d'|]; simpl; [|discriminate].
  destruct (String.eqb_spec d' ""); [discriminate|].
  intros [= ->]. auto.
Qed.

Lemma prelude_through w content isRegeneration c u sid :
  ans_user w <> None -> ans_usage w = UsageData u -> usage_refused u = false ->
  session_of w c = Some sid ->
  exists c0,
    processMessage_prelude w content isRegeneration c =
      (if isRegeneration then c0
       else add_user_message w sid content (chat_messages c) c0, Some sid) /\
    chat_messages c0 = chat_messages c /\
    chat_inputValue c0 = chat_inputValue c /\
    chat_isLoading c0 = chat_isLoading c /\
    chat_currentSessionId c0 = Some sid /\
    chat_saved c0 = chat_saved c /\ chat_titles c0 = chat_titles c /\
    chat_feedback c0 = chat_feedback c /\ chat_asked c0 = chat_asked c /\
    chat_toasts c0 =
      chat_toasts c ++
      match usage_remaining u with
      | Some remaining =>
          if (remaining <=? 2)%Z then [toast_usage_notice remaining] else []
      | None => []
      end.
Proof.
  intros Hu Hus Hr Hs. unfold processMessage_prelude, session_of in *.
  destruct (ans_user w); [|congruence]. rewrite Hus, Hr.
  destruct (usage_remaining u) as [remaining|];
    [destruct (remaining <=? 2)%Z|].
  all: cbn [chat_toast chat_currentSessionId].
  all: destruct (truthy_id (chat_currentSessionId c)) as [s0|] eqn:Ecur;
    [injection Hs as ->; apply truthy_id_Some in Ecur as [Ecur _]
    | rewrite Hs].
  all: eexists; split; [reflexivity|];
    cbn [chat_set_currentSessionId chat_toast chat_messages chat_inputValue
         chat_isLoading chat_currentSessionId chat_saved chat_titles
         chat_feedback chat_asked chat_toasts];
    rewrite ?app_nil_r; auto 12.
Qed.

Lemma add_user_message_fields w sid content shown c :
  Forall (fun m => m_id m <> pretty (ans_now_user w)) (chat_messages c) ->
  let c1 := add_user_message w sid content shown c in
  exists q,
    chat_messages c1 = chat_messages c ++ [q] /\
    m_id q = pretty (ans_now_user w) /\ m_sender q = user /\
    m_content q = content /\ m_db_id q = truthy_id (ans_userDbId w) /\
    chat_inputValue c1 = [] /\ chat_isLoading c1 = chat_isLoading c /\
    chat_currentSessionId c1 = chat_currentSessionId c /\
    chat_toasts c1 = chat_toasts c /\
    chat_saved c1 = chat_saved c ++ [(sid, content, user)] /\
    chat_feedback c1 = chat_feedback c /\ chat_asked c1 = chat_asked c /\
    chat_titles c1 =
      chat_titles c ++
      match shown with [] => [(sid, session_title content)] | _ :: _ => [] end.
Proof.
  intros Hold. unfold add_user_message.
  destruct (truthy_id (ans_userDbId w)) as [d|] eqn:Ed.
  - exists (with_db_id (userMessage w content) d).
    destruct shown;
      cbn [length Nat.eqb chat_title chat_set_messages chat_save
           chat_set_inputValue chat_messages chat_inputValue chat_isLoading
           chat_currentSessionId chat_saved chat_titles chat_feedback
           chat_asked chat_toasts];
      rewrite ?app_nil_r;
      (split;
       [ change (db_id_update (pretty (ans_now_user w)) d) with
           (map_turn (pretty (ans_now_user w)) (fun m => with_db_id m d));
         now apply map_turn_snoc
       | cbn; auto 12 ]).
  - exists (userMessage w content).
    destruct shown;
      cbn [length Nat.eqb chat_title chat_set_messages chat_save
           chat_set_inputValue chat_messages chat_inputValue chat_isLoading
           chat_currentSessionId chat_saved chat_titles chat_feedback
           chat_asked chat_toasts];
      rewrite ?app_nil_r; cbn; auto 14.
Qed.

Lemma answers_by_phase env prev events :
  fresh env prev ->
  let st := processMessage env prev events in
  (length (saveRequests st) <= 1)%nat /\
  Forall (fun t => t <> []) (saveRequests st) /\
  (negb (turn_over st) = true <-> saveRequests st = []).
Proof.
  intros Hf. cbv zeta.
  pose proof (persisted_by_phase env prev events Hf) as H. cbv zeta in H.
  unfold turn_over.
  destruct (phase (processMessage env prev events)).
  - rewrite H. simpl. split; [lia|]. split; [constructor|]. tauto.
  - rewrite H. simpl. split; [lia|]. split; [constructor|]. tauto.
  - destruct H as (t & -> & Ht). simpl. split; [lia|].
    split; [now repeat constructor|]. split; discriminate.
  - rewrite H. simpl. split; [lia|].
    split; [repeat constructor; discriminate|]. split; discriminate.
Qed.

Lemma session_title_length content : (length (session_title content) <= 51)%nat.
Proof.
  unfold session_title. destruct (50 <? length content)%nat eqn:E.
  - apply Nat.ltb_lt in E. rewrite length_app, length_take. cbn [length]. lia.
  - apply Nat.ltb_ge in E. lia.
Qed.




(** X16: a call of [processMessage] for a new question that gets past the
    checks adds exactly two entries to the conversation, the question and
    after it the turn of the assistant, under different identifiers, and
    leaves the earlier entries alone.  It empties the input, asks the
    backend once, with the question as it was typed and the session of the
    call, and persists the question first and then at most one, non-empty,
    text of the assistant, which is there exactly when the loading flag is
    down again.  A title of at most 51 code units is written only when the
    conversation was empty. *)
Theorem sent_message_adds_question_and_turn (w : Answers)
    (messageContent : jsstring) (events : list event) (c : Chat)
    (u : option UsageCheck) (sid : string) :
  ans_user w <> None -> ans_usage w = UsageData u -> usage_refused u = false ->
  session_of w c = Some sid ->
  (ans_now_user w <= ans_now_ai w)%Z ->
  Forall (fun m => m_id m <> pretty (ans_now_user w) /\
                   m_id m <> pretty (ans_now_ai w + 1)%Z) (chat_messages c) ->
  let c' := processMessage_call w messageContent false events c in
  exists q a answers,
    chat_messages c' = chat_messages c ++ [q; a] /\
    m_sender q = user /\ m_content q = messageContent /\
    m_db_id q = truthy_id (ans_userDbId w) /\
    m_sender a = ai /\ m_id q <> m_id a /\
    chat_inputValue c' = [] /\ chat_currentSessionId c' = Some sid /\
    chat_asked c' = chat_asked c ++ [(messageContent, sid)] /\
    chat_saved c' =
      chat_saved c ++
      (sid, messageContent, user) :: map (fun t => (sid, t, ai)) answers /\
    (length answers <= 1)%nat /\ Forall (fun t => t <> []) answers /\
    (chat_isLoading c' = true <-> answers = []) /\
    exists titles,
      chat_titles c' = chat_titles c ++ titles /\
      (chat_messages c <> [] -> titles = []) /\
      Forall (fun t => fst t = sid /\ (length (snd t) <= 51)%nat) titles.
Proof.
  intros Hu Hus Hr Hs Hclock Hold. cbv zeta.
  destruct (prelude_through w messageContent false c u sid Hu Hus Hr Hs)
    as (c0 & Hpre & Hm0 & Hi0 & Hl0 & Hc0 & Hsv0 & Ht0 & Hf0 & Ha0 & Hto0).
  unfold processMessage_call. rewrite Hpre.
  assert (Forall (fun m => m_id m <> pretty (ans_now_user w)) (chat_messages c0))
    as Hold0.
  { rewrite Hm0. eapply Forall_impl; [exact Hold|]. now intros m [H _]. }
  destruct (add_user_message_fields w sid messageContent (chat_messages c) c0
              Hold0)
    as (q & Hm1 & Hidq & Hsq & Hcq & Hdq & Hi1 & Hl1 & Hc1 & Hto1 & Hsv1 &
        Hf1 & Ha1 & Ht1).
  set (c1 := add_user_message w sid messageContent (chat_messages c) c0) in *.
  assert (pretty (ans_now_user w) <> pretty (ans_now_ai w + 1)%Z) as Hne.
  { intros E. apply pretty_Z_inj in E. lia. }
  assert (fresh (turn_env w messageContent) (chat_messages c1)) as Hfresh.
  { unfold fresh. rewrite Hm1, Hm0. apply Forall_app. split.
    - eapply Forall_impl; [exact Hold|]. now intros m [_ H].
    - constructor; [|constructor]. simpl. now rewrite Hidq. }
  destruct (turn_by_phase (turn_env w messageContent) (chat_messages c1) events
              Hfresh) as (a & steps & (Hms & Hida & _) & Hsa & _).
  destruct (answers_by_phase (turn_env w messageContent) (chat_messages c1)
              events Hfresh) as (Hlen & Hne0 & Hload).
  set (st := processMessage (turn_env w messageContent) (chat_messages c1)
               events) in *.
  exists q, a, (saveRequests st).
  cbn [chat_messages chat_inputValue chat_isLoading chat_currentSessionId
       chat_saved chat_titles chat_asked].
  split. { rewrite Hms, Hm1, Hm0, <- app_assoc. reflexivity. }
  split; [exact Hsq|]. split; [exact Hcq|]. split; [exact Hdq|].
  split; [exact Hsa|].
  split. { rewrite Hidq, Hida. exact Hne. }
  split; [exact Hi1|]. split. { now rewrite Hc1, Hc0. }
  split. { now rewrite Ha1, Ha0. }
  split. { rewrite Hsv1, Hsv0, <- app_assoc. reflexivity. }
  split; [exact Hlen|]. split; [exact Hne0|]. split; [exact Hload|].
  eexists. split. { rewrite Ht1, Ht0. reflexivity. }
  split.
  - intros Hne1. destruct (chat_messages c); [congruence | reflexivity].
  - destruct (chat_messages c); [|constructor].
    constructor; [|constructor]. split; [reflexivity|].
    apply session_title_length.
Qed.

Lemma sent_message_adds_question_and_turn_witness :
  let w := {| ans_user := Some "u1"%string;
              ans_usage :=
                UsageData (Some {| allowed := Some true; limit := Some 10%Z;
                                   requests_used := Some 9%Z |});
              ans_newSession := Some "s1"%string;
              ans_now_user := 1000; ans_timestamp_user := 1000;
              ans_userDbId := Some "d1"%string; ans_now_ai := 1001;
              ans_clock := fun n => (1002 + Z.of_nat n)%Z;
              ans_Number_isTruthy := fun _ => false;
              ans_Number_toString := fun s => s;
              ans_fallbackBody := BodyUnreadable;
              ans_aiDbId := Some "d2"%string |} in
  let c := {| chat_messages := []; chat_inputValue := str "What is tort?";
              chat_isLoading := false; chat_currentSessionId := None;
              chat_toasts := []; chat_saved := []; chat_titles := [];
              chat_feedback := []; chat_asked := [] |} in
  let c' := processMessage_call w (str "What is tort?") false
              [Response true;
               Read (RChunk (js "data: {\x22content\x22:\x22A civil wrong.\x22}\n\n"));
               Read REnd] c in
  exists q a answers,
    chat_messages c' = chat_messages c ++ [q; a] /\
    m_sender q = user /\ m_content q = str "What is tort?" /\
    m_db_id q = truthy_id (ans_userDbId w) /\
    m_sender a = ai /\ m_id q <> m_id a /\
    chat_inputValue c' = [] /\ chat_currentSessionId c' = Some "s1"%string /\
    chat_asked c' = chat_asked c ++ [(str "What is tort?", "s1"%string)] /\
    chat_saved c' =
      chat_saved c ++
      ("s1"%string, str "What is tort?", user) ::
      map (fun t => ("s1"%string, t, ai)) answers /\
    (length answers <= 1)%nat /\ Forall (fun t => t <> []) answers /\
    (chat_isLoading c' = true <-> answers = []) /\
    exists titles,
      chat_titles c' = chat_titles c ++ titles /\
      (chat_messages c <> [] -> titles = []) /\
      Forall (fun t => fst t = "s1"%string /\ (length (snd t) <= 51)%nat) titles.
Proof.
  intros w c.
  apply (sent_message_adds_question_and_turn w (str "What is tort?")
           [Response true;
            Read (RChunk (js "data: {\x22content\x22:\x22A civil wrong.\x22}\n\n"));
            Read REnd] c
           (Some {| allowed := Some true; limit := Some 10%Z;
                    requests_used := Some 9%Z |}) "s1"%string).
  - discriminate.
  - reflexivity.
  - reflexivity.
  - reflexivity.
  - simpl. lia.
  - constructor.
Defined.

Lemma trimStart_nil s :
  trimStart s = [] <-> Forall (fun ch => isTrimmed ch = true) s.
Proof.
  induction s as [|ch s IH]; simpl.
  - split; [constructor | reflexivity].
  - destruct (isTrimmed ch) eqn:E.
    + rewrite IH. split; [now constructor | now inversion 1].
    + split; [discriminate|]. inversion 1; congruence.
Qed.

Lemma trimStart_head s ch r : trimStart s = ch :: r -> isTrimmed ch = false.
Proof.
  induction s as [|x s IH]; simpl; [discriminate|].
  destruct (isTrimmed x) eqn:E; [exact IH|]. now intros [= <- _].
Qed.

Lemma trim_nil s : trim s = [] <-> Forall (fun ch => isTrimmed ch = true) s.
Proof.
  unfold trim. split.
  - intros H. apply trimStart_nil.
    destruct (trimStart s) as [|ch r] eqn:E; [reflexivity|].
    apply trimStart_head in E.
    assert (trimStart (rev (ch :: r)) = []) as Hx.
    { destruct (trimStart (rev (ch :: r))); [reflexivity|].
      simpl in H. apply app_eq_nil in H as [_ H]. discriminate H. }
    apply trimStart_nil in Hx. rewrite List.Forall_forall in Hx.
    specialize (Hx ch). rewrite Hx in E; [discriminate|].
    apply in_rev. rewrite rev_involutive. now left.
  - intros H. apply trimStart_nil in H. now rewrite H.
Qed.

(** X17: an input that consists of white space only (or is empty) is not
    sent: [handleSendMessage] does nothing at all, and so does every key.
    An input with any other character is sent as it was typed, white space
    around it included; the Enter key sends it only without Shift and not on
    a mobile device, and no other key sends. *)
Theorem blank_input_is_not_sent (w : Answers) (events : list event) (c : Chat) :
  (Forall (fun ch => isTrimmed ch = true) (chat_inputValue c) ->
   handleSendMessage w events c = c /\
   forall key shiftKey isMobile,
     handleKeyDown key shiftKey isMobile w events c = c) /\
  (Exists (fun ch => isTrimmed ch = false) (chat_inputValue c) ->
   handleSendMessage w events c =
     processMessage_call w (chat_inputValue c) false events c /\
   handleKeyDown "Enter" false false w events c =
     processMessage_call w (chat_inputValue c) false events c) /\
  (forall key shiftKey isMobile,
     key <> "Enter"%string \/ shiftKey = true \/ isMobile = true ->
     handleKeyDown key shiftKey isMobile w events c = c).
Proof.
  split; [|split].
  - intros H. apply trim_nil in H.
    assert (handleSendMessage w events c = c) as Hs.
    { unfold handleSendMessage. now rewrite H. }
    split; [exact Hs|]. intros key shiftKey isMobile. unfold handleKeyDown.
    rewrite Hs. now destruct (key =? "Enter")%string, (negb shiftKey && negb isMobile).
  - intros H.
    assert (handleSendMessage w events c =
            processMessage_call w (chat_inputValue c) false events c) as Hs.
    { unfold handleSendMessage. rewrite js_eqb_nil.
      destruct (trim (chat_inputValue c)) eqn:E; [|reflexivity].
      apply trim_nil in E. apply List.Exists_exists in H as (ch & Hin & Hch).
      rewrite List.Forall_forall in E. specialize (E ch Hin). congruence. }
    split; [exact Hs|]. unfold handleKeyDown. simpl. exact Hs.
  - intros key shiftKey isMobile H. unfold handleKeyDown.
    destruct (String.eqb_spec key "Enter"); [|reflexivity].
    destruct H as [H | [-> | ->]]; [contradiction | reflexivity|].
    now rewrite andb_false_r.
Qed.




(** X19: [loadSession] replaces the conversation by the rows of the session,
    one entry per row and in their order, each carrying the identifier of
    its row, makes the session the current one and takes the loading flag
    down.  A notification about a row that was loaded then changes nothing,
    and a notification about a row whose identifier was not loaded adds one
    entry at the end.  When the query fails, the conversation and the
    current session stay as they were and the user is told. *)
Theorem loaded_session_ignores_its_own_rows (sessionId : string)
    (data : list Row) (c : Chat) :
  let c' := loadSession sessionId (QueryData (Some data)) c in
  chat_messages c' = map loaded_message data /\
  map m_db_id (chat_messages c') = map (fun r => Some (row_id r)) data /\
  chat_currentSessionId c' = Some sessionId /\ chat_isLoading c' = false /\
  (forall r, In r data -> chat_messages (on_insert r c') = chat_messages c') /\
  (forall r, ~ In (row_id r) (map row_id data) ->
     chat_messages (on_insert r c') =
       chat_messages c' ++ [inserted_message r]) /\
  let failed := loadSession sessionId QueryFailed c in
  chat_messages failed = chat_messages c /\
  chat_currentSessionId failed = chat_currentSessionId c /\
  chat_isLoading failed = false /\
  chat_toasts failed = chat_toasts c ++ [toast_load_failed].
Proof.
  cbv zeta.
  assert (chat_messages (loadSession sessionId (QueryData (Some data)) c) =
          map loaded_message data) as Hm.
  { destruct data; reflexivity. }
  split; [exact Hm|]. split.
  { rewrite Hm, map_map. reflexivity. }
  split. { destruct data; reflexivity. }
  split. { destruct data; reflexivity. }
  split; [|split].
  - intros r Hin. unfold on_insert. cbn [chat_set_messages chat_messages].
    rewrite Hm. apply insert_update_known. now apply existsb_loaded.
  - intros r Hnew. unfold on_insert. cbn [chat_set_messages chat_messages].
    rewrite Hm. apply insert_update_new. apply existsb_has_db_id_false.
    apply List.Forall_forall. intros m Hin. apply in_map_iff in Hin as (r0 & <- & Hin).
    simpl. intros [= E]. apply Hnew. rewrite <- E. now apply in_map.
  - repeat split; reflexivity.
Qed.
